(** * Retention engine of bugsink ([events/retention.py])

    A shallow embedding of the eviction code and the properties proved of it.

    Modelling choices, in one place:
    - a timezone-aware UTC [datetime] is the instant it denotes, counted in
      microseconds since 1970-01-01T00:00:00Z (the resolution of Python's
      [datetime]); [get_epoch] asserts that its argument is such a datetime.
      Python holds the instants of the years 1 to 9999 and
      [datetime.fromtimestamp] raises outside them:
      [datetime_for_epoch_or_error] has that error, [datetime_for_epoch] is
      the instant returned;
    - a Python float is the rational it denotes, and every float operation is
      the exact operation followed by [binary64], the rounding to 53
      significant bits, to nearest, ties to even. The source uses floats three
      times: [timestamp() / 3600], [max_event_count * 0.95] and
      [random() * event_count * 2]. The first two are also evaluated with
      Rocq's primitive binary64 floats and compared on sample ranges;
    - the [Event] table is a list of rows holding the columns the queries of
      [retention.py] read; a queryset filter is a boolean predicate on rows;
      [qs.delete()] returns the number of [Event] rows it deleted;
    - code that touches the database runs in a state monad over [World]: the
      rows, the log of [DELETE] statements issued, what was printed, and the
      records handed to the performance logger (timings are left out);
    - [while] loops run on fuel; the fuel handed out is shown to be enough. *)

From Stdlib Require Import Ascii String ZArith QArith Qround Qpower List Bool Lia Lqa.
From Stdlib Require Import Uint63 PrimFloat SpecFloat FloatOps.
Import ListNotations.
Local Open Scope Z_scope.

(** ** Python helpers *)

(** [int(x)] on a float: truncation toward zero. *)
Definition py_int (x : Q) : Z := Z.quot (Qnum x) (Zpos (Qden x)).

(** [round(x)] on a float: to the nearest integer, halves to the even one. *)
Definition py_round (x : Q) : Z :=
  let f := Qfloor x in
  match Qcompare (x - inject_Z f) (1 # 2) with
  | Lt => f
  | Gt => f + 1
  | Eq => if Z.even f then f else f + 1
  end.

(** ** Binary64 floats

    A finite Python float is the rational it denotes. An operation on floats
    is the exact operation followed by [binary64], the rounding of IEEE 754
    double precision: 53 significant bits, to nearest, ties to even. The
    exponent is not bounded: the floats of [retention.py] are quotients and
    products of a microsecond count, a capacity, an event count and a draw of
    [random()], far from the overflow and underflow thresholds. *)

(** [floor (log2 x)] for [x > 0]. *)
Definition ilog2 (x : Q) : Z :=
  let e := Z.log2 (Qnum x) - Z.log2 (Zpos (Qden x)) in
  if Qle_bool (2 ^ e) x then e else e - 1.

(** [x > 0] rounded to 53 significant bits. *)
Definition binary64_pos (x : Q) : Q :=
  let quantum := (2 ^ (ilog2 x - 52))%Q in
  (inject_Z (py_round (x / quantum)) * quantum)%Q.

Definition binary64 (x : Q) : Q :=
  let x := Qred x in
  Qred (match Qcompare x 0 with
        | Gt => binary64_pos x
        | Lt => - binary64_pos (- x)
        | Eq => 0
        end)%Q.

(** [float(n)]: an [int] operand of a float operation is converted first. *)
Definition float_of_int (n : Z) : Q := binary64 (inject_Z n).

(** [x / y] and [x * y] on floats. *)
Definition float_div (x y : Q) : Q := binary64 (x / y).

Definition float_mul (x y : Q) : Q := binary64 (x * y).

(** [f] is a binary64 value: an integer of at most 53 bits times a power of 2. *)
Definition is_binary64 (f : Q) : Prop :=
  exists m h : Z, Z.abs m < 2 ^ 53 /\ (f == inject_Z m * 2 ^ h)%Q.

(** [x or 0] where [x] is an integer or [None]. *)
Definition py_or_0 (x : option Z) : Z :=
  match x with
  | Some v => if v =? 0 then 0 else v
  | None => 0
  end.

(** [max(xs)]; [None] stands for the [ValueError] raised on an empty sequence. *)
Definition py_max (xs : list Z) : option Z :=
  match xs with
  | [] => None
  | x :: rest => Some (fold_left Z.max rest x)
  end.

(** [Min(...)] aggregate of a queryset: [None] when no row matches. *)
Definition aggregate_min (xs : list Z) : option Z :=
  match xs with
  | [] => None
  | x :: rest => Some (fold_left Z.min rest x)
  end.

(** [Max(...)] aggregate of a queryset: [None] when no row matches. *)
Definition aggregate_max (xs : list Z) : option Z := py_max xs.

(** [enumerate(xs)], counting from [n]. *)
Fixpoint enumerate_from {A : Type} (n : Z) (xs : list A) : list (Z * A) :=
  match xs with
  | [] => []
  | x :: rest => (n, x) :: enumerate_from (n + 1) rest
  end.

Definition enumerate {A : Type} (xs : list A) : list (Z * A) := enumerate_from 0 xs.

(** ** Epochs *)

(** Microseconds since 1970-01-01T00:00:00Z. *)
Definition datetime := Z.

(** The first and the last instant a Python [datetime] holds:
    0001-01-01T00:00:00Z and 9999-12-31T23:59:59.999999Z. *)
Definition datetime_min : datetime := -62135596800000000.

Definition datetime_max : datetime := 253402300799999999.

(** [datetime.timestamp()]: seconds since 1970 as a float, the microsecond
    count divided by [10**6] and rounded once. *)
Definition timestamp (datetime_obj : datetime) : Q :=
  binary64 (inject_Z datetime_obj / inject_Z 1000000).

(** The instant [datetime.fromtimestamp(seconds, timezone.utc)] returns for an
    integer number of seconds. *)
Definition fromtimestamp (seconds : Z) : datetime := seconds * 1000000.

(** [datetime.fromtimestamp(seconds, timezone.utc)] with its error: [None]
    stands for the exception raised when the instant is outside the years 1
    to 9999. *)
Definition fromtimestamp_or_error (seconds : Z) : option datetime :=
  let d := fromtimestamp seconds in
  if (datetime_min <=? d) && (d <=? datetime_max) then Some d else None.

Definition get_epoch (datetime_obj : datetime) : Z :=
  py_int (float_div (timestamp datetime_obj) (float_of_int 3600)).

(** The instant [datetime_for_epoch] returns. *)
Definition datetime_for_epoch (epoch : Z) : datetime :=
  fromtimestamp (epoch * 3600).

(** [datetime_for_epoch] with its error. The queries below are modelled where
    it returns: the epochs the planner hands over lie between the epochs of
    two instants that exist. *)
Definition datetime_for_epoch_or_error (epoch : Z) : option datetime :=
  fromtimestamp_or_error (epoch * 3600).

(** ** The event store *)

Record Project := mkProject {
  project_pk : Z;
  retention_max_event_count : Z
}.

Record Event := mkEvent {
  project_id : Z;
  server_side_timestamp : datetime;
  irrelevance_for_retention : Z;
  never_evict : bool
}.

(** A queryset filter ([Q] object or keyword arguments of [filter]). *)
Definition Filter := Event -> bool.

Definition get_epoch_bounds (lower upper : option Z) : Filter :=
  match lower, upper with
  | None, None => fun _ => true
  | None, Some upper =>
      fun e => server_side_timestamp e <? datetime_for_epoch upper
  | Some lower, None =>
      fun e => datetime_for_epoch lower <=? server_side_timestamp e
  | Some lower, Some upper =>
      fun e => (datetime_for_epoch lower <=? server_side_timestamp e)
               && (server_side_timestamp e <? datetime_for_epoch upper)
  end.

(** One [DELETE] statement, as issued by [evict_for_epoch_and_irrelevance]. *)
Record DeleteQuery := mkDeleteQuery {
  dq_project : Z;
  dq_irrelevance_gt : Z;
  dq_timestamp_lt : option datetime;
  dq_nr_of_deletions : Z
}.

(** What [evict_for_max_events] hands to [performance_logger.info]. *)
Record PerformanceRecord := mkPerformanceRecord {
  down_to : Z;
  orig_max_total_irrelevance : Z;
  final_max_total_irrelevance : Z
}.

Record World := mkWorld {
  rows : list Event;
  delete_log : list DeleteQuery;
  stdout : list string;
  performance_log : list PerformanceRecord
}.

Definition M (A : Type) : Type := World -> A * World.

Definition ret {A : Type} (a : A) : M A := fun w => (a, w).

Definition bind {A B : Type} (m : M A) (k : A -> M B) : M B :=
  fun w => let (a, w') := m w in k a w'.

Notation "x <- m ;; k" := (bind m (fun x => k))
  (at level 61, m at next level, right associativity).

(** Read-only access to the rows ([SELECT]). *)
Definition select {A : Type} (f : list Event -> A) : M A :=
  fun w => (f (rows w), w).

(** [qs.delete()]: removes the matching rows, returns how many there were. *)
Definition delete (project : Z) (irrelevance_gt : Z) (timestamp_lt : option datetime)
    (qs : Filter) : M Z :=
  fun w =>
    let nr_of_deletions := Z.of_nat (length (filter qs (rows w))) in
    (nr_of_deletions,
     {| rows := filter (fun e => negb (qs e)) (rows w);
        delete_log := delete_log w ++
          [mkDeleteQuery project irrelevance_gt timestamp_lt nr_of_deletions];
        stdout := stdout w;
        performance_log := performance_log w |}).

Definition print (s : string) : M unit :=
  fun w => (tt, {| rows := rows w; delete_log := delete_log w;
                   stdout := stdout w ++ [s];
                   performance_log := performance_log w |}).

Definition performance_logger_info (r : PerformanceRecord) : M unit :=
  fun w => (tt, {| rows := rows w; delete_log := delete_log w;
                   stdout := stdout w;
                   performance_log := performance_log w ++ [r] |}).

(** ** Irrelevance and buckets *)

(** [format(n, 'b')], most significant digit first, on top of [acc]. *)
Fixpoint format_b_pos (p : positive) (acc : string) : string :=
  match p with
  | xH => String "1"%char acc
  | xO p' => format_b_pos p' (String "0"%char acc)
  | xI p' => format_b_pos p' (String "1"%char acc)
  end.

Definition format_b (n : Z) : string :=
  match n with
  | Z0 => "0"%string
  | Zpos p => format_b_pos p ""%string
  | Zneg p => String "-"%char (format_b_pos p ""%string)
  end.

(** [s.rstrip('0')] *)
Fixpoint rstrip_0 (s : string) : string :=
  match s with
  | EmptyString => EmptyString
  | String c rest =>
      match rstrip_0 rest with
      | EmptyString => if Ascii.eqb c "0"%char then EmptyString else String c EmptyString
      | rest' => String c rest'
      end
  end.

Definition nonzero_leading_bits (n : Z) : Z :=
  let s := format_b n in
  Z.of_nat (String.length (rstrip_0 s)).

(** [random] is the draw of [random()], a float in [[0, 1)]. *)
Definition get_random_irrelevance (random : Q) (event_count : Z) : Z :=
  nonzero_leading_bits
    (py_round (float_mul (float_mul random (float_of_int event_count))
                         (float_of_int 2))).

Definition should_evict (project : Project) (timestamp : datetime)
    (stored_event_count : Z) : bool :=
  if stored_event_count >? retention_max_event_count project then true
  else false.

(** [pow(2, age_based_irrelevance) - 1]; only called on counters [0, 1, 2, ...]. *)
Definition get_age_for_irrelevance (age_based_irrelevance : Z) : Z :=
  2 ^ age_based_irrelevance - 1.

(** The generator [map_N_until], collected in a list; [n] is the loop counter
    and [None] means that the fuel ran out before the loop ended. *)
Fixpoint map_N_until_from (fuel : nat) (f : Z -> Z) (until : Z) (onemore : bool)
    (n : Z) : option (list Z) :=
  match fuel with
  | O => None
  | S fuel' =>
      let result := f n in
      if result <? until then
        option_map (cons result) (map_N_until_from fuel' f until onemore (n + 1))
      else Some (if onemore then [result] else [])
  end.

Definition map_N_until (fuel : nat) (f : Z -> Z) (until : Z) (onemore : bool)
    : option (list Z) :=
  map_N_until_from fuel f until onemore 0.

Fixpoint pairwise {A : Type} (it : list A) : list (A * A) :=
  match it with
  | prev :: ((current :: _) as rest) => (prev, current) :: pairwise rest
  | _ => []
  end.

(** A bucket: [((lower bound, upper bound), age_based_irrelevance)]. *)
Definition Bucket : Type := (option Z * option Z) * Z.

(** Fuel for [map_N_until get_age_for_irrelevance difference]. *)
Definition ages_fuel (difference : Z) : nat := S (S (Z.to_nat (Z.log2 difference))).

Definition evictable_of (project : Project) : Filter :=
  fun e => (project_id e =? project_pk project) && negb (never_evict e).

Definition get_epoch_bounds_with_irrelevance (project : Project)
    (current_timestamp : datetime) : M (list Bucket) :=
  oldest <- select (fun events =>
      aggregate_min (map server_side_timestamp (filter (evictable_of project) events))) ;;
  let first_epoch :=
    match oldest with
    | Some oldest => get_epoch oldest
    | None => get_epoch current_timestamp
    end in
  let current_epoch := get_epoch current_timestamp in
  let difference := current_epoch - first_epoch in
  let ages :=
    match map_N_until (ages_fuel difference) get_age_for_irrelevance difference false with
    | Some ages => ages
    | None => []
    end in
  let swapped_bounds :=
    pairwise ([None] ++ map (fun n => Some (current_epoch - n)) ages ++ [None]) in
  ret (map (fun '(age_based_irrelevance, (ub, lb)) => ((lb, ub), age_based_irrelevance))
           (enumerate swapped_bounds)).

Definition get_irrelevance_pairs (project : Project)
    (epoch_bounds_with_irrelevance : list Bucket) : M (list (Z * Z)) :=
  select (fun events =>
    map (fun '((lower_bound, upper_bound), age_based_irrelevance) =>
           let d := aggregate_max (map irrelevance_for_retention
                      (filter (fun e => get_epoch_bounds lower_bound upper_bound e
                                        && evictable_of project e) events)) in
           let max_event_irrelevance := py_or_0 d in
           (age_based_irrelevance, max_event_irrelevance))
        epoch_bounds_with_irrelevance).

(** [sum(pair)] on a 2-tuple. *)
Definition sum_pair (pr : Z * Z) : Z := fst pr + snd pr.

Definition filter_for_work (epoch_bounds_with_irrelevance : list Bucket)
    (pairs : list (Z * Z)) (max_total_irrelevance : Z) : list Bucket :=
  map snd (filter (fun '(pr, ebwi) => sum_pair pr >? max_total_irrelevance)
                  (combine pairs epoch_bounds_with_irrelevance)).

(** The literal [0.95] is the binary64 value nearest to 95/100. *)
Definition lowered_target (max_event_count : Z) : Z :=
  py_int (float_mul (float_of_int max_event_count) (binary64 (95 # 100))).

(** ** Eviction *)

Definition evict_for_epoch_and_irrelevance (project : Project) (max_epoch : option Z)
    (max_irrelevance : Z) : M Z :=
  let qs : Filter := fun e =>
    (project_id e =? project_pk project)
    && (irrelevance_for_retention e >? max_irrelevance)
    && negb (never_evict e) in
  let qs : Filter :=
    match max_epoch with
    | Some max_epoch =>
        fun e => qs e && (server_side_timestamp e <? datetime_for_epoch max_epoch)
    | None => qs
    end in
  nr_of_deletions <- delete (project_pk project) max_irrelevance
                            (option_map datetime_for_epoch max_epoch) qs ;;
  ret nr_of_deletions.

(** [deleted >= max_event_count], false when no quota is given. *)
Definition quota_reached (max_event_count : option Z) (deleted : Z) : bool :=
  match max_event_count with
  | Some max_event_count => deleted >=? max_event_count
  | None => false
  end.

(** The [for] loop of [evict_for_irrelevance], entered with [deleted] so far. *)
Fixpoint evict_for_irrelevance_from (project : Project) (max_total_irrelevance : Z)
    (epoch_bounds_with_irrelevance : list Bucket) (max_event_count : option Z)
    (deleted : Z) : M Z :=
  match epoch_bounds_with_irrelevance with
  | [] => ret deleted
  | ((_, epoch_ub_exclusive), irrelevance_for_age) :: older =>
      let max_item_irrelevance := max_total_irrelevance - irrelevance_for_age in
      n <- evict_for_epoch_and_irrelevance project epoch_ub_exclusive max_item_irrelevance ;;
      let deleted := deleted + n in
      if max_item_irrelevance <=? -1 then ret deleted
      else if quota_reached max_event_count deleted then
        _ <- print "BREAKING as just programmed" ;;
        ret deleted
      else evict_for_irrelevance_from project max_total_irrelevance older
             max_event_count deleted
  end.

Definition evict_for_irrelevance (project : Project) (max_total_irrelevance : Z)
    (epoch_bounds_with_irrelevance : list Bucket) (max_event_count : option Z) : M Z :=
  evict_for_irrelevance_from project max_total_irrelevance
    epoch_bounds_with_irrelevance max_event_count 0.

Inductive exn :=
  | ValueError
      (* max() arg is an empty sequence *)
  | NoMoreEffectiveEviction (max_total_irrelevance deleted : Z).
      (* Exception("No more effective eviction possible but target not reached");
         the arguments are the locals of the frame at the raise *)

Inductive result (A : Type) :=
  | Returned (a : A)
  | Raised (e : exn)
  | OutOfFuel.

Arguments Returned {A} a.
Arguments Raised {A} e.
Arguments OutOfFuel {A}.

(** The [while] loop of [evict_for_max_events], entered with the locals
    [max_total_irrelevance] and [deleted]; returns them at the loop's exit. *)
Fixpoint sweep (fuel : nat) (project : Project) (stored_event_count : Z)
    (epoch_bounds_with_irrelevance : list Bucket) (pairs : list (Z * Z))
    (max_total_irrelevance deleted : Z) : M (result (Z * Z)) :=
  match fuel with
  | O => ret OutOfFuel
  | S fuel' =>
      if stored_event_count - deleted
           >? lowered_target (retention_max_event_count project) then
        let max_total_irrelevance := max_total_irrelevance - 1 in
        n <- evict_for_irrelevance project max_total_irrelevance
               (filter_for_work epoch_bounds_with_irrelevance pairs max_total_irrelevance)
               (Some ((retention_max_event_count project
                       - lowered_target (retention_max_event_count project)) - deleted)) ;;
        let deleted := deleted + n in
        if max_total_irrelevance <? -1 then
          ret (Raised (NoMoreEffectiveEviction max_total_irrelevance deleted))
        else sweep fuel' project stored_event_count epoch_bounds_with_irrelevance pairs
               max_total_irrelevance deleted
      else ret (Returned (max_total_irrelevance, deleted))
  end.

(** Fuel for the sweep that starts at [max_total_irrelevance]. *)
Definition sweep_fuel (max_total_irrelevance : Z) : nat :=
  S (Z.to_nat (max_total_irrelevance + 2)).

Definition evict_for_max_events (project : Project) (timestamp : datetime)
    (stored_event_count : option Z) : M (result Z) :=
  stored_event_count <-
    match stored_event_count with
    | Some stored_event_count => ret stored_event_count
    | None =>
        select (fun events => Z.of_nat (length
          (filter (fun e => project_id e =? project_pk project) events)) + 1)
    end ;;
  epoch_bounds_with_irrelevance <- get_epoch_bounds_with_irrelevance project timestamp ;;
  pairs <- get_irrelevance_pairs project epoch_bounds_with_irrelevance ;;
  match py_max (map sum_pair pairs) with
  | None => ret (Raised ValueError)
  | Some orig_max_total_irrelevance =>
      r <- sweep (sweep_fuel orig_max_total_irrelevance) project stored_event_count
             epoch_bounds_with_irrelevance pairs orig_max_total_irrelevance 0 ;;
      match r with
      | Returned (max_total_irrelevance, deleted) =>
          _ <- performance_logger_info
                 (mkPerformanceRecord (stored_event_count - deleted)
                    orig_max_total_irrelevance max_total_irrelevance) ;;
          ret (Returned max_total_irrelevance)
      | Raised e => ret (Raised e)
      | OutOfFuel => ret OutOfFuel
      end
  end.

(** ** The same float expressions with primitive floats

    Two float expressions of the source, evaluated with Rocq's primitive
    binary64 floats; used only to check [binary64] against them. The
    conversions are exact below 2^53 in absolute value. *)

Definition float_of_Z (n : Z) : float :=
  if n <? 0 then (- of_uint63 (Uint63.of_Z (- n)))%float
  else of_uint63 (Uint63.of_Z n).

(** [int(x)] on a finite binary64 float. *)
Definition int_of_float (x : float) : Z :=
  match Prim2SF x with
  | S754_finite s m e =>
      let v := if 0 <=? e then Zpos m * 2 ^ e else Z.quot (Zpos m) (2 ^ (- e)) in
      if s then - v else v
  | _ => 0
  end.

Definition get_epoch_binary64 (datetime_obj : datetime) : Z :=
  int_of_float (float_of_Z datetime_obj / float_of_Z 1000000 / float_of_Z 3600)%float.

Definition lowered_target_binary64 (max_event_count : Z) : Z :=
  int_of_float (float_of_Z max_event_count * (float_of_Z 95 / float_of_Z 100))%float.

(** The instants one microsecond before, at, and one microsecond after the
    start of [n] epochs from [epoch] on. *)
Fixpoint epoch_boundaries (n : nat) (epoch : Z) : list datetime :=
  match n with
  | O => []
  | S n' =>
      datetime_for_epoch epoch - 1 :: datetime_for_epoch epoch
      :: datetime_for_epoch epoch + 1 :: epoch_boundaries n' (epoch + 1)
  end.

(** ** Notions used to state the properties *)

(** An epoch lies in a bucket: lower bound inclusive, upper bound exclusive,
    [None] unbounded. *)
Definition epoch_in_bucket (epoch : Z) (b : Bucket) : bool :=
  match fst (fst b) with Some lb => lb <=? epoch | None => true end
  && match snd (fst b) with Some ub => epoch <? ub | None => true end.

(** The world a test starts from: the given rows, nothing logged. *)
Definition world_of (events : list Event) : World :=
  mkWorld events [] [] [].

(** The epoch of the spec: the mathematical floor of seconds-since-1970 / 3600. *)
Definition epoch_floor (datetime_obj : datetime) : Z :=
  Qfloor (inject_Z datetime_obj / inject_Z 1000000 / inject_Z 3600)%Q.

(** The epoch boundaries of the planner go strictly down from the current epoch. *)
Inductive descending : option Z -> list Z -> Prop :=
  | descending_nil (above : option Z) : descending above []
  | descending_cons (above : option Z) (x : Z) (xs : list Z) :
      match above with Some u => x < u | None => True end ->
      descending (Some x) xs ->
      descending above (x :: xs).

(** The buckets built from the epoch boundaries [xs], newest first. *)
Definition buckets_of_bounds (xs : list Z) : list Bucket :=
  map (fun '(age_based_irrelevance, (ub, lb)) => ((lb, ub), age_based_irrelevance))
      (enumerate (pairwise ([None] ++ map Some xs ++ [None]))).

(** [epoch] is below the (exclusive) upper bound [above]. *)
Definition below (epoch : Z) (above : option Z) : bool :=
  match above with Some u => epoch <? u | None => true end.

(** Number of rows of the project that eviction may delete. *)
Definition evictable_count (project : Project) (events : list Event) : Z :=
  Z.of_nat (length (filter (evictable_of project) events)).

(** Number of rows of the project, [Event.objects.filter(project=project).count()]. *)
Definition project_count (project : Project) (events : list Event) : Z :=
  Z.of_nat (length (filter (fun e => project_id e =? project_pk project) events)).

(** [w'] is [w] with [n] rows deleted, all of them non-protected rows of the
    project; the logs may have grown. *)
Definition evicts (project : Project) (n : Z) (w w' : World) : Prop :=
  exists sel : Filter,
    (forall e, sel e = true -> evictable_of project e = true)
    /\ rows w' = filter (fun e => negb (sel e)) (rows w)
    /\ n = Z.of_nat (length (filter sel (rows w))).

(** The data-model invariant [item_irrelevance >= 0], on the rows eviction reads. *)
Definition irrelevance_nonneg (project : Project) (events : list Event) : Prop :=
  forall e, In e events -> evictable_of project e = true ->
    0 <= irrelevance_for_retention e.

(** The rows selected by the [DELETE] of [evict_for_epoch_and_irrelevance]. *)
Definition eviction_filter (project : Project) (max_epoch : option Z)
    (max_irrelevance : Z) : Filter :=
  fun e =>
    (project_id e =? project_pk project)
    && (irrelevance_for_retention e >? max_irrelevance)
    && negb (never_evict e)
    && match max_epoch with
       | Some max_epoch => server_side_timestamp e <? datetime_for_epoch max_epoch
       | None => true
       end.

(** The count [evict_for_max_events] works with: the one passed in, or the
    project's row count plus one. *)
Definition stored_count (stored_event_count : option Z) (project : Project)
    (w : World) : Z :=
  match stored_event_count with
  | Some stored_event_count => stored_event_count
  | None => project_count project (rows w) + 1
  end.

(** Eviction runs one after the other, whatever their outcomes. *)
Definition evict_runs (runs : list (Project * datetime * option Z)) (w : World)
    : World :=
  fold_left (fun w '(project, timestamp, stored_event_count) =>
               snd (evict_for_max_events project timestamp stored_event_count w))
            runs w.

(** The world after a run that logged [r] and left the rows of [w']. *)
Definition logged (r : PerformanceRecord) (w' : World) : World :=
  {| rows := rows w'; delete_log := delete_log w'; stdout := stdout w';
     performance_log := performance_log w' ++ [r] |}.

(** Rows deleted by a sequence of [DELETE] statements. *)
Definition total_deletions (issued : list DeleteQuery) : Z :=
  fold_right Z.add 0 (map dq_nr_of_deletions issued).

(** The variant of [evict_for_irrelevance] the early exit is compared with: no
    [break] on [max_item_irrelevance <= -1] (and no quota), every remaining
    older bucket gets its [DELETE]. *)
Fixpoint evict_for_irrelevance_every_bucket_from (project : Project)
    (max_total_irrelevance : Z) (epoch_bounds_with_irrelevance : list Bucket)
    (deleted : Z) : M Z :=
  match epoch_bounds_with_irrelevance with
  | [] => ret deleted
  | ((_, epoch_ub_exclusive), irrelevance_for_age) :: older =>
      let max_item_irrelevance := max_total_irrelevance - irrelevance_for_age in
      n <- evict_for_epoch_and_irrelevance project epoch_ub_exclusive max_item_irrelevance ;;
      evict_for_irrelevance_every_bucket_from project max_total_irrelevance older
        (deleted + n)
  end.

Definition evict_for_irrelevance_every_bucket (project : Project)
    (max_total_irrelevance : Z) (epoch_bounds_with_irrelevance : list Bucket) : M Z :=
  evict_for_irrelevance_every_bucket_from project max_total_irrelevance
    epoch_bounds_with_irrelevance 0.

(** The upper bound [older] is at or before the upper bound [newer]. *)
Definition ub_le (older newer : option Z) : Prop :=
  match newer, older with
  | None, _ => True
  | Some u, Some u' => u' <= u
  | Some _, None => False
  end.

(** A bucket list goes from newest to oldest: upper bounds never go up. *)
Inductive newest_to_oldest : list Bucket -> Prop :=
  | newest_to_oldest_nil : newest_to_oldest []
  | newest_to_oldest_cons (b : Bucket) (older : list Bucket) :
      (forall b', In b' older -> ub_le (snd (fst b')) (snd (fst b))) ->
      newest_to_oldest older ->
      newest_to_oldest (b :: older).

(** ** Sample data *)

Definition sample_project : Project := mkProject 1 10000.

Definition sample_now : datetime := datetime_for_epoch 500000 + 1234567.

(** [n] rows of the sample project, one a minute going back from
    [sample_now], with item irrelevances 0 to 6 in turn. *)
Fixpoint count_up (n : nat) (i : Z) : list Z :=
  match n with
  | O => []
  | S n' => i :: count_up n' (i + 1)
  end.

Definition sample_events (n : Z) (protected : bool) : list Event :=
  map (fun i => mkEvent 1 (sample_now - i * 60000000) (i mod 7) protected)
      (count_up (Z.to_nat n) 0).

(** Two times three rows: item irrelevance 5 in epoch 499999, item
    irrelevance 3 in epoch 499990. *)
Definition quota_events : list Event :=
  let recent := mkEvent 1 (datetime_for_epoch 499999 + 5) 5 false in
  let old := mkEvent 1 (datetime_for_epoch 499990 + 5) 3 false in
  [recent; old; recent; old; recent; old].

Definition quota_buckets : list Bucket :=
  [((Some 499999, Some 500000), 1); ((None, Some 499999), 2)].

(** ** Notions for the further properties *)

(** The integers [n], [n + 1], ..., [len] of them. *)
Definition counters (n : Z) (len : nat) : list Z :=
  map (fun i => n + Z.of_nat i) (seq 0 len).

(** Number of binary digits of [p] down to its lowest 1 bit. *)
Fixpoint leading_bits (p : positive) : nat :=
  match p with
  | xO p' => leading_bits p'
  | _ => Pos.size_nat p
  end.

(** The local [difference] of [get_epoch_bounds_with_irrelevance]: the
    current epoch minus the epoch of the oldest non-protected event of the
    project (the current epoch itself when there is none). *)
Definition planner_difference (project : Project) (current_timestamp : datetime)
    (w : World) : Z :=
  let oldest :=
    aggregate_min (map server_side_timestamp
                       (filter (evictable_of project) (rows w))) in
  let first_epoch :=
    match oldest with
    | Some oldest => get_epoch oldest
    | None => get_epoch current_timestamp
    end in
  let current_epoch := get_epoch current_timestamp in
  current_epoch - first_epoch.

(** The buckets built from the boundaries [xs] below the upper bound [above],
    numbered from [n] on. *)
Definition bucket_chain (above : option Z) (n : Z) (xs : list Z) : list Bucket :=
  map (fun '(age_based_irrelevance, (ub, lb)) => ((lb, ub), age_based_irrelevance))
      (enumerate_from n (pairwise (above :: map Some xs ++ [None]))).

(** The bucket of a row on a bucket list: the first one whose epoch bounds
    select the row. *)
Definition bucket_of (buckets : list Bucket) (e : Event) : option Bucket :=
  find (fun b : Bucket => get_epoch_bounds (fst (fst b)) (snd (fst b)) e) buckets.

(** The total irrelevance of a row on a bucket list: the age-based
    irrelevance of its bucket plus its own irrelevance. *)
Definition total_irrelevance (buckets : list Bucket) (e : Event) : option Z :=
  option_map (fun b : Bucket => snd b + irrelevance_for_retention e)
             (bucket_of buckets e).

(** A row that eviction may delete and whose total irrelevance is above
    [max_total_irrelevance]. *)
Definition over_threshold (project : Project) (buckets : list Bucket)
    (max_total_irrelevance : Z) : Filter :=
  fun e =>
    evictable_of project e
    && match total_irrelevance buckets e with
       | Some total => total >? max_total_irrelevance
       | None => false
       end.

(** Some bucket's [DELETE] of a pass at [max_total_irrelevance] selects the row. *)
Definition selected_by_a_bucket (project : Project) (buckets : list Bucket)
    (max_total_irrelevance : Z) : Filter :=
  fun e =>
    existsb (fun b : Bucket =>
               eviction_filter project (snd (fst b)) (max_total_irrelevance - snd b) e)
            buckets.

(** * Properties *)

(** ** Binary64 rounding *)

Lemma py_round_half (y : Q) :
  (y - (1 # 2) <= inject_Z (py_round y) <= y + (1 # 2))%Q.
Proof.
  unfold py_round.
  pose proof (Qfloor_le y) as Hlo. pose proof (Qlt_floor y) as Hhi.
  rewrite inject_Z_plus in Hhi. change (inject_Z 1) with 1%Q in Hhi.
  destruct (Qcompare (y - inject_Z (Qfloor y)) (1 # 2)) eqn:Hc.
  - apply Qeq_alt in Hc.
    destruct (Z.even (Qfloor y));
      [|rewrite inject_Z_plus; change (inject_Z 1) with 1%Q]; split; lra.
  - apply Qlt_alt in Hc. split; lra.
  - apply Qgt_alt in Hc. rewrite inject_Z_plus. change (inject_Z 1) with 1%Q.
    split; lra.
Qed.

Lemma inject_Z_lt_1 (a b : Z) : (inject_Z a < inject_Z b + 1)%Q -> a <= b.
Proof.
  intros H. change 1%Q with (inject_Z 1) in H. rewrite <- inject_Z_plus in H.
  rewrite <- Zlt_Qlt in H. lia.
Qed.

(** [py_round y] is an integer nearest to [y]. *)
Lemma py_round_nearest (y : Q) (N : Z) :
  ((y <= inject_Z N ->
    inject_Z (py_round y) <= inject_Z N /\ 2 * y - inject_Z N <= inject_Z (py_round y))
   /\ (inject_Z N <= y ->
       inject_Z N <= inject_Z (py_round y)
       /\ inject_Z (py_round y) <= 2 * y - inject_Z N))%Q.
Proof.
  pose proof (py_round_half y) as [Hlo Hhi].
  set (R := py_round y) in *. split; intros HN.
  - assert (HRN : R <= N) by (apply inject_Z_lt_1; lra).
    split; [rewrite <- Zle_Qle; exact HRN|].
    destruct (Z.eq_dec R N) as [->|Hne]; [lra|].
    assert (H1 : R + 1 <= N) by lia.
    rewrite Zle_Qle, inject_Z_plus in H1. change (inject_Z 1) with 1%Q in H1. lra.
  - assert (HRN : N <= R) by (apply inject_Z_lt_1; lra).
    split; [rewrite <- Zle_Qle; exact HRN|].
    destruct (Z.eq_dec R N) as [->|Hne]; [lra|].
    assert (H1 : N + 1 <= R) by lia.
    rewrite Zle_Qle, inject_Z_plus in H1. change (inject_Z 1) with 1%Q in H1. lra.
Qed.

Lemma Qpow2_pos (e : Z) : (0 < 2 ^ e)%Q.
Proof. apply Qpower_0_lt. reflexivity. Qed.

Lemma Qpow2_succ (e : Z) : (2 ^ (e + 1) == 2 * 2 ^ e)%Q.
Proof. rewrite Qpower_plus by discriminate. change (2 ^ 1)%Q with 2%Q. ring. Qed.

Lemma Qpow2_inject (n : Z) : 0 <= n -> (inject_Z (2 ^ n) == 2 ^ n)%Q.
Proof. intros Hn. rewrite Zpower_Qpower by exact Hn. reflexivity. Qed.

Lemma ilog2_spec (x : Q) :
  (0 < x -> 2 ^ ilog2 x <= x /\ x < 2 ^ (ilog2 x + 1))%Q.
Proof.
  intros Hx. unfold ilog2.
  destruct x as [a b]. cbn [Qnum Qden].
  assert (Ha : 0 < a) by (unfold Qlt in Hx; cbn in Hx; lia).
  pose proof (Z.log2_spec a Ha) as [Ha1 Ha2].
  pose proof (Z.log2_spec (Zpos b) ltac:(lia)) as [Hb1 Hb2].
  pose proof (Z.log2_nonneg a) as Hla. pose proof (Z.log2_nonneg (Zpos b)) as Hlb.
  set (la := Z.log2 a) in *. set (lb := Z.log2 (Zpos b)) in *.
  rewrite Zle_Qle, Qpow2_inject in Ha1, Hb1 by assumption.
  rewrite Zlt_Qlt, Qpow2_inject in Ha2, Hb2 by lia.
  replace (Z.succ la) with (la + 1) in Ha2 by lia.
  replace (Z.succ lb) with (lb + 1) in Hb2 by lia.
  rewrite Qpow2_succ in Ha2, Hb2.
  pose proof (Qpow2_pos la) as HA. pose proof (Qpow2_pos lb) as HB.
  assert (Hx' : (a # b == inject_Z a / inject_Z (Zpos b))%Q) by apply Qmake_Qdiv.
  assert (Hbpos : (0 < inject_Z (Zpos b))%Q) by (rewrite <- (Zlt_Qlt 0); lia).
  assert (Hmid : (2 ^ (la - lb) == 2 ^ la / 2 ^ lb)%Q)
    by (apply Qpower_minus; discriminate).
  set (A := (2 ^ la)%Q) in *. set (B := (2 ^ lb)%Q) in *.
  set (qa := inject_Z a) in *. set (qb := inject_Z (Zpos b)) in *.
  destruct (Qle_bool (2 ^ (la - lb)) (a # b)) eqn:Hle.
  - apply Qle_bool_iff in Hle. split; [exact Hle|].
    rewrite Qpow2_succ, Hmid, Hx'.
    apply Qlt_shift_div_r; [exact Hbpos|].
    assert (Heq : (2 * (A / B) * qb == (2 * A * qb) / B)%Q) by (field; lra).
    rewrite Heq. apply Qlt_shift_div_l; [exact HB|]. nra.
  - assert (Hlt : (a # b < 2 ^ (la - lb))%Q).
    { apply Qnot_le_lt. intros H. apply Qle_bool_iff in H. congruence. }
    replace (la - lb - 1 + 1) with (la - lb) by lia. split; [|exact Hlt].
    assert (Hhalf : (2 ^ (la - lb) == 2 * 2 ^ (la - lb - 1))%Q).
    { rewrite <- Qpow2_succ. replace (la - lb - 1 + 1) with (la - lb) by lia.
      reflexivity. }
    assert (Hgoal : (2 * 2 ^ (la - lb - 1) <= 2 * (a # b))%Q).
    { rewrite <- Hhalf, Hmid, Hx'.
      apply Qle_shift_div_r; [exact HB|].
      assert (Heq : (2 * (qa / qb) * B == (2 * qa * B) / qb)%Q) by (field; lra).
      rewrite Heq. apply Qle_shift_div_l; [exact Hbpos|]. nra. }
    lra.
Qed.

Lemma binary64_pos_spec (x : Q) :
  (0 < x)%Q ->
  exists (g R : Z),
    (binary64_pos x == inject_Z R * 2 ^ g)%Q
    /\ 2 ^ 52 <= R <= 2 ^ 53
    /\ (inject_Z (2 ^ 52) * 2 ^ g <= x /\ x < inject_Z (2 ^ 53) * 2 ^ g)%Q
    /\ (2 * x - 2 ^ g <= 2 * (inject_Z R * 2 ^ g)
        /\ 2 * (inject_Z R * 2 ^ g) <= 2 * x + 2 ^ g)%Q
    /\ (forall N : Z,
          ((x <= inject_Z N * 2 ^ g ->
            (R <= N)%Z /\ 2 * x - inject_Z N * 2 ^ g <= inject_Z R * 2 ^ g)
           /\ (inject_Z N * 2 ^ g <= x ->
               (N <= R)%Z /\ inject_Z R * 2 ^ g <= 2 * x - inject_Z N * 2 ^ g))%Q).
Proof.
  intros Hx. destruct (ilog2_spec x Hx) as [Hlo Hhi].
  unfold binary64_pos. set (e := ilog2 x) in *.
  exists (e - 52), (py_round (x / 2 ^ (e - 52))).
  pose proof (Qpow2_pos (e - 52)) as HG.
  assert (He : (2 ^ e == inject_Z (2 ^ 52) * 2 ^ (e - 52))%Q).
  { rewrite Qpow2_inject by lia. rewrite <- Qpower_plus by discriminate.
    replace (52 + (e - 52)) with e by lia. reflexivity. }
  assert (He1 : (2 ^ (e + 1) == inject_Z (2 ^ 53) * 2 ^ (e - 52))%Q).
  { rewrite Qpow2_inject by lia. rewrite <- Qpower_plus by discriminate.
    replace (53 + (e - 52)) with (e + 1) by lia. reflexivity. }
  rewrite He in Hlo. rewrite He1 in Hhi.
  set (G := (2 ^ (e - 52))%Q) in *.
  assert (Hy : (x == x / G * G)%Q) by (field; lra).
  set (y := (x / G)%Q) in *.
  assert (Hnear : forall N : Z,
          ((x <= inject_Z N * G ->
            (py_round y <= N)%Z
            /\ 2 * x - inject_Z N * G <= inject_Z (py_round y) * G)
           /\ (inject_Z N * G <= x ->
               (N <= py_round y)%Z
               /\ inject_Z (py_round y) * G <= 2 * x - inject_Z N * G))%Q).
  { intros N. destruct (py_round_nearest y N) as [Hup Hdown].
    split; intros HN.
    - destruct Hup as [H1 H2].
      { apply (Qmult_le_l _ _ G HG). lra. }
      split; [rewrite Zle_Qle; exact H1|]. nra.
    - destruct Hdown as [H1 H2].
      { apply (Qmult_le_l _ _ G HG). lra. }
      split; [rewrite Zle_Qle; exact H1|]. nra. }
  split; [reflexivity|]. split; [|split; [split; assumption|split; [|exact Hnear]]].
  - split.
    + apply (Hnear (2 ^ 52)). exact Hlo.
    + apply (Hnear (2 ^ 53)). lra.
  - pose proof (py_round_half y) as [Hh1 Hh2]. split; nra.
Qed.

Lemma Qred_idem (q : Q) : Qred (Qred q) = Qred q.
Proof. apply Qred_complete, Qred_correct. Qed.

Lemma binary64_Qeq (x y : Q) : (x == y)%Q -> binary64 x = binary64 y.
Proof. intros H. unfold binary64. rewrite (Qred_complete x y H). reflexivity. Qed.

Lemma binary64_canonical (x : Q) : Qred (binary64 x) = binary64 x.
Proof. unfold binary64. apply Qred_idem. Qed.

Lemma binary64_0 : binary64 0 = 0%Q.
Proof. reflexivity. Qed.

Lemma Qopp_opp_eq (q : Q) : (- - q)%Q = q.
Proof. destruct q as [a b]. unfold Qopp. cbn. rewrite Z.opp_involutive. reflexivity. Qed.

Lemma binary64_opp (x : Q) : binary64 (- x) = (- binary64 x)%Q.
Proof.
  unfold binary64. rewrite Qred_opp.
  set (x' := Qred x).
  destruct (Qcompare x' 0) eqn:Hc.
  - apply Qeq_alt in Hc.
    assert (H : (- x' ?= 0)%Q = Eq) by (apply (proj1 (Qeq_alt _ _)); lra). rewrite H. reflexivity.
  - apply Qlt_alt in Hc.
    assert (H : (- x' ?= 0)%Q = Gt) by (apply (proj1 (Qgt_alt _ _)); lra). rewrite H.
    rewrite Qred_opp, Qopp_opp_eq. reflexivity.
  - apply Qgt_alt in Hc.
    assert (H : (- x' ?= 0)%Q = Lt) by (apply (proj1 (Qlt_alt _ _)); lra). rewrite H.
    rewrite Qopp_opp_eq, Qred_opp. reflexivity.
Qed.

(** What [binary64] does to [x > 0]: [R * 2 ^ g] with a 53-bit [R], nearest
    to [x] among the multiples of [2 ^ g]. *)
Lemma binary64_spec (x : Q) :
  (0 < x)%Q ->
  exists (g R : Z),
    (binary64 x == inject_Z R * 2 ^ g)%Q
    /\ 2 ^ 52 <= R <= 2 ^ 53
    /\ (inject_Z (2 ^ 52) * 2 ^ g <= x /\ x < inject_Z (2 ^ 53) * 2 ^ g)%Q
    /\ (2 * x - 2 ^ g <= 2 * (inject_Z R * 2 ^ g)
        /\ 2 * (inject_Z R * 2 ^ g) <= 2 * x + 2 ^ g)%Q
    /\ (forall N : Z,
          ((x <= inject_Z N * 2 ^ g ->
            (R <= N)%Z /\ 2 * x - inject_Z N * 2 ^ g <= inject_Z R * 2 ^ g)
           /\ (inject_Z N * 2 ^ g <= x ->
               (N <= R)%Z /\ inject_Z R * 2 ^ g <= 2 * x - inject_Z N * 2 ^ g))%Q).
Proof.
  intros Hx. pose proof (Qred_correct x) as Hred.
  assert (Hx' : (0 < Qred x)%Q) by lra.
  destruct (binary64_pos_spec (Qred x) Hx')
    as (g & R & Heq & HR & [Hlo Hhi] & [Hh1 Hh2] & Hnear).
  exists g, R. unfold binary64. cbn zeta.
  assert (Hgt : (Qred x ?= 0)%Q = Gt) by (apply (proj1 (Qgt_alt _ _)); exact Hx').
  rewrite Hgt. rewrite Qred_correct.
  split; [exact Heq|]. split; [exact HR|]. split; [split; lra|].
  split; [split; lra|].
  intros N. destruct (Hnear N) as [H1 H2]. split; intros HN.
  - destruct H1 as [Ha Hb]; [lra|]. split; [exact Ha | lra].
  - destruct H2 as [Ha Hb]; [lra|]. split; [exact Ha | lra].
Qed.

Lemma is_binary64_Qeq (f f' : Q) : (f == f')%Q -> is_binary64 f -> is_binary64 f'.
Proof. intros Heq (m & h & Hm & Hf). exists m, h. split; [exact Hm|]. lra. Qed.

Lemma is_binary64_opp (f : Q) : is_binary64 f -> is_binary64 (- f).
Proof.
  intros (m & h & Hm & Hf). exists (- m), h. split; [lia|].
  rewrite inject_Z_opp. lra.
Qed.

Lemma is_binary64_Z (z : Z) : Z.abs z <= 2 ^ 53 -> is_binary64 (inject_Z z).
Proof.
  intros Hz. destruct (Z.eq_dec (Z.abs z) (2 ^ 53)) as [Heq|Hne].
  - exists (Z.sgn z), 53. split; [lia|].
    change (2 ^ 53)%Q with (inject_Z (2 ^ 53)). rewrite <- inject_Z_mult.
    replace (Z.sgn z * 2 ^ 53) with z by lia. reflexivity.
  - exists z, 0. split; [lia|]. change (2 ^ 0)%Q with 1%Q. lra.
Qed.

Lemma multiple_of_quantum (m h g : Z) :
  Z.abs m < 2 ^ 53 ->
  (inject_Z (2 ^ 52) * 2 ^ g <= inject_Z m * 2 ^ h)%Q ->
  exists N : Z, (inject_Z m * 2 ^ h == inject_Z N * 2 ^ g)%Q.
Proof.
  intros Hm Hle.
  pose proof (Qpow2_pos g) as HG. pose proof (Qpow2_pos h) as HH.
  assert (Hm53 : (inject_Z m < inject_Z (2 ^ 53))%Q) by (rewrite <- Zlt_Qlt; lia).
  change (inject_Z (2 ^ 53)) with (2 * inject_Z (2 ^ 52))%Q in Hm53.
  assert (H52 : (0 < inject_Z (2 ^ 52))%Q) by reflexivity.
  set (c := inject_Z (2 ^ 52)) in *.
  assert (Hlt : (2 ^ g < 2 ^ (h + 1))%Q).
  { rewrite Qpow2_succ. nra. }
  apply Qpower_lt_compat_l_inv in Hlt; [|reflexivity].
  exists (m * 2 ^ (h - g)).
  rewrite inject_Z_mult, Qpow2_inject by lia.
  rewrite <- Qmult_assoc, <- Qpower_plus by discriminate.
  replace (h - g + g) with h by lia. reflexivity.
Qed.

(** [binary64 x] is a binary64 value nearest to [x]. *)
Lemma binary64_nearest (x f : Q) :
  (0 < x)%Q -> is_binary64 f ->
  ((x <= f -> binary64 x <= f /\ 2 * x - f <= binary64 x)
   /\ (f <= x -> f <= binary64 x /\ binary64 x <= 2 * x - f))%Q.
Proof.
  intros Hx (m & h & Hm & Hf).
  destruct (binary64_spec x Hx) as (g & R & Heq & HR & [Hlo Hhi] & _ & Hnear).
  pose proof (Qpow2_pos g) as HG.
  assert (HR52 : (inject_Z (2 ^ 52) <= inject_Z R)%Q) by (rewrite <- Zle_Qle; lia).
  assert (HR53 : (inject_Z R <= inject_Z (2 ^ 53))%Q) by (rewrite <- Zle_Qle; lia).
  rewrite Heq. split; intros Hxf.
  - destruct (Qlt_le_dec f (inject_Z (2 ^ 53) * 2 ^ g)) as [Hin|Hout].
    + destruct (multiple_of_quantum m h g Hm) as [N HN]; [lra|].
      destruct (proj1 (Hnear N)) as [H1 H2]; [lra|].
      rewrite Zle_Qle in H1. split; [nra | lra].
    + destruct (proj1 (Hnear (2 ^ 53))) as [H1 H2]; [lra|]. split; [nra | lra].
  - destruct (Qlt_le_dec (inject_Z (2 ^ 52) * 2 ^ g) f) as [Hin|Hout].
    + destruct (multiple_of_quantum m h g Hm) as [N HN]; [lra|].
      destruct (proj2 (Hnear N)) as [H1 H2]; [lra|].
      rewrite Zle_Qle in H1. split; [nra | lra].
    + destruct (proj2 (Hnear (2 ^ 52))) as [H1 H2]; [lra|]. split; [nra | lra].
Qed.

Lemma is_binary64_binary64 (x : Q) : is_binary64 (binary64 x).
Proof.
  assert (Hpos : forall x, (0 < x)%Q -> is_binary64 (binary64 x)).
  { intros x0 Hx. destruct (binary64_spec x0 Hx) as (g & R & Heq & HR & _).
    destruct (Z.eq_dec R (2 ^ 53)) as [->|Hne].
    - exists 1, (53 + g). split; [lia|]. rewrite Heq.
      rewrite Qpower_plus by discriminate.
      change (2 ^ 53)%Q with (inject_Z (2 ^ 53)). ring.
    - exists R, g. split; [lia | exact Heq]. }
  destruct (Q_dec x 0) as [[Hlt|Hgt]|Heq].
  - replace x with (- - x)%Q by apply Qopp_opp_eq. rewrite binary64_opp.
    apply is_binary64_opp, Hpos. lra.
  - apply Hpos. exact Hgt.
  - rewrite (binary64_Qeq x 0 Heq), binary64_0. exists 0, 0. split; [lia|]. ring.
Qed.

Lemma binary64_le (x f : Q) :
  (0 <= x)%Q -> is_binary64 f -> (x <= f)%Q -> (binary64 x <= f)%Q.
Proof.
  intros Hx Hf Hle. destruct (Qlt_le_dec 0 x) as [Hpos|Hzero].
  - apply (binary64_nearest x f Hpos Hf). exact Hle.
  - assert (H0 : (x == 0)%Q) by lra. rewrite (binary64_Qeq x 0 H0), binary64_0. lra.
Qed.

Lemma binary64_ge (x f : Q) :
  (0 <= x)%Q -> is_binary64 f -> (f <= x)%Q -> (f <= binary64 x)%Q.
Proof.
  intros Hx Hf Hle. destruct (Qlt_le_dec 0 x) as [Hpos|Hzero].
  - apply (binary64_nearest x f Hpos Hf). exact Hle.
  - assert (H0 : (x == 0)%Q) by lra. rewrite (binary64_Qeq x 0 H0), binary64_0. lra.
Qed.

Lemma binary64_nonneg (x : Q) : (0 <= x)%Q -> (0 <= binary64 x)%Q.
Proof.
  intros Hx. apply binary64_ge; [exact Hx | | exact Hx].
  exists 0, 0. split; [lia|]. ring.
Qed.

(** A binary64 value is rounded to itself. *)
Lemma binary64_exact (f : Q) : is_binary64 f -> (binary64 f == f)%Q.
Proof.
  assert (Hnn : forall f, (0 <= f)%Q -> is_binary64 f -> (binary64 f == f)%Q).
  { intros f0 H0 Hf. apply Qle_antisym.
    - apply binary64_le; [exact H0 | exact Hf | lra].
    - apply binary64_ge; [exact H0 | exact Hf | lra]. }
  intros Hf. destruct (Qlt_le_dec f 0) as [Hneg|Hpos]; [|apply Hnn; assumption].
  replace f with (- - f)%Q at 1 by apply Qopp_opp_eq. rewrite binary64_opp.
  rewrite Hnn; [ring | lra | apply is_binary64_opp; exact Hf].
Qed.

Lemma binary64_exact_eq (f : Q) : is_binary64 f -> binary64 f = Qred f.
Proof.
  intros Hf. rewrite <- binary64_canonical. apply Qred_complete, binary64_exact, Hf.
Qed.

Lemma binary64_monotone (x y : Q) : (x <= y)%Q -> (binary64 x <= binary64 y)%Q.
Proof.
  assert (Hpos : forall x y, (0 < x)%Q -> (x <= y)%Q ->
                             (binary64 x <= binary64 y)%Q).
  { intros x0 y0 Hx Hxy.
    destruct (Qlt_le_dec (binary64 y0) (binary64 x0)) as [Hlt|Hle]; [|exact Hle].
    exfalso.
    pose proof (binary64_nearest x0 (binary64 y0) Hx (is_binary64_binary64 y0))
      as [Hx1 Hx2].
    pose proof (binary64_nearest y0 (binary64 x0) ltac:(lra) (is_binary64_binary64 x0))
      as [Hy1 Hy2].
    destruct (Qlt_le_dec (binary64 y0) x0) as [Hb|Hb]; [|destruct (Hx1 Hb); lra].
    destruct (Hx2 ltac:(lra)) as [_ Ha].
    destruct (Qlt_le_dec y0 (binary64 x0)) as [Hc|Hc]; [|destruct (Hy2 Hc); lra].
    destruct (Hy1 ltac:(lra)) as [_ Hd].
    assert (Heq : (x0 == y0)%Q) by lra.
    rewrite (binary64_Qeq x0 y0 Heq) in Hlt. lra. }
  intros Hxy. destruct (Qlt_le_dec 0 x) as [Hx|Hx]; [apply Hpos; assumption|].
  assert (Hrx : (binary64 x <= 0)%Q).
  { replace x with (- - x)%Q by apply Qopp_opp_eq. rewrite binary64_opp.
    pose proof (binary64_nonneg (- x) ltac:(lra)). lra. }
  destruct (Qlt_le_dec y 0) as [Hy|Hy].
  - replace x with (- - x)%Q by apply Qopp_opp_eq.
    replace y with (- - y)%Q by apply Qopp_opp_eq.
    rewrite (binary64_opp (- x)), (binary64_opp (- y)).
    pose proof (Hpos (- y)%Q (- x)%Q ltac:(lra) ltac:(lra)). lra.
  - pose proof (binary64_nonneg y Hy). lra.
Qed.

(** The relative error of rounding is at most [2 ^ -53]. *)
Lemma binary64_error (x : Q) :
  (0 <= x)%Q ->
  (x - x * (1 # 2 ^ 53) <= binary64 x /\ binary64 x <= x + x * (1 # 2 ^ 53))%Q.
Proof.
  intros Hx. change (1 # 2 ^ 53)%Q with (1 # 9007199254740992)%Q.
  destruct (Qlt_le_dec 0 x) as [Hpos|Hzero].
  - destruct (binary64_spec x Hpos) as (g & R & Heq & _ & [Hlo _] & [Hh1 Hh2] & _).
    rewrite Heq. pose proof (Qpow2_pos g) as HG.
    change (inject_Z (2 ^ 52)) with (4503599627370496 # 1)%Q in Hlo.
    split; lra.
  - assert (H0 : (x == 0)%Q) by lra. rewrite (binary64_Qeq x 0 H0), binary64_0.
    split; lra.
Qed.

(** Close enough below an integer, the rounding is that integer. *)
Lemma binary64_near_integer (x : Q) (t : Z) :
  (0 < x)%Q -> (x <= inject_Z t)%Q -> t < 2 ^ 53 ->
  (2 * (inject_Z t - x) < x * (1 # 2 ^ 53))%Q ->
  (binary64 x == inject_Z t)%Q.
Proof.
  intros Hx Hxt Ht Hclose.
  destruct (binary64_spec x Hx) as (g & R & Heq & HR & [Hlo Hhi] & _ & Hnear).
  pose proof (Qpow2_pos g) as HG.
  assert (Ht53 : (inject_Z t < inject_Z (2 ^ 53))%Q) by (rewrite <- Zlt_Qlt; lia).
  change (inject_Z (2 ^ 52)) with (4503599627370496 # 1)%Q in Hlo.
  change (inject_Z (2 ^ 53)) with (9007199254740992 # 1)%Q in Hhi, Ht53.
  change (1 # 2 ^ 53)%Q with (1 # 9007199254740992)%Q in Hclose.
  assert (Hg : g <= 0).
  { assert (Hlt : (2 ^ g < 2 ^ 1)%Q) by (change (2 ^ 1)%Q with 2%Q; lra).
    apply Qpower_lt_compat_l_inv in Hlt; [lia | reflexivity]. }
  assert (HN : (inject_Z t == inject_Z (t * 2 ^ (- g)) * 2 ^ g)%Q).
  { rewrite inject_Z_mult, Qpow2_inject by lia.
    rewrite <- Qmult_assoc, <- Qpower_plus by discriminate.
    replace (- g + g) with 0 by lia. change (2 ^ 0)%Q with 1%Q. ring. }
  set (N := t * 2 ^ (- g)) in *.
  destruct (proj1 (Hnear N)) as [H1 H2]; [lra|].
  rewrite Heq. destruct (Z.eq_dec R N) as [->|Hne]; [lra|].
  exfalso. assert (H3 : R + 1 <= N) by lia.
  rewrite Zle_Qle, inject_Z_plus in H3. change (inject_Z 1) with 1%Q in H3.
  nra.
Qed.

Lemma Qred_inject_Z (n : Z) : Qred (inject_Z n) = inject_Z n.
Proof.
  unfold Qred, inject_Z.
  pose proof (Z.ggcd_gcd n 1) as Hg. pose proof (Z.ggcd_correct_divisors n 1) as Hd.
  destruct (Z.ggcd n 1) as [g [aa bb]]. cbn [fst snd] in *.
  rewrite Z.gcd_1_r in Hg. subst g. destruct Hd as [Ha Hb].
  assert (Hbb : bb = 1) by lia. assert (Haa : aa = n) by lia.
  rewrite Hbb, Haa. reflexivity.
Qed.

Lemma is_binary64_nat (z : Z) :
  0 <= z <= 9007199254740992 -> is_binary64 (inject_Z z).
Proof. intros Hz. apply is_binary64_Z. change (2 ^ 53) with 9007199254740992. lia. Qed.

Lemma binary64_Z (n : Z) : Z.abs n <= 2 ^ 53 -> binary64 (inject_Z n) = inject_Z n.
Proof.
  intros Hn. rewrite binary64_exact_eq by (apply is_binary64_Z; exact Hn).
  apply Qred_inject_Z.
Qed.

Lemma binary64_eq_Z (x : Q) (n : Z) :
  (binary64 x == inject_Z n)%Q -> binary64 x = inject_Z n.
Proof.
  intros H. rewrite <- binary64_canonical, <- Qred_inject_Z.
  apply Qred_complete. exact H.
Qed.

Lemma py_int_inject_Z (n : Z) : py_int (inject_Z n) = n.
Proof. unfold py_int. cbn. apply Z.quot_1_r. Qed.

Lemma py_int_opp (x : Q) : py_int (- x) = - py_int x.
Proof. unfold py_int. destruct x as [a b]. cbn. apply Z.quot_opp_l. lia. Qed.

Lemma py_int_Qfloor (x : Q) : (0 <= x)%Q -> py_int x = Qfloor x.
Proof.
  intros Hx. unfold py_int, Qfloor. destruct x as [a b]. cbn [Qnum Qden].
  apply Z.quot_div_nonneg; [|lia]. unfold Qle in Hx. cbn in Hx. lia.
Qed.

Lemma Qfloor_unique (x : Q) (k : Z) :
  (inject_Z k <= x)%Q -> (x < inject_Z k + 1)%Q -> Qfloor x = k.
Proof.
  intros Hlo Hhi.
  pose proof (Qfloor_le x) as H1. pose proof (Qlt_floor x) as H2.
  rewrite inject_Z_plus in H2. change (inject_Z 1) with 1%Q in H2.
  assert (Ha : Qfloor x <= k) by (apply inject_Z_lt_1; lra).
  assert (Hb : k <= Qfloor x) by (apply inject_Z_lt_1; lra).
  lia.
Qed.

Lemma py_int_unique (x : Q) (k : Z) :
  0 <= k -> (inject_Z k <= x)%Q -> (x < inject_Z k + 1)%Q -> py_int x = k.
Proof.
  intros Hk Hlo Hhi. rewrite py_int_Qfloor.
  - apply Qfloor_unique; assumption.
  - assert (H0 : (0 <= inject_Z k)%Q) by (rewrite <- (Zle_Qle 0); exact Hk). lra.
Qed.

Lemma py_int_monotone (x y : Q) : (x <= y)%Q -> py_int x <= py_int y.
Proof.
  assert (Hneg : forall z, (z <= 0)%Q -> py_int z = - Qfloor (- z)).
  { intros z Hz. replace z with (- - z)%Q at 1 by apply Qopp_opp_eq.
    rewrite py_int_opp, py_int_Qfloor by lra. reflexivity. }
  intros Hxy. destruct (Qlt_le_dec x 0) as [Hx|Hx].
  - rewrite (Hneg x) by lra. destruct (Qlt_le_dec y 0) as [Hy|Hy].
    + rewrite (Hneg y) by lra.
      pose proof (Qfloor_resp_le (- y) (- x) ltac:(lra)). lia.
    + rewrite (py_int_Qfloor y Hy).
      pose proof (Qfloor_resp_le 0 (- x) ltac:(lra)) as H1.
      pose proof (Qfloor_resp_le 0 y Hy) as H2.
      change (Qfloor 0) with 0 in H1, H2. lia.
  - rewrite !py_int_Qfloor by lra. apply Qfloor_resp_le. exact Hxy.
Qed.

Lemma float_of_int_3600 : float_of_int 3600 = inject_Z 3600.
Proof. apply binary64_Z. vm_compute. discriminate. Qed.

(** ** Epoch clock *)

Lemma epoch_floor_div (d : datetime) : epoch_floor d = d / 3600000000.
Proof.
  unfold epoch_floor, Qfloor, Qdiv, Qmult, Qinv, inject_Z. simpl.
  f_equal. lia.
Qed.

Lemma datetime_for_epoch_eq (e : Z) : datetime_for_epoch e = e * 3600000000.
Proof. unfold datetime_for_epoch, fromtimestamp. lia. Qed.

Lemma quot_floor (d b : Z) :
  0 < b ->
  Z.quot d b = if (0 <=? d) || (d mod b =? 0) then d / b else d / b + 1.
Proof.
  intros Hb.
  pose proof (Z.div_mod d b ltac:(lia)) as Hdm.
  pose proof (Z.mod_pos_bound d b Hb) as Hm.
  destruct (0 <=? d) eqn:Hd; simpl.
  - apply Z.leb_le in Hd. apply Z.quot_div_nonneg; lia.
  - apply Z.leb_gt in Hd.
    pose proof (Z.quot_rem' d b) as Hqr.
    pose proof (Z.rem_nonpos d b ltac:(lia) ltac:(lia)) as Hr.
    pose proof (Z.rem_bound_abs d b ltac:(lia)) as Hra.
    destruct (d mod b =? 0) eqn:Hz.
    + apply Z.eqb_eq in Hz. nia.
    + apply Z.eqb_neq in Hz. nia.
Qed.

Lemma get_epoch_opp (d : datetime) : get_epoch (- d) = - get_epoch d.
Proof.
  unfold get_epoch, float_div, timestamp.
  rewrite (binary64_Qeq (inject_Z (- d) / inject_Z 1000000)
                        (- (inject_Z d / inject_Z 1000000))).
  2:{ rewrite inject_Z_opp. field. }
  rewrite binary64_opp.
  set (t := binary64 (inject_Z d / inject_Z 1000000)).
  rewrite (binary64_Qeq (- t / float_of_int 3600) (- (t / float_of_int 3600))).
  2:{ rewrite float_of_int_3600. field. }
  rewrite binary64_opp. apply py_int_opp.
Qed.

(** No rounding at the start of an hour. *)
Lemma get_epoch_hour (e : Z) :
  Z.abs (3600 * e) <= 2 ^ 53 -> get_epoch (e * 3600000000) = e.
Proof.
  intros He. unfold get_epoch, float_div, timestamp.
  rewrite (binary64_Qeq (inject_Z (e * 3600000000) / inject_Z 1000000)
                        (inject_Z (3600 * e))).
  2:{ rewrite !inject_Z_mult.
      change (inject_Z 3600000000) with 3600000000%Q.
      change (inject_Z 1000000) with 1000000%Q.
      change (inject_Z 3600) with 3600%Q. field. }
  rewrite binary64_Z by exact He. rewrite float_of_int_3600.
  rewrite (binary64_Qeq (inject_Z (3600 * e) / inject_Z 3600) (inject_Z e)).
  2:{ rewrite inject_Z_mult. change (inject_Z 3600) with 3600%Q. field. }
  rewrite binary64_Z by lia. apply py_int_inject_Z.
Qed.

(** Within 1250000 hours after 1970 the two roundings do not reach the next
    hour. *)
Lemma get_epoch_floor_in_range (d : datetime) :
  0 <= d < 1250000 * 3600000000 -> get_epoch d = d / 3600000000.
Proof.
  intros [Hd0 Hd1].
  pose proof (Z.div_mod d 3600000000 ltac:(lia)) as Hdm.
  pose proof (Z.mod_pos_bound d 3600000000 ltac:(lia)) as Hm.
  set (k := d / 3600000000) in *.
  assert (Hk : 0 <= k < 1250000).
  { split; [apply Z.div_pos; lia | apply Z.div_lt_upper_bound; lia]. }
  unfold get_epoch, float_div, timestamp. rewrite float_of_int_3600.
  set (s := (inject_Z d / inject_Z 1000000)%Q).
  assert (Hs : (s * 1000000 == inject_Z d)%Q) by (unfold s; field).
  assert (Hlo : (inject_Z (3600000000 * k) <= inject_Z d)%Q)
    by (rewrite <- Zle_Qle; lia).
  assert (Hhi : (inject_Z d <= inject_Z (3600000000 * (k + 1) - 1))%Q)
    by (rewrite <- Zle_Qle; lia).
  assert (Hk1 : (inject_Z k <= 1249999)%Q)
    by (change 1249999%Q with (inject_Z 1249999); rewrite <- Zle_Qle; lia).
  assert (Hk0 : (0 <= inject_Z k)%Q) by (rewrite <- (Zle_Qle 0); lia).
  unfold Zminus in Hhi. rewrite inject_Z_plus, !inject_Z_mult, inject_Z_plus in Hhi.
  rewrite inject_Z_mult in Hlo.
  change (inject_Z 3600000000) with 3600000000%Q in *.
  change (inject_Z 1) with 1%Q in *. change (inject_Z (- (1))) with (-1)%Q in *.
  set (qk := inject_Z k) in *.
  assert (Hs0 : (0 <= s)%Q) by lra.
  set (x := binary64 s).
  assert (Hx0 : (3600 * qk <= x)%Q).
  { assert (H := binary64_ge s (inject_Z (3600 * k)) Hs0
                   (is_binary64_nat (3600 * k) ltac:(lia))).
    rewrite inject_Z_mult in H. change (inject_Z 3600) with 3600%Q in H.
    fold qk in H. apply H. lra. }
  destruct (binary64_error s Hs0) as [_ Hx1]. fold x in Hx1.
  change (1 # 2 ^ 53)%Q with (1 # 9007199254740992)%Q in Hx1.
  set (q := (x / inject_Z 3600)%Q).
  assert (Hq : (q * 3600 == x)%Q) by (unfold q; field).
  assert (Hq0 : (0 <= q)%Q) by lra.
  set (y := binary64 q).
  assert (Hy0 : (qk <= y)%Q).
  { apply (binary64_ge q (inject_Z k) Hq0 (is_binary64_nat k ltac:(lia))).
    fold qk. lra. }
  destruct (binary64_error q Hq0) as [_ Hy1]. fold y in Hy1.
  change (1 # 2 ^ 53)%Q with (1 # 9007199254740992)%Q in Hy1.
  apply py_int_unique; [lia | exact Hy0 |]. fold qk.
  lra.
Qed.

Lemma get_epoch_quot_in_range (d : datetime) :
  - (1250000 * 3600000000) < d < 1250000 * 3600000000 ->
  get_epoch d = Z.quot d 3600000000.
Proof.
  intros Hd. destruct (Z_le_gt_dec 0 d) as [Hpos|Hneg].
  - rewrite get_epoch_floor_in_range by lia. symmetry.
    apply Z.quot_div_nonneg; lia.
  - replace d with (- - d) at 1 by lia.
    rewrite get_epoch_opp, get_epoch_floor_in_range by lia.
    replace d with (- - d) at 2 by lia.
    rewrite Z.quot_opp_l, Z.quot_div_nonneg by lia. reflexivity.
Qed.

Lemma get_epoch_monotone (d d' : datetime) : d <= d' -> get_epoch d <= get_epoch d'.
Proof.
  intros Hd. unfold get_epoch, float_div, timestamp. rewrite float_of_int_3600.
  apply py_int_monotone, binary64_monotone.
  assert (H : (binary64 (inject_Z d / inject_Z 1000000)
               <= binary64 (inject_Z d' / inject_Z 1000000))%Q).
  { apply binary64_monotone. rewrite Zle_Qle in Hd.
    unfold Qdiv. apply Qmult_le_compat_r; [exact Hd | discriminate]. }
  unfold Qdiv. apply Qmult_le_compat_r; [exact H | discriminate].
Qed.

(** C8, counterexample: half an hour before 1970 the quotient is -0.5, whose
    floor is -1, and [get_epoch] returns 0. *)
Lemma get_epoch_differs_from_floor_before_1970 :
  get_epoch (fromtimestamp (-1800)) = 0
  /\ epoch_floor (fromtimestamp (-1800)) = -1
  /\ get_epoch (fromtimestamp (-1800)) <> epoch_floor (fromtimestamp (-1800)).
Proof. vm_compute. repeat split. intro H. discriminate H. Qed.

(** Far from 1970 the two roundings show: one microsecond before
    2514-05-30T02:00:00Z the timestamp is rounded to the full hour, and
    [get_epoch] returns the next epoch. *)
Example get_epoch_rounds_up_in_2514 :
  get_epoch 17179869599999999 = 4772186
  /\ epoch_floor 17179869599999999 = 4772185
  /\ get_epoch_binary64 17179869599999999 = 4772186.
Proof. vm_compute. repeat split. Qed.

(** C8, amended: for every instant less than 1250000 hours from 1970 (from
    the year 1827 into the year 2112) [get_epoch] returns seconds-since-1970 /
    3600 truncated toward zero, the two binary64 roundings of the source
    included. This is the floor for every such instant at or after 1970 and
    for every one on an hour boundary; for the others before 1970 it is the
    floor plus one. *)
Theorem get_epoch_truncates_toward_zero (d : datetime) :
  - datetime_for_epoch 1250000 < d < datetime_for_epoch 1250000 ->
  get_epoch d =
    if (0 <=? d) || (d mod datetime_for_epoch 1 =? 0)
    then epoch_floor d
    else epoch_floor d + 1.
Proof.
  change (datetime_for_epoch 1250000) with (1250000 * 3600000000).
  intros Hd. rewrite get_epoch_quot_in_range by exact Hd.
  rewrite epoch_floor_div.
  change (datetime_for_epoch 1) with 3600000000.
  apply quot_floor. lia.
Qed.

Lemma get_epoch_truncates_toward_zero_witness :
  let d := fromtimestamp (-1800) in
  get_epoch d =
    if (0 <=? d) || (d mod datetime_for_epoch 1 =? 0)
    then epoch_floor d
    else epoch_floor d + 1.
Proof.
  intros d. apply (get_epoch_truncates_toward_zero d).
  vm_compute. split; reflexivity.
Defined.

(** C9, counterexample: [datetime.fromtimestamp] raises outside the years 1 to
    9999, so [datetime_for_epoch] has no value at epoch 70389528, the start
    of the year 10000, nor at epoch -17259889, one hour before the year 1. *)
Lemma datetime_for_epoch_raises_outside_the_years_1_to_9999 :
  datetime_for_epoch_or_error 70389528 = None
  /\ datetime_for_epoch_or_error (-17259889) = None
  /\ ~ (forall e : Z, exists d : datetime,
          datetime_for_epoch_or_error e = Some d /\ get_epoch d = e).
Proof.
  split; [reflexivity|]. split; [reflexivity|].
  intros H. destruct (H 70389528) as (d & Hd & _). discriminate Hd.
Qed.

(** C9, amended: [datetime_for_epoch e] returns exactly for the epochs of the
    years 1 to 9999, from -17259888 to 70389527, and raises for the others.
    Where it returns, its value is the instant [3600 * e] seconds after 1970,
    a whole number of hours; the timestamp of that instant is the float
    [3600 * e], without rounding, and [get_epoch] of it is [e]. *)
Theorem get_epoch_datetime_for_epoch (e : Z) :
  (datetime_for_epoch_or_error e = None <-> e < -17259888 \/ 70389527 < e)
  /\ (-17259888 <= e <= 70389527 ->
      datetime_for_epoch_or_error e = Some (datetime_for_epoch e)
      /\ get_epoch (datetime_for_epoch e) = e
      /\ timestamp (datetime_for_epoch e) = inject_Z (3600 * e)
      /\ datetime_for_epoch e mod datetime_for_epoch 1 = 0).
Proof.
  assert (Hcases :
    datetime_for_epoch_or_error e
    = if (-17259888 <=? e) && (e <=? 70389527)
      then Some (datetime_for_epoch e) else None).
  { unfold datetime_for_epoch_or_error, fromtimestamp_or_error, datetime_for_epoch,
      fromtimestamp, datetime_min, datetime_max.
    destruct (-62135596800000000 <=? e * 3600 * 1000000) eqn:H1,
             (e * 3600 * 1000000 <=? 253402300799999999) eqn:H2,
             (-17259888 <=? e) eqn:H3, (e <=? 70389527) eqn:H4;
      try reflexivity; exfalso;
      repeat match goal with
             | H : (_ <=? _) = true |- _ => apply Z.leb_le in H
             | H : (_ <=? _) = false |- _ => apply Z.leb_gt in H
             end; lia. }
  split.
  - rewrite Hcases.
    destruct (-17259888 <=? e) eqn:H3, (e <=? 70389527) eqn:H4; cbn [andb];
      repeat match goal with
             | H : (_ <=? _) = true |- _ => apply Z.leb_le in H
             | H : (_ <=? _) = false |- _ => apply Z.leb_gt in H
             end; split; intros H; try discriminate H; try reflexivity; lia.
  - intros He. split; [|split; [|split]].
    + rewrite Hcases.
      replace (-17259888 <=? e) with true by (symmetry; apply Z.leb_le; lia).
      replace (e <=? 70389527) with true by (symmetry; apply Z.leb_le; lia).
      reflexivity.
    + rewrite datetime_for_epoch_eq. apply get_epoch_hour.
      change (2 ^ 53) with 9007199254740992. lia.
    + rewrite datetime_for_epoch_eq. unfold timestamp.
      rewrite (binary64_Qeq (inject_Z (e * 3600000000) / inject_Z 1000000)
                            (inject_Z (3600 * e))).
      * apply binary64_Z. change (2 ^ 53) with 9007199254740992. lia.
      * rewrite !inject_Z_mult.
        change (inject_Z 3600000000) with 3600000000%Q.
        change (inject_Z 1000000) with 1000000%Q.
        change (inject_Z 3600) with 3600%Q. field.
    + rewrite datetime_for_epoch_eq. change (datetime_for_epoch 1) with 3600000000.
      apply Z.mod_mul. lia.
Qed.

Lemma get_epoch_datetime_for_epoch_witness :
  datetime_for_epoch_or_error 500000 = Some (datetime_for_epoch 500000)
  /\ get_epoch (datetime_for_epoch 500000) = 500000
  /\ timestamp (datetime_for_epoch 500000) = inject_Z (3600 * 500000)
  /\ datetime_for_epoch 500000 mod datetime_for_epoch 1 = 0.
Proof. apply (proj2 (get_epoch_datetime_for_epoch 500000)). lia. Defined.

(** On the hour boundaries of two hundred epochs around 1970 and of two
    hundred epochs around [sample_now] (early 2027), a microsecond either side
    included, Rocq's primitive binary64 floats give the epoch that [get_epoch]
    gives. *)
Lemma get_epoch_binary64_agrees :
  forallb (fun d => get_epoch_binary64 d =? get_epoch d)
          (epoch_boundaries 200 (-100) ++ epoch_boundaries 200 499900) = true.
Proof. vm_compute. reflexivity. Qed.

(** For capacities up to two thousand events, and for ten thousand, Rocq's
    primitive binary64 floats give the lowered target that [lowered_target]
    gives. *)
Lemma lowered_target_binary64_agrees :
  forallb (fun n => lowered_target_binary64 n =? lowered_target n)
          (10000 :: count_up 2001 0) = true.
Proof. vm_compute. reflexivity. Qed.

(** ** Item irrelevance *)

Example nonzero_leading_bits_100000 : nonzero_leading_bits 32 = 1.
Proof. reflexivity. Qed.

Example nonzero_leading_bits_101000 : nonzero_leading_bits 40 = 3.
Proof. reflexivity. Qed.

Example nonzero_leading_bits_110001 : nonzero_leading_bits 49 = 6.
Proof. reflexivity. Qed.

Example nonzero_leading_bits_0 : nonzero_leading_bits 0 = 0.
Proof. reflexivity. Qed.

(** The irrelevance given to an event at creation is never negative: the
    data-model invariant that [irrelevance_nonneg] asks of the rows. *)
Lemma get_random_irrelevance_nonneg (random : Q) (event_count : Z) :
  0 <= get_random_irrelevance random event_count.
Proof. unfold get_random_irrelevance, nonzero_leading_bits. lia. Qed.

(** ** Bucket planner *)

Section MapNUntil.

Variable until : Z.

Lemma get_age_for_irrelevance_lt (n : Z) :
  0 <= n -> get_age_for_irrelevance n < until -> n <= Z.log2 until.
Proof.
  unfold get_age_for_irrelevance. intros Hn Hlt.
  assert (H2 : 2 ^ n <= until) by lia.
  rewrite <- (Z.log2_pow2 n Hn).
  apply Z.log2_le_mono. exact H2.
Qed.

(** The loop over [get_age_for_irrelevance] ends within the fuel handed out. *)
Lemma map_N_until_from_enough_fuel (onemore : bool) (fuel : nat) :
  forall n, 0 <= n ->
    (Z.to_nat (Z.log2 until + 2 - n) <= fuel)%nat -> (1 <= fuel)%nat ->
    exists ages,
      map_N_until_from fuel get_age_for_irrelevance until onemore n = Some ages.
Proof.
  induction fuel as [|fuel IH]; intros n Hn Hfuel Hpos; [lia|].
  cbn [map_N_until_from].
  destruct (get_age_for_irrelevance n <? until) eqn:Hlt.
  - apply Z.ltb_lt in Hlt.
    pose proof (get_age_for_irrelevance_lt n Hn Hlt) as Hlog.
    destruct (IH (n + 1)) as [ages Hages]; try lia.
    rewrite Hages. eexists. reflexivity.
  - eexists. reflexivity.
Qed.

(** What the loop yields: the ages of the counters [n], [n + 1], ... in turn,
    each below [until]. *)
Lemma map_N_until_from_yields (fuel : nat) :
  forall n ages,
    map_N_until_from fuel get_age_for_irrelevance until false n = Some ages ->
    ages = map get_age_for_irrelevance
             (map (fun i => n + Z.of_nat i) (seq 0 (length ages)))
    /\ (forall a, In a ages -> a < until).
Proof.
  induction fuel as [|fuel IH]; intros n ages H; [discriminate|].
  cbn [map_N_until_from] in H.
  destruct (get_age_for_irrelevance n <? until) eqn:Hlt.
  - destruct (map_N_until_from fuel get_age_for_irrelevance until false (n + 1))
      as [rest|] eqn:Hrest; [|discriminate].
    cbn in H. injection H as <-.
    destruct (IH _ _ Hrest) as [Heq Hbound].
    split.
    + cbn [length seq map]. rewrite Z.add_0_r. f_equal.
      etransitivity; [exact Heq|]. f_equal.
      rewrite <- seq_shift, map_map.
      apply map_ext. intros i. lia.
    + intros a [<-|Ha]; [apply Z.ltb_lt; exact Hlt | exact (Hbound a Ha)].
  - injection H as <-. split; [reflexivity | intros a []].
Qed.

End MapNUntil.

Lemma map_N_until_ages_fuel (difference : Z) :
  exists ages,
    map_N_until (ages_fuel difference) get_age_for_irrelevance difference false
      = Some ages.
Proof.
  pose proof (Z.log2_nonneg difference).
  apply map_N_until_from_enough_fuel; unfold ages_fuel; lia.
Qed.

Lemma descending_ages (current_epoch n : Z) (len : nat) :
  0 <= n ->
  forall above,
    match above with Some u => current_epoch - get_age_for_irrelevance n < u
                   | None => True end ->
    descending above
      (map (fun a => current_epoch - a)
         (map get_age_for_irrelevance (map (fun i => n + Z.of_nat i) (seq 0 len)))).
Proof.
  revert n. induction len as [|len IH]; intros n Hn above Habove; [constructor|].
  cbn [seq map]. rewrite Z.add_0_r. constructor; [exact Habove|].
  rewrite <- seq_shift, (map_map S).
  rewrite (map_ext _ (fun i => (n + 1) + Z.of_nat i)) by (intros; lia).
  apply IH; [lia|].
  unfold get_age_for_irrelevance.
  rewrite Z.pow_add_r by lia.
  assert (0 < 2 ^ n) by (apply Z.pow_pos_nonneg; lia). lia.
Qed.

Lemma get_epoch_bounds_with_irrelevance_shape (project : Project)
    (current_timestamp : datetime) (w : World) :
  exists xs,
    descending None xs
    /\ get_epoch_bounds_with_irrelevance project current_timestamp w
       = (buckets_of_bounds xs, w).
Proof.
  unfold get_epoch_bounds_with_irrelevance, bind, select, ret.
  set (difference := get_epoch current_timestamp - _).
  destruct (map_N_until_ages_fuel difference) as [ages Hages].
  rewrite Hages.
  exists (map (fun n => get_epoch current_timestamp - n) ages). split.
  - apply map_N_until_from_yields in Hages. destruct Hages as [-> _].
    apply descending_ages; [lia | exact I].
  - unfold buckets_of_bounds. rewrite map_map. reflexivity.
Qed.

Lemma length_filter_enumerate_from {A : Type} (f : A -> bool) (xs : list A) :
  forall n,
    length (filter (fun ix => f (snd ix)) (enumerate_from n xs)) = length (filter f xs).
Proof.
  induction xs as [|x xs IH]; intros n; [reflexivity|].
  cbn [enumerate_from filter snd]. destruct (f x); cbn [length]; rewrite IH; reflexivity.
Qed.

Lemma length_filter_map {A B : Type} (f : B -> bool) (g : A -> B) (xs : list A) :
  length (filter f (map g xs)) = length (filter (fun x => f (g x)) xs).
Proof.
  induction xs as [|x xs IH]; [reflexivity|].
  cbn [map filter]. destruct (f (g x)); cbn [length]; rewrite IH; reflexivity.
Qed.

(** Along descending boundaries, an epoch lies in exactly one of the ranges
    when it is below the first upper bound, and in none otherwise. *)
Lemma descending_cover (epoch : Z) (xs : list Z) :
  forall above,
    descending above xs ->
    length (filter (fun p : option Z * option Z =>
                      epoch_in_bucket epoch ((snd p, fst p), 0))
                   (pairwise (above :: map Some xs ++ [None])))
    = if below epoch above then 1%nat else 0%nat.
Proof.
  induction xs as [|x xs IH]; intros above Hdesc.
  - cbn. unfold epoch_in_bucket, below. cbn.
    destruct above as [u|]; [destruct (epoch <? u)|]; reflexivity.
  - inversion Hdesc as [|? ? ? Hx Hrest]; subst.
    change (pairwise (above :: map Some (x :: xs) ++ [None]))
      with ((above, Some x) :: pairwise (Some x :: map Some xs ++ [None])).
    cbn [filter]. specialize (IH _ Hrest).
    unfold epoch_in_bucket at 1. cbn [fst snd].
    unfold below in *.
    destruct above as [u|].
    + destruct (x <=? epoch) eqn:H1, (epoch <? u) eqn:H2, (epoch <? x) eqn:H3;
        cbn [andb length]; rewrite IH; try reflexivity; lia.
    + destruct (x <=? epoch) eqn:H1, (epoch <? x) eqn:H3;
        cbn [andb length]; rewrite IH; try reflexivity; lia.
Qed.

Lemma buckets_of_bounds_cover (epoch : Z) (xs : list Z) :
  descending None xs ->
  length (filter (epoch_in_bucket epoch) (buckets_of_bounds xs)) = 1%nat.
Proof.
  intros Hdesc. unfold buckets_of_bounds, enumerate.
  rewrite length_filter_map.
  rewrite (filter_ext _
             (fun ix : Z * (option Z * option Z) =>
                epoch_in_bucket epoch ((snd (snd ix), fst (snd ix)), 0)))
    by (intros [a [ub lb]]; reflexivity).
  rewrite (length_filter_enumerate_from
             (fun p : option Z * option Z => epoch_in_bucket epoch ((snd p, fst p), 0))).
  exact (descending_cover epoch xs None Hdesc).
Qed.

Lemma enumerate_from_app {A : Type} (xs ys : list A) :
  forall n,
    enumerate_from n (xs ++ ys)
    = enumerate_from n xs ++ enumerate_from (n + Z.of_nat (length xs)) ys.
Proof.
  induction xs as [|x xs IH]; intros n.
  - cbn. rewrite Z.add_0_r. reflexivity.
  - cbn [app enumerate_from length]. rewrite IH. do 3 f_equal. lia.
Qed.

Lemma pairwise_ends_unbounded (xs : list Z) :
  forall above,
    exists init ub, pairwise (above :: map Some xs ++ [None]) = init ++ [(ub, None)].
Proof.
  induction xs as [|x xs IH]; intros above.
  - exists [], above. reflexivity.
  - destruct (IH (Some x)) as (init & ub & Heq).
    exists ((above, Some x) :: init), ub.
    change (pairwise (above :: map Some (x :: xs) ++ [None]))
      with ((above, Some x) :: pairwise (Some x :: map Some xs ++ [None])).
    rewrite Heq. reflexivity.
Qed.

Lemma buckets_of_bounds_head (xs : list Z) :
  exists lb older, buckets_of_bounds xs = ((lb, None), 0) :: older.
Proof.
  unfold buckets_of_bounds, enumerate.
  destruct xs as [|x xs]; cbn; eexists; eexists; reflexivity.
Qed.

Lemma buckets_of_bounds_last (xs : list Z) :
  exists newer ub age, buckets_of_bounds xs = newer ++ [((None, ub), age)].
Proof.
  unfold buckets_of_bounds, enumerate.
  destruct (pairwise_ends_unbounded xs None) as (init & ub & Heq).
  change ([None] ++ map Some xs ++ [None]) with (None :: map Some xs ++ [None]).
  rewrite Heq, enumerate_from_app, map_app. cbn.
  eexists; eexists; eexists; reflexivity.
Qed.

(** The filter [get_epoch_bounds] selects the rows whose instant falls in the
    epoch range, an instant belonging to the epoch that starts at or before it. *)
Lemma get_epoch_bounds_epoch_in_bucket (lb ub : option Z) (age : Z) (e : Event) :
  get_epoch_bounds lb ub e
  = epoch_in_bucket (epoch_floor (server_side_timestamp e)) ((lb, ub), age).
Proof.
  unfold get_epoch_bounds, epoch_in_bucket. cbn [fst snd].
  rewrite epoch_floor_div.
  set (t := server_side_timestamp e).
  pose proof (Z.div_mod t 3600000000 ltac:(lia)) as Hdm.
  pose proof (Z.mod_pos_bound t 3600000000 ltac:(lia)) as Hm.
  assert (Hge : forall l, (datetime_for_epoch l <=? t) = (l <=? t / 3600000000)).
  { intros l. rewrite datetime_for_epoch_eq.
    destruct (l <=? t / 3600000000) eqn:H; [apply Z.leb_le in H; apply Z.leb_le
                                           | apply Z.leb_gt in H; apply Z.leb_gt]; nia. }
  assert (Hlt : forall u, (t <? datetime_for_epoch u) = (t / 3600000000 <? u)).
  { intros u. rewrite datetime_for_epoch_eq.
    destruct (t / 3600000000 <? u) eqn:H; [apply Z.ltb_lt in H; apply Z.ltb_lt
                                          | apply Z.ltb_ge in H; apply Z.ltb_ge]; nia. }
  destruct lb as [l|], ub as [u|]; rewrite ?Hge, ?Hlt; cbn; rewrite ?andb_true_r;
    reflexivity.
Qed.

(** C6: the buckets of [get_epoch_bounds_with_irrelevance] cover the epoch
    line without gap or overlap, whatever the oldest and the current epoch
    are: every epoch lies in exactly one bucket, and every row is selected by
    the [get_epoch_bounds] filter of exactly one bucket. The newest (first)
    bucket has no upper bound and the oldest (last) has no lower bound. *)
Theorem bucket_coverage (project : Project) (current_timestamp : datetime) (w : World) :
  let buckets := fst (get_epoch_bounds_with_irrelevance project current_timestamp w) in
  (forall epoch : Z, length (filter (epoch_in_bucket epoch) buckets) = 1%nat)
  /\ (forall e : Event,
        length (filter (fun b : Bucket => get_epoch_bounds (fst (fst b)) (snd (fst b)) e)
                       buckets) = 1%nat)
  /\ (exists lb older, buckets = ((lb, None), 0) :: older)
  /\ (exists newer ub age, buckets = newer ++ [((None, ub), age)]).
Proof.
  destruct (get_epoch_bounds_with_irrelevance_shape project current_timestamp w)
    as (xs & Hdesc & Heq).
  rewrite Heq. cbn [fst].
  split; [|split; [|split]].
  - intros epoch. apply buckets_of_bounds_cover. exact Hdesc.
  - intros e.
    rewrite (filter_ext _ (epoch_in_bucket (epoch_floor (server_side_timestamp e)))).
    + apply buckets_of_bounds_cover. exact Hdesc.
    + intros [[lb ub] age]. apply get_epoch_bounds_epoch_in_bucket.
  - apply buckets_of_bounds_head.
  - apply buckets_of_bounds_last.
Qed.

(** ** Deletions *)

Lemma filter_all {A : Type} (f : A -> bool) (xs : list A) :
  (forall x, In x xs -> f x = true) -> filter f xs = xs.
Proof.
  induction xs as [|x xs IH]; intros H; [reflexivity|].
  cbn [filter]. rewrite (H x (or_introl eq_refl)), IH; [reflexivity|].
  intros y Hy. apply H. right. exact Hy.
Qed.

Lemma filter_none {A : Type} (f : A -> bool) (xs : list A) :
  (forall x, In x xs -> f x = false) -> filter f xs = [].
Proof.
  induction xs as [|x xs IH]; intros H; [reflexivity|].
  cbn [filter]. rewrite (H x (or_introl eq_refl)). apply IH.
  intros y Hy. apply H. right. exact Hy.
Qed.

Lemma filter_filter {A : Type} (f g : A -> bool) (xs : list A) :
  filter f (filter g xs) = filter (fun x => g x && f x) xs.
Proof.
  induction xs as [|x xs IH]; [reflexivity|].
  cbn [filter]. destruct (g x); cbn [filter andb]; rewrite IH; reflexivity.
Qed.

(** Splitting a count along a selection. *)
Lemma length_filter_split {A : Type} (f sel : A -> bool) (xs : list A) :
  length (filter f xs)
  = (length (filter f (filter (fun x => negb (sel x)) xs))
     + length (filter (fun x => f x && sel x) xs))%nat.
Proof.
  induction xs as [|x xs IH]; [reflexivity|].
  cbn [filter]. destruct (sel x) eqn:Hs, (f x) eqn:Hf;
    cbn [negb filter andb length]; rewrite ?Hf; cbn [length]; rewrite IH; lia.
Qed.

Section Evicts.

Variable project : Project.

Lemma evicts_refl (w : World) : evicts project 0 w w.
Proof.
  exists (fun _ => false). repeat split.
  - discriminate.
  - symmetry. apply filter_all. reflexivity.
  - rewrite filter_none; reflexivity.
Qed.

Lemma evicts_same_rows (n : Z) (w w' w'' : World) :
  evicts project n w w' -> rows w'' = rows w' -> evicts project n w w''.
Proof. intros (sel & H1 & H2 & H3) Heq. exists sel. rewrite Heq. auto. Qed.

Lemma evicts_trans (n1 n2 : Z) (w w1 w2 : World) :
  evicts project n1 w w1 -> evicts project n2 w1 w2 ->
  evicts project (n1 + n2) w w2.
Proof.
  intros (s1 & Hs1 & Hr1 & Hn1) (s2 & Hs2 & Hr2 & Hn2).
  exists (fun e => s1 e || s2 e). split; [|split].
  - intros e He. apply orb_true_iff in He. destruct He; auto.
  - rewrite Hr2, Hr1, filter_filter. apply filter_ext.
    intros e. rewrite negb_orb. reflexivity.
  - subst n1 n2. rewrite Hr1.
    rewrite (length_filter_split (fun e => s1 e || s2 e) s1 (rows w)).
    rewrite (filter_ext (fun e => (s1 e || s2 e) && s1 e) s1)
      by (intros e; destruct (s1 e), (s2 e); reflexivity).
    rewrite !filter_filter.
    rewrite (filter_ext (fun e => negb (s1 e) && (s1 e || s2 e))
                        (fun e => negb (s1 e) && s2 e))
      by (intros e; destruct (s1 e), (s2 e); reflexivity).
    lia.
Qed.

Lemma evicts_nonneg (n : Z) (w w' : World) : evicts project n w w' -> 0 <= n.
Proof. intros (sel & _ & _ & ->). lia. Qed.

Lemma evicts_incl (n : Z) (w w' : World) (e : Event) :
  evicts project n w w' -> In e (rows w') -> In e (rows w).
Proof.
  intros (sel & _ & Hr & _) Hin. rewrite Hr in Hin.
  apply filter_In in Hin. tauto.
Qed.

(** A row that is protected, or of another project, stays. *)
Lemma evicts_keeps (n : Z) (w w' : World) (e : Event) :
  evicts project n w w' -> In e (rows w) -> evictable_of project e = false ->
  In e (rows w').
Proof.
  intros (sel & Hs & Hr & _) Hin He. rewrite Hr. apply filter_In.
  split; [exact Hin|].
  destruct (sel e) eqn:Hsel; [|reflexivity].
  rewrite (Hs e Hsel) in He. discriminate.
Qed.

(** Counting the rows selected by [f], when [f] holds of every evictable row. *)
Lemma evicts_count (f : Filter) (n : Z) (w w' : World) :
  (forall e, evictable_of project e = true -> f e = true) ->
  evicts project n w w' ->
  Z.of_nat (length (filter f (rows w)))
  = Z.of_nat (length (filter f (rows w'))) + n.
Proof.
  intros Hf (sel & Hs & Hr & ->).
  rewrite (length_filter_split f sel (rows w)), Hr, Nat2Z.inj_add.
  do 3 f_equal. apply filter_ext. intros e.
  destruct (sel e) eqn:Hsel; [|apply andb_false_r].
  rewrite (Hf e (Hs e Hsel)). reflexivity.
Qed.

Lemma evicts_evictable_count (n : Z) (w w' : World) :
  evicts project n w w' ->
  evictable_count project (rows w) = evictable_count project (rows w') + n.
Proof. apply evicts_count. auto. Qed.

Lemma evicts_project_count (n : Z) (w w' : World) :
  evicts project n w w' ->
  project_count project (rows w) = project_count project (rows w') + n.
Proof.
  apply evicts_count. unfold evictable_of. intros e He.
  apply andb_true_iff in He. tauto.
Qed.

Lemma evicts_length (n : Z) (w w' : World) :
  evicts project n w w' ->
  Z.of_nat (length (rows w)) = Z.of_nat (length (rows w')) + n.
Proof.
  intros H. pose proof (evicts_count (fun _ => true) n w w' (fun _ _ => eq_refl) H) as Hc.
  rewrite !filter_all in Hc by reflexivity. exact Hc.
Qed.

Lemma evicts_irrelevance_nonneg (n : Z) (w w' : World) :
  evicts project n w w' ->
  irrelevance_nonneg project (rows w) -> irrelevance_nonneg project (rows w').
Proof. intros H Hnn e Hin. apply Hnn. exact (evicts_incl n w w' e H Hin). Qed.

End Evicts.

Section Eviction.

Variable project : Project.

Lemma eviction_filter_evictable (max_epoch : option Z) (max_irrelevance : Z) (e : Event) :
  eviction_filter project max_epoch max_irrelevance e = true ->
  evictable_of project e = true.
Proof.
  unfold eviction_filter, evictable_of. intros H.
  repeat (apply andb_true_iff in H; destruct H as [H ?]).
  apply andb_true_iff. auto.
Qed.

Lemma evict_for_epoch_and_irrelevance_run (max_epoch : option Z)
    (max_irrelevance : Z) (w : World) :
  evict_for_epoch_and_irrelevance project max_epoch max_irrelevance w
  = delete (project_pk project) max_irrelevance
      (option_map datetime_for_epoch max_epoch)
      (eviction_filter project max_epoch max_irrelevance) w.
Proof.
  unfold evict_for_epoch_and_irrelevance, eviction_filter, bind, ret, delete.
  destruct max_epoch as [max_epoch|]; cbn [option_map].
  - reflexivity.
  - rewrite (filter_ext (fun e => _ && true) (fun e =>
              (project_id e =? project_pk project)
              && (irrelevance_for_retention e >? max_irrelevance)
              && negb (never_evict e))) by (intros; apply andb_true_r).
    rewrite (filter_ext (fun e => negb (_ && true)) (fun e => negb (
              (project_id e =? project_pk project)
              && (irrelevance_for_retention e >? max_irrelevance)
              && negb (never_evict e)))) by (intros; rewrite andb_true_r; reflexivity).
    reflexivity.
Qed.

Lemma evict_for_epoch_and_irrelevance_evicts (max_epoch : option Z)
    (max_irrelevance : Z) (w w' : World) (n : Z) :
  evict_for_epoch_and_irrelevance project max_epoch max_irrelevance w = (n, w') ->
  evicts project n w w'.
Proof.
  rewrite evict_for_epoch_and_irrelevance_run. unfold delete.
  intros H. injection H as <- <-.
  exists (eviction_filter project max_epoch max_irrelevance).
  cbn [rows]. split; [apply eviction_filter_evictable | split; reflexivity].
Qed.

Lemma evict_for_irrelevance_from_evicts (max_total_irrelevance : Z)
    (max_event_count : option Z) (buckets : list Bucket) :
  forall deleted w n w',
    evict_for_irrelevance_from project max_total_irrelevance buckets
      max_event_count deleted w = (n, w') ->
    evicts project (n - deleted) w w'.
Proof.
  induction buckets as [|[[lb ub] age] older IH]; intros deleted w n w' Hrun.
  - injection Hrun as <- <-. rewrite Z.sub_diag. apply evicts_refl.
  - cbn [evict_for_irrelevance_from] in Hrun. unfold bind at 1 in Hrun.
    destruct (evict_for_epoch_and_irrelevance project ub
                (max_total_irrelevance - age) w) as [n1 w1] eqn:Hfirst.
    apply evict_for_epoch_and_irrelevance_evicts in Hfirst.
    destruct (max_total_irrelevance - age <=? -1).
    + injection Hrun as <- <-.
      replace (deleted + n1 - deleted) with n1 by lia. exact Hfirst.
    + destruct (quota_reached max_event_count (deleted + n1)).
      * injection Hrun as <- <-.
        replace (deleted + n1 - deleted) with n1 by lia.
        eapply evicts_same_rows; [exact Hfirst | reflexivity].
      * apply IH in Hrun.
        replace (n - deleted) with (n1 + (n - (deleted + n1))) by lia.
        exact (evicts_trans project _ _ _ _ _ Hfirst Hrun).
Qed.

Lemma evict_for_irrelevance_evicts (max_total_irrelevance : Z)
    (max_event_count : option Z) (buckets : list Bucket) (w w' : World) (n : Z) :
  evict_for_irrelevance project max_total_irrelevance buckets max_event_count w
    = (n, w') ->
  evicts project n w w'.
Proof.
  intros H. apply evict_for_irrelevance_from_evicts in H.
  rewrite Z.sub_0_r in H. exact H.
Qed.

End Eviction.

(** ** The sweep of [evict_for_max_events] *)

Section Sweep.

Variable project : Project.
Variable stored_event_count : Z.
Variable epoch_bounds_with_irrelevance : list Bucket.
Variable pairs : list (Z * Z).

Let target := lowered_target (retention_max_event_count project).

(** How a sweep ends: it returns at or below the target, or raises once the
    threshold has gone below -1, and enough fuel rules the third case out.
    Whatever it deleted were non-protected rows of the project. *)
Lemma sweep_spec (fuel : nat) :
  forall T d w r w',
    sweep fuel project stored_event_count epoch_bounds_with_irrelevance pairs T d w
      = (r, w') ->
    match r with
    | Returned (T', d') =>
        evicts project (d' - d) w w' /\ T' <= T /\ stored_event_count - d' <= target
        /\ (T' < T -> -1 <= T')
    | Raised (NoMoreEffectiveEviction T' d') =>
        evicts project (d' - d) w w' /\ T' < -1 /\ T' < T /\ (-1 <= T -> T' = -2)
    | Raised ValueError => False
    | OutOfFuel => (fuel < Nat.max 1 (Z.to_nat (T + 2)))%nat
    end.
Proof.
  induction fuel as [|fuel IH]; intros T d w r w' Hrun.
  - injection Hrun as <- <-. lia.
  - cbn [sweep] in Hrun. fold target in Hrun.
    destruct (stored_event_count - d >? target) eqn:Hover.
    + unfold bind at 1 in Hrun.
      destruct (evict_for_irrelevance project (T - 1) _ _ w) as [n w1] eqn:Hevict.
      apply evict_for_irrelevance_evicts in Hevict.
      destruct (T - 1 <? -1) eqn:Hlow.
      * injection Hrun as <- <-. apply Z.ltb_lt in Hlow.
        replace (d + n - d) with n by lia. repeat split; try lia. exact Hevict.
      * apply Z.ltb_ge in Hlow. apply IH in Hrun.
        destruct r as [[T' d']|[|T' d']|]; try exact Hrun.
        -- destruct Hrun as (Hev & HT & Hd & Hlast).
           replace (d' - d) with (n + (d' - (d + n))) by lia.
           repeat split; try lia.
           exact (evicts_trans project _ _ _ _ _ Hevict Hev).
        -- destruct Hrun as (Hev & HT & HT' & Hlast).
           replace (d' - d) with (n + (d' - (d + n))) by lia.
           repeat split; try lia.
           exact (evicts_trans project _ _ _ _ _ Hevict Hev).
        -- lia.
    + injection Hrun as <- <-. rewrite Z.gtb_ltb in Hover. apply Z.ltb_ge in Hover.
      rewrite Z.sub_diag. repeat split; try lia. apply evicts_refl.
Qed.

(** From here on: the first bucket is the newest one (no upper bound, age
    0), and the survey found no negative total. *)
Hypothesis newest_first :
  exists lb older, epoch_bounds_with_irrelevance = ((lb, None), 0) :: older.
Hypothesis pairs_length : length pairs = length epoch_bounds_with_irrelevance.
Hypothesis pairs_nonneg : forall pr, In pr pairs -> 0 <= sum_pair pr.

Lemma filter_for_work_all (T : Z) :
  T < 0 -> filter_for_work epoch_bounds_with_irrelevance pairs T
           = epoch_bounds_with_irrelevance.
Proof.
  intros HT. unfold filter_for_work. rewrite filter_all.
  - clear newest_first pairs_nonneg. revert pairs pairs_length.
    induction epoch_bounds_with_irrelevance as [|b bs IH]; intros [|pr prs] Hlen;
      try discriminate; [reflexivity|].
    cbn [combine map snd]. f_equal. apply IH. injection Hlen. auto.
  - intros [pr b] Hin. apply in_combine_l in Hin.
    apply Z.gtb_lt. specialize (pairs_nonneg pr Hin). lia.
Qed.

(** A pass at a threshold of -1 or below deletes every non-protected row of
    the project, item irrelevance being non-negative. *)
Lemma evict_for_irrelevance_everything (T : Z) (quota : option Z) (w w' : World) (n : Z) :
  T <= -1 ->
  irrelevance_nonneg project (rows w) ->
  evict_for_irrelevance project T epoch_bounds_with_irrelevance quota w = (n, w') ->
  evictable_count project (rows w') = 0.
Proof.
  intros HT Hnn Hrun. destruct newest_first as (lb & older & ->).
  unfold evict_for_irrelevance in Hrun. cbn [evict_for_irrelevance_from] in Hrun.
  unfold bind at 1 in Hrun.
  rewrite evict_for_epoch_and_irrelevance_run in Hrun. unfold delete in Hrun.
  replace (T - 0 <=? -1) with true in Hrun by (symmetry; apply Z.leb_le; lia).
  injection Hrun as <- <-. cbn [rows]. unfold evictable_count.
  rewrite filter_filter, filter_none; [reflexivity|].
  intros e Hin. destruct (evictable_of project e) eqn:He; [|apply andb_false_r].
  specialize (Hnn e Hin He). unfold eviction_filter, evictable_of in *.
  apply andb_true_iff in He. destruct He as [-> ->].
  replace (irrelevance_for_retention e >? T - 0) with true
    by (symmetry; apply Z.gtb_lt; lia).
  reflexivity.
Qed.

(** The sweep raises only when nothing is left to delete and the count is
    still above the target. *)
Lemma sweep_exhausts (fuel : nat) :
  forall T d w r w',
    irrelevance_nonneg project (rows w) ->
    0 <= T \/ evictable_count project (rows w) = 0 ->
    sweep fuel project stored_event_count epoch_bounds_with_irrelevance pairs T d w
      = (r, w') ->
    match r with
    | Raised (NoMoreEffectiveEviction T' d') =>
        stored_event_count - d' > target /\ evictable_count project (rows w') = 0
    | _ => True
    end.
Proof.
  induction fuel as [|fuel IH]; intros T d w r w' Hnn Hinv Hrun.
  - injection Hrun as <- <-. exact I.
  - cbn [sweep] in Hrun. fold target in Hrun.
    destruct (stored_event_count - d >? target) eqn:Hover.
    + unfold bind at 1 in Hrun.
      destruct (evict_for_irrelevance project (T - 1) _ _ w) as [n w1] eqn:Hevict.
      pose proof (evict_for_irrelevance_evicts _ _ _ _ _ _ _ Hevict) as Hev.
      pose proof (evicts_evictable_count _ _ _ _ Hev) as Hcount.
      pose proof (evicts_nonneg _ _ _ _ Hev) as Hn.
      assert (Hc1 : 0 <= evictable_count project (rows w1))
        by (unfold evictable_count; lia).
      destruct (T - 1 <? -1) eqn:Hlow.
      * injection Hrun as <- <-. apply Z.ltb_lt in Hlow.
        apply Z.gtb_lt in Hover.
        destruct Hinv as [HT|Hnone]; [lia|]. lia.
      * apply Z.ltb_ge in Hlow.
        apply (IH _ _ _ _ _ (evicts_irrelevance_nonneg _ _ _ _ Hev Hnn)) in Hrun;
          [exact Hrun|].
        destruct (Z.eq_dec T 0) as [->|HT0]; [right|left; lia].
        rewrite filter_for_work_all in Hevict by lia.
        eapply evict_for_irrelevance_everything; [| exact Hnn | exact Hevict]. lia.
    + injection Hrun as <- <-. exact I.
Qed.

End Sweep.

(** ** The survey *)

Lemma fold_left_max_in (xs : list Z) :
  forall x, In (fold_left Z.max xs x) (x :: xs).
Proof.
  induction xs as [|y ys IH]; intros x; [left; reflexivity|].
  cbn [fold_left]. destruct (IH (Z.max x y)) as [H|H].
  - rewrite <- H. destruct (Z.max_spec x y) as [[_ ->]|[_ ->]];
      [right; left | left]; reflexivity.
  - right. right. exact H.
Qed.

Lemma py_max_in (xs : list Z) (m : Z) : py_max xs = Some m -> In m xs.
Proof.
  destruct xs as [|x rest]; [discriminate|].
  cbn. intros H. injection H as <-. apply fold_left_max_in.
Qed.

Lemma py_max_nonempty (xs : list Z) : xs <> [] -> exists m, py_max xs = Some m.
Proof. destruct xs as [|x rest]; [congruence | eexists; reflexivity]. Qed.

Lemma py_or_0_aggregate_max_nonneg (xs : list Z) :
  (forall x, In x xs -> 0 <= x) -> 0 <= py_or_0 (aggregate_max xs).
Proof.
  intros H. unfold aggregate_max.
  destruct (py_max xs) as [m|] eqn:Hm; cbn; [|lia].
  apply py_max_in, H in Hm. destruct (m =? 0); lia.
Qed.

Lemma in_enumerate_from_ge {A : Type} (xs : list A) :
  forall n i x, In (i, x) (enumerate_from n xs) -> n <= i.
Proof.
  induction xs as [|y ys IH]; intros n i x Hin; [destruct Hin|].
  destruct Hin as [Heq|Hin]; [injection Heq; lia|].
  apply IH in Hin. lia.
Qed.

Lemma buckets_of_bounds_age_nonneg (xs : list Z) (b : Bucket) :
  In b (buckets_of_bounds xs) -> 0 <= snd b.
Proof.
  unfold buckets_of_bounds, enumerate. intros Hin.
  apply in_map_iff in Hin. destruct Hin as ([age [ub lb]] & <- & Hin).
  apply in_enumerate_from_ge in Hin. exact Hin.
Qed.

Lemma get_irrelevance_pairs_run (project : Project) (buckets : list Bucket) (w : World) :
  exists pairs,
    get_irrelevance_pairs project buckets w = (pairs, w)
    /\ length pairs = length buckets
    /\ (irrelevance_nonneg project (rows w) ->
        (forall b, In b buckets -> 0 <= snd b) ->
        forall pr, In pr pairs -> 0 <= sum_pair pr).
Proof.
  unfold get_irrelevance_pairs, select. eexists. split; [reflexivity|]. split.
  - apply length_map.
  - intros Hnn Hages pr Hin.
    apply in_map_iff in Hin. destruct Hin as ([[lb ub] age] & <- & Hin).
    unfold sum_pair. cbn [fst snd].
    specialize (Hages _ Hin). cbn [snd] in Hages.
    assert (0 <= py_or_0 (aggregate_max (map irrelevance_for_retention
              (filter (fun e => get_epoch_bounds lb ub e && evictable_of project e)
                      (rows w))))); [|lia].
    apply py_or_0_aggregate_max_nonneg. intros x Hx.
    apply in_map_iff in Hx. destruct Hx as (e & <- & He).
    apply filter_In in He. destruct He as [He Hsel].
    apply andb_true_iff in Hsel. apply Hnn; tauto.
Qed.

(** ** Whole runs of [evict_for_max_events] *)

Section PerformanceLog.

Variable project : Project.

Lemma evict_for_irrelevance_from_performance_log (T : Z) (quota : option Z)
    (buckets : list Bucket) :
  forall deleted w n w',
    evict_for_irrelevance_from project T buckets quota deleted w = (n, w') ->
    performance_log w' = performance_log w.
Proof.
  induction buckets as [|[[lb ub] age] older IH]; intros deleted w n w' Hrun.
  - injection Hrun as <- <-. reflexivity.
  - cbn [evict_for_irrelevance_from] in Hrun. unfold bind at 1 in Hrun.
    rewrite evict_for_epoch_and_irrelevance_run in Hrun. unfold delete in Hrun.
    destruct (T - age <=? -1); [injection Hrun as <- <-; reflexivity|].
    destruct (quota_reached quota _); [injection Hrun as <- <-; reflexivity|].
    apply IH in Hrun. exact Hrun.
Qed.

Lemma sweep_performance_log (stored_event_count : Z) (buckets : list Bucket)
    (pairs : list (Z * Z)) (fuel : nat) :
  forall T d w r w',
    sweep fuel project stored_event_count buckets pairs T d w = (r, w') ->
    performance_log w' = performance_log w.
Proof.
  induction fuel as [|fuel IH]; intros T d w r w' Hrun.
  - injection Hrun as <- <-. reflexivity.
  - cbn [sweep] in Hrun.
    destruct (stored_event_count - d >? _); [|injection Hrun as <- <-; reflexivity].
    unfold bind at 1 in Hrun.
    destruct (evict_for_irrelevance project (T - 1) _ _ w) as [n w1] eqn:Hevict.
    apply evict_for_irrelevance_from_performance_log in Hevict.
    destruct (T - 1 <? -1); [injection Hrun as <- <-; exact Hevict|].
    apply IH in Hrun. congruence.
Qed.

End PerformanceLog.

Lemma evict_for_max_events_run (project : Project) (timestamp : datetime)
    (stored_event_count : option Z) (w : World) :
  exists buckets pairs T0,
    (exists lb older, buckets = ((lb, None), 0) :: older)
    /\ length pairs = length buckets
    /\ (irrelevance_nonneg project (rows w) ->
        (forall pr, In pr pairs -> 0 <= sum_pair pr) /\ 0 <= T0)
    /\ evict_for_max_events project timestamp stored_event_count w
       = let (r, w1) := sweep (sweep_fuel T0) project
                          (stored_count stored_event_count project w)
                          buckets pairs T0 0 w in
         match r with
         | Returned (T, d) =>
             (Returned T,
              logged (mkPerformanceRecord
                        (stored_count stored_event_count project w - d) T0 T) w1)
         | Raised e => (Raised e, w1)
         | OutOfFuel => (OutOfFuel, w1)
         end.
Proof.
  destruct (get_epoch_bounds_with_irrelevance_shape project timestamp w)
    as (xs & _ & Hbuckets).
  destruct (get_irrelevance_pairs_run project (buckets_of_bounds xs) w)
    as (pairs & Hpairs & Hlen & Hnonneg).
  destruct (buckets_of_bounds_head xs) as (lb & older & Hhead).
  destruct (py_max_nonempty (map sum_pair pairs)) as [T0 HT0].
  { intros Hnil. apply (f_equal (@length Z)) in Hnil.
    rewrite length_map, Hlen, Hhead in Hnil. discriminate. }
  exists (buckets_of_bounds xs), pairs, T0.
  split; [eauto|]. split; [exact Hlen|]. split.
  - intros Hnn.
    assert (Hall : forall pr, In pr pairs -> 0 <= sum_pair pr).
    { apply Hnonneg; [exact Hnn|]. intros b. apply buckets_of_bounds_age_nonneg. }
    split; [exact Hall|].
    apply py_max_in, in_map_iff in HT0. destruct HT0 as (pr & <- & Hin). auto.
  - unfold evict_for_max_events.
    assert (Hstored :
              (match stored_event_count with
               | Some stored_event_count => ret stored_event_count
               | None => select (fun events => Z.of_nat (length
                   (filter (fun e => project_id e =? project_pk project) events)) + 1)
               end) w = (stored_count stored_event_count project w, w)).
    { destruct stored_event_count; reflexivity. }
    unfold bind at 1. rewrite Hstored.
    unfold bind at 1. rewrite Hbuckets.
    unfold bind at 1. rewrite Hpairs.
    rewrite HT0. unfold bind at 1.
    destruct (sweep _ _ _ _ _ _ _ w) as [[[T d]|e|] w1]; reflexivity.
Qed.

(** Every run of [evict_for_max_events] ends in one of two ways; [T0] is the
    surveyed maximum, [T] the threshold and [d] the number of deletions at the
    end. *)
Lemma evict_for_max_events_outcome (project : Project) (timestamp : datetime)
    (stored_event_count : option Z) (w w' : World) (r : result Z) :
  evict_for_max_events project timestamp stored_event_count w = (r, w') ->
  exists T0 T d,
    evicts project d w w' /\ T <= T0
    /\ ((r = Returned T
         /\ stored_count stored_event_count project w - d
            <= lowered_target (retention_max_event_count project)
         /\ (T < T0 -> -1 <= T)
         /\ performance_log w'
            = performance_log w
              ++ [mkPerformanceRecord
                    (stored_count stored_event_count project w - d) T0 T])
        \/ (r = Raised (NoMoreEffectiveEviction T d)
            /\ T < -1 /\ (-1 <= T0 -> T = -2)
            /\ performance_log w' = performance_log w))
    /\ (irrelevance_nonneg project (rows w) ->
        0 <= T0
        /\ (T < -1 ->
            stored_count stored_event_count project w - d
              > lowered_target (retention_max_event_count project)
            /\ evictable_count project (rows w') = 0)).
Proof.
  intros Hrun.
  destruct (evict_for_max_events_run project timestamp stored_event_count w)
    as (buckets & pairs & T0 & Hhead & Hlen & Hnonneg & Heq).
  rewrite Heq in Hrun. clear Heq.
  destruct (sweep _ _ _ _ _ _ _ w) as [r1 w1] eqn:Hsweep.
  pose proof (sweep_spec _ _ _ _ _ _ _ _ _ _ Hsweep) as Hspec.
  pose proof (sweep_performance_log _ _ _ _ _ _ _ _ _ _ Hsweep) as Hlog.
  assert (Hexh : irrelevance_nonneg project (rows w) ->
                 match r1 with
                 | Raised (NoMoreEffectiveEviction T' d') =>
                     stored_count stored_event_count project w - d'
                       > lowered_target (retention_max_event_count project)
                     /\ evictable_count project (rows w1) = 0
                 | _ => True
                 end).
  { intros Hnn. destruct (Hnonneg Hnn) as [Hall HT0].
    exact (sweep_exhausts project _ buckets pairs Hhead Hlen Hall _ _ _ _ _ _
             Hnn (or_introl HT0) Hsweep). }
  destruct r1 as [[T d]|[|T d]|].
  - injection Hrun as <- <-. rewrite Z.sub_0_r in Hspec.
    destruct Hspec as (Hev & HT & Hd & Hlast).
    exists T0, T, d. split; [|split; [exact HT|split]].
    + eapply evicts_same_rows; [exact Hev | reflexivity].
    + left. cbn [logged performance_log]. rewrite Hlog. auto.
    + intros Hnn. destruct (Hnonneg Hnn) as [_ HT0]. split; [exact HT0|]. lia.
  - destruct Hspec.
  - injection Hrun as <- <-. rewrite Z.sub_0_r in Hspec.
    destruct Hspec as (Hev & HT & HT' & Hlast).
    exists T0, T, d. split; [exact Hev|]. split; [lia|]. split.
    + right. auto.
    + intros Hnn. destruct (Hnonneg Hnn) as [_ HT0]. split; [exact HT0|].
      intros _. exact (Hexh Hnn).
  - unfold sweep_fuel in Hspec. lia.
Qed.

(** The fuel handed to the sweep is always enough. *)
Lemma evict_for_max_events_terminates (project : Project) (timestamp : datetime)
    (stored_event_count : option Z) (w : World) :
  fst (evict_for_max_events project timestamp stored_event_count w) <> OutOfFuel
  /\ fst (evict_for_max_events project timestamp stored_event_count w)
     <> Raised ValueError.
Proof.
  destruct (evict_for_max_events project timestamp stored_event_count w)
    as [r w'] eqn:Hrun.
  apply evict_for_max_events_outcome in Hrun.
  destruct Hrun as (T0 & T & d & _ & _ & [[-> _]|[-> _]] & _); split; discriminate.
Qed.

Lemma never_evict_not_evictable (project : Project) (e : Event) :
  never_evict e = true -> evictable_of project e = false.
Proof. unfold evictable_of. intros ->. apply andb_false_r. Qed.

Lemma evict_for_max_events_keeps (project : Project) (timestamp : datetime)
    (stored_event_count : option Z) (e : Event) (w : World) :
  In e (rows w) -> never_evict e = true ->
  In e (rows (snd (evict_for_max_events project timestamp stored_event_count w))).
Proof.
  intros Hin Hprot.
  destruct (evict_for_max_events project timestamp stored_event_count w)
    as [r w'] eqn:Hrun.
  apply evict_for_max_events_outcome in Hrun.
  destruct Hrun as (T0 & T & d & Hev & _).
  exact (evicts_keeps project d w w' e Hev Hin
           (never_evict_not_evictable project e Hprot)).
Qed.

(** *** Protected events *)

(** C1: an event with [never_evict = true] that is in the store is still in
    the store after any call of [evict_for_epoch_and_irrelevance],
    [evict_for_irrelevance] or [evict_for_max_events], whatever its
    irrelevance, its age, the thresholds and the buckets, and so after any
    sequence of eviction runs. *)
Theorem never_evict_events_survive (project : Project) (e : Event) (w : World) :
  In e (rows w) -> never_evict e = true ->
  (forall max_epoch max_irrelevance,
      In e (rows (snd (evict_for_epoch_and_irrelevance project max_epoch
                         max_irrelevance w))))
  /\ (forall max_total_irrelevance buckets max_event_count,
        In e (rows (snd (evict_for_irrelevance project max_total_irrelevance buckets
                           max_event_count w))))
  /\ (forall timestamp stored_event_count,
        In e (rows (snd (evict_for_max_events project timestamp stored_event_count w))))
  /\ (forall runs, In e (rows (evict_runs runs w))).
Proof.
  intros Hin Hprot.
  pose proof (never_evict_not_evictable project e Hprot) as Hne.
  split; [|split; [|split]]; cycle 3.
  { intros runs. revert w Hin. unfold evict_runs.
    induction runs as [|[[p ts] stored] runs IH]; intros w Hin; [exact Hin|].
    cbn [fold_left]. apply IH. apply evict_for_max_events_keeps; assumption. }
  - intros max_epoch max_irrelevance.
    destruct (evict_for_epoch_and_irrelevance project max_epoch max_irrelevance w)
      as [n w'] eqn:Hrun.
    apply evict_for_epoch_and_irrelevance_evicts in Hrun.
    exact (evicts_keeps project n w w' e Hrun Hin Hne).
  - intros T buckets quota.
    destruct (evict_for_irrelevance project T buckets quota w) as [n w'] eqn:Hrun.
    apply evict_for_irrelevance_evicts in Hrun.
    exact (evicts_keeps project n w w' e Hrun Hin Hne).
  - intros timestamp stored.
    destruct (evict_for_max_events project timestamp stored w) as [r w'] eqn:Hrun.
    apply evict_for_max_events_outcome in Hrun.
    destruct Hrun as (T0 & T & d & Hev & _).
    exact (evicts_keeps project d w w' e Hev Hin Hne).
Qed.

Lemma never_evict_events_survive_witness :
  let e := mkEvent 1 0 99 true in
  let w := world_of (e :: sample_events 20 false) in
  (forall max_epoch max_irrelevance,
      In e (rows (snd (evict_for_epoch_and_irrelevance sample_project max_epoch
                         max_irrelevance w))))
  /\ (forall max_total_irrelevance buckets max_event_count,
        In e (rows (snd (evict_for_irrelevance sample_project max_total_irrelevance
                           buckets max_event_count w))))
  /\ (forall timestamp stored_event_count,
        In e (rows (snd (evict_for_max_events sample_project timestamp
                           stored_event_count w))))
  /\ (forall runs, In e (rows (evict_runs runs w))).
Proof.
  intros e w.
  apply (never_evict_events_survive sample_project e w).
  - left. reflexivity.
  - reflexivity.
Defined.

(** *** At or below the target *)

(** C5: when the stored count is at most the lowered target, the run returns
    the surveyed maximum at once: the rows are unchanged, no [DELETE] is
    issued, and the only effect is the record given to the performance
    logger. *)
Theorem no_eviction_at_or_below_target (project : Project) (timestamp : datetime)
    (stored_event_count : option Z) (w : World) :
  stored_count stored_event_count project w
    <= lowered_target (retention_max_event_count project) ->
  exists T0,
    evict_for_max_events project timestamp stored_event_count w
    = (Returned T0,
       {| rows := rows w;
          delete_log := delete_log w;
          stdout := stdout w;
          performance_log :=
            performance_log w
            ++ [mkPerformanceRecord (stored_count stored_event_count project w) T0 T0]
       |}).
Proof.
  intros Hle.
  destruct (evict_for_max_events_run project timestamp stored_event_count w)
    as (buckets & pairs & T0 & _ & _ & _ & Heq).
  exists T0. rewrite Heq. unfold sweep_fuel. cbn [sweep].
  replace (stored_count stored_event_count project w - 0
             >? lowered_target (retention_max_event_count project)) with false
    by (symmetry; rewrite Z.gtb_ltb; apply Z.ltb_ge; lia).
  unfold ret, logged. rewrite Z.sub_0_r. reflexivity.
Qed.

Lemma no_eviction_at_or_below_target_witness :
  let w := world_of (sample_events 9000 false) in
  exists T0,
    evict_for_max_events sample_project sample_now (Some 9500) w
    = (Returned T0,
       {| rows := rows w;
          delete_log := delete_log w;
          stdout := stdout w;
          performance_log :=
            performance_log w ++ [mkPerformanceRecord 9500 T0 T0] |}).
Proof.
  intros w.
  apply (no_eviction_at_or_below_target sample_project sample_now (Some 9500) w).
  vm_compute. discriminate.
Defined.

Lemma sample_events_in (n : Z) (protected : bool) (e : Event) :
  In e (sample_events n protected) ->
  project_id e = 1 /\ never_evict e = protected /\ 0 <= irrelevance_for_retention e.
Proof.
  unfold sample_events. intros Hin.
  apply in_map_iff in Hin. destruct Hin as (i & <- & _).
  cbn [project_id never_evict irrelevance_for_retention]. repeat split.
  apply Z.mod_pos_bound. lia.
Qed.

Lemma evictable_count_nonneg (project : Project) (events : list Event) :
  0 <= evictable_count project events.
Proof. unfold evictable_count. lia. Qed.

Lemma project_count_nonneg (project : Project) (events : list Event) :
  0 <= project_count project events.
Proof. unfold project_count. lia. Qed.

Lemma evictable_count_no_protected (project : Project) (events : list Event) :
  (forall e, In e events -> project_id e = project_pk project -> never_evict e = false) ->
  evictable_count project events = project_count project events.
Proof.
  intros H. unfold evictable_count, project_count. do 2 f_equal.
  apply filter_ext_in. intros e Hin. unfold evictable_of.
  destruct (project_id e =? project_pk project) eqn:Hp; [|reflexivity].
  apply Z.eqb_eq in Hp. rewrite (H e Hin Hp). reflexivity.
Qed.

(** *** Convergence and exhaustion *)

(** C3: with [retention_max_event_count = 10000] and a stored count of 10001.
    - If the project has no protected events, holds between 501 and 10001
      rows, and item irrelevances are non-negative, the run returns; the
      final stored count [10001 - d] it logs is at most 9500 and at least 0,
      [d] being the number of rows it deleted.
    - If fewer than 501 non-protected rows of the project exist, the run
      raises the exhaustion error, with the count still above 9500. *)
Theorem convergence_at_10000 (project : Project) (timestamp : datetime)
    (stored_event_count : option Z) (w : World) :
  retention_max_event_count project = 10000 ->
  stored_count stored_event_count project w = 10001 ->
  let run := evict_for_max_events project timestamp stored_event_count w in
  ((forall e, In e (rows w) -> project_id e = project_pk project ->
              never_evict e = false /\ 0 <= irrelevance_for_retention e) ->
   501 <= project_count project (rows w) <= 10001 ->
   exists T0 T d,
     fst run = Returned T
     /\ project_count project (rows (snd run)) = project_count project (rows w) - d
     /\ performance_log (snd run)
        = performance_log w ++ [mkPerformanceRecord (10001 - d) T0 T]
     /\ 0 <= 10001 - d <= 9500)
  /\ (evictable_count project (rows w) < 501 ->
      exists T d,
        fst run = Raised (NoMoreEffectiveEviction T d)
        /\ evictable_count project (rows (snd run))
           = evictable_count project (rows w) - d
        /\ 10001 - d > 9500).
Proof.
  intros Hmax Hstored run. subst run.
  destruct (evict_for_max_events project timestamp stored_event_count w)
    as [r w'] eqn:Hrun.
  apply evict_for_max_events_outcome in Hrun.
  destruct Hrun as (T0 & T & d & Hev & _ & Hend & Hexh).
  rewrite Hmax, Hstored in *.
  change (lowered_target 10000) with 9500 in *.
  pose proof (evicts_evictable_count _ _ _ _ Hev) as Hec.
  pose proof (evicts_project_count _ _ _ _ Hev) as Hpc.
  pose proof (evictable_count_nonneg project (rows w')) as Hec'.
  pose proof (project_count_nonneg project (rows w')) as Hpc'.
  cbn [fst snd]. split.
  - intros Hfree Hcount.
    assert (Hnn : irrelevance_nonneg project (rows w)).
    { intros e Hin He. apply andb_true_iff in He. destruct He as [He _].
      apply Z.eqb_eq in He. apply (Hfree e Hin He). }
    rewrite (evictable_count_no_protected project (rows w)) in Hec
      by (intros e Hin He; apply (Hfree e Hin He)).
    destruct (Hexh Hnn) as [_ Hstuck].
    destruct Hend as [(-> & Hd & _ & Hlog)|(-> & HT & _)].
    + exists T0, T, d. repeat split; try lia. exact Hlog.
    + destruct (Hstuck HT) as [Hover Hnone]. lia.
  - intros Hfew.
    destruct Hend as [(-> & Hd & _)|(-> & HT & _)].
    + lia.
    + exists T, d. repeat split; lia.
Qed.

Lemma convergence_at_10000_witness :
  let full := world_of (sample_events 10000 false) in
  let sparse := world_of (sample_events 500 false ++ sample_events 9500 true) in
  (exists T0 T d,
     fst (evict_for_max_events sample_project sample_now None full) = Returned T
     /\ project_count sample_project
          (rows (snd (evict_for_max_events sample_project sample_now None full)))
        = project_count sample_project (rows full) - d
     /\ performance_log (snd (evict_for_max_events sample_project sample_now None full))
        = performance_log full ++ [mkPerformanceRecord (10001 - d) T0 T]
     /\ 0 <= 10001 - d <= 9500)
  /\ (exists T d,
        fst (evict_for_max_events sample_project sample_now None sparse)
        = Raised (NoMoreEffectiveEviction T d)
        /\ evictable_count sample_project
             (rows (snd (evict_for_max_events sample_project sample_now None sparse)))
           = evictable_count sample_project (rows sparse) - d
        /\ 10001 - d > 9500).
Proof.
  intros full sparse. split.
  - apply (convergence_at_10000 sample_project sample_now None full).
    + reflexivity.
    + vm_compute. reflexivity.
    + intros e Hin _. apply sample_events_in in Hin. tauto.
    + vm_compute. split; discriminate.
  - apply (convergence_at_10000 sample_project sample_now None sparse).
    + reflexivity.
    + vm_compute. reflexivity.
    + vm_compute. reflexivity.
Defined.

(** C4: item irrelevances being non-negative, a run ends with a threshold [T]
    and [d] deleted rows, and it raises the exhaustion error exactly when
    [T < -1] while the stored count [stored - d] is still above the lowered
    target; otherwise it returns [T]. That is the case exactly when the count
    would stay above the target even with every non-protected row deleted.
    The error is the outcome of the call and is raised at the first threshold
    below -1, which is -2: nothing is swept again or logged after it. *)
Theorem exhaustion_raised_exactly_when (project : Project) (timestamp : datetime)
    (stored_event_count : option Z) (w : World) :
  irrelevance_nonneg project (rows w) ->
  let run := evict_for_max_events project timestamp stored_event_count w in
  let stored := stored_count stored_event_count project w in
  let target := lowered_target (retention_max_event_count project) in
  exists T d,
    d = Z.of_nat (length (rows w)) - Z.of_nat (length (rows (snd run)))
    /\ (fst run = Raised (NoMoreEffectiveEviction T d) \/ fst run = Returned T)
    /\ (fst run = Raised (NoMoreEffectiveEviction T d)
        <-> T < -1 /\ stored - d > target)
    /\ (fst run = Raised (NoMoreEffectiveEviction T d)
        <-> stored - evictable_count project (rows w) > target)
    /\ (fst run = Raised (NoMoreEffectiveEviction T d) ->
        T = -2
        /\ evictable_count project (rows (snd run)) = 0
        /\ performance_log (snd run) = performance_log w).
Proof.
  intros Hnn run stored target. subst run stored target.
  destruct (evict_for_max_events project timestamp stored_event_count w)
    as [r w'] eqn:Hrun.
  apply evict_for_max_events_outcome in Hrun.
  destruct Hrun as (T0 & T & d & Hev & HT & Hend & Hexh).
  destruct (Hexh Hnn) as [HT0 Hstuck].
  pose proof (evicts_length _ _ _ _ Hev) as Hlen.
  pose proof (evicts_evictable_count _ _ _ _ Hev) as Hec.
  pose proof (evictable_count_nonneg project (rows w')) as Hec'.
  cbn [fst snd]. exists T, d. split; [lia|].
  destruct Hend as [(-> & Hd & Hlast & Hlog)|(-> & Hlow & Hfirst & Hlog)].
  - split; [right; reflexivity|].
    repeat split; try discriminate; intros; lia.
  - destruct (Hstuck Hlow) as [Hover Hnone].
    split; [left; reflexivity|].
    repeat split; try reflexivity; try lia; assumption.
Qed.

Lemma exhaustion_raised_exactly_when_witness :
  let w := world_of (sample_events 500 false ++ sample_events 9500 true) in
  let run := evict_for_max_events sample_project sample_now None w in
  exists T d,
    d = Z.of_nat (length (rows w)) - Z.of_nat (length (rows (snd run)))
    /\ (fst run = Raised (NoMoreEffectiveEviction T d) \/ fst run = Returned T)
    /\ (fst run = Raised (NoMoreEffectiveEviction T d)
        <-> T < -1 /\ stored_count None sample_project w - d
                      > lowered_target (retention_max_event_count sample_project))
    /\ (fst run = Raised (NoMoreEffectiveEviction T d)
        <-> stored_count None sample_project w
            - evictable_count sample_project (rows w)
            > lowered_target (retention_max_event_count sample_project))
    /\ (fst run = Raised (NoMoreEffectiveEviction T d) ->
        T = -2
        /\ evictable_count sample_project (rows (snd run)) = 0
        /\ performance_log (snd run) = performance_log w).
Proof.
  intros w.
  apply (exhaustion_raised_exactly_when sample_project sample_now None w).
  intros e Hin _. apply in_app_or in Hin.
  destruct Hin as [Hin|Hin]; apply sample_events_in in Hin; tauto.
Defined.

(** *** The survey is never empty *)

(** C10: the planner always returns at least one bucket, and exactly the
    bucket [((None, None), 0)] when the project has no non-protected event;
    so the survey yields at least one pair, the maximum of the totals is
    defined, and [evict_for_max_events] never fails with the [ValueError] of
    [max] on an empty sequence. *)
Theorem planner_and_survey_never_empty (project : Project) (timestamp : datetime)
    (stored_event_count : option Z) (w : World) :
  let buckets := fst (get_epoch_bounds_with_irrelevance project timestamp w) in
  let pairs := fst (get_irrelevance_pairs project buckets w) in
  buckets <> []
  /\ (evictable_count project (rows w) = 0 -> buckets = [((None, None), 0)])
  /\ pairs <> []
  /\ (exists T0, py_max (map sum_pair pairs) = Some T0)
  /\ fst (evict_for_max_events project timestamp stored_event_count w)
     <> Raised ValueError.
Proof.
  intros buckets pairs.
  assert (Hb : buckets <> []).
  { subst buckets.
    destruct (get_epoch_bounds_with_irrelevance_shape project timestamp w)
      as (xs & _ & ->).
    destruct (buckets_of_bounds_head xs) as (lb & older & ->). discriminate. }
  assert (Hp : pairs <> []).
  { subst pairs.
    destruct (get_irrelevance_pairs_run project buckets w) as (ps & -> & Hlen & _).
    cbn [fst]. intros ->. destruct buckets; [congruence | discriminate]. }
  split; [exact Hb|]. split; [|split; [exact Hp|split]].
  - intros Hnone. subst buckets.
    unfold get_epoch_bounds_with_irrelevance, bind, select, ret. cbn [fst].
    unfold evictable_count in Hnone.
    destruct (filter (evictable_of project) (rows w)); [|discriminate].
    cbn [map aggregate_min]. rewrite Z.sub_diag. reflexivity.
  - apply py_max_nonempty. intros Hnil. apply map_eq_nil in Hnil. contradiction.
  - apply evict_for_max_events_terminates.
Qed.

Lemma planner_and_survey_never_empty_witness :
  let w := world_of (sample_events 50 true) in
  fst (get_epoch_bounds_with_irrelevance sample_project sample_now w)
  = [((None, None), 0)].
Proof.
  intros w.
  apply (planner_and_survey_never_empty sample_project sample_now None w).
  reflexivity.
Defined.

(** ** The quota of [evict_for_irrelevance] *)

Lemma total_deletions_cons (dq : DeleteQuery) (issued : list DeleteQuery) :
  total_deletions (dq :: issued) = dq_nr_of_deletions dq + total_deletions issued.
Proof. reflexivity. Qed.

Section Quota.

Variable project : Project.
Variable max_total_irrelevance : Z.
Variable q : Z.

Lemma evict_for_irrelevance_from_quota (buckets : list Bucket) :
  forall deleted w n w',
    evict_for_irrelevance_from project max_total_irrelevance buckets (Some q)
      deleted w = (n, w') ->
    exists issued,
      delete_log w' = delete_log w ++ issued
      /\ n = deleted + total_deletions issued
      /\ forall before after,
           issued = before ++ after -> before <> [] -> after <> [] ->
           deleted + total_deletions before < q.
Proof.
  induction buckets as [|[[lb ub] age] older IH]; intros deleted w n w' Hrun.
  - injection Hrun as <- <-. exists []. rewrite app_nil_r. cbn.
    repeat split; try lia.
    intros before after Heq Hb. symmetry in Heq.
    apply app_eq_nil in Heq. tauto.
  - cbn [evict_for_irrelevance_from] in Hrun. unfold bind at 1 in Hrun.
    rewrite evict_for_epoch_and_irrelevance_run in Hrun. unfold delete in Hrun.
    set (n1 := Z.of_nat (length (filter _ (rows w)))) in Hrun.
    set (dq := mkDeleteQuery _ _ _ n1) in Hrun.
    assert (Hdq : dq_nr_of_deletions dq = n1) by reflexivity.
    clearbody dq n1.
    assert (Hone : forall before after : list DeleteQuery,
               [dq] = before ++ after -> before <> [] -> after <> [] -> False).
    { intros before after Heq Hb Ha. apply (f_equal (@length _)) in Heq.
      rewrite length_app in Heq. destruct before, after; cbn in Heq; try lia;
        congruence. }
    destruct (max_total_irrelevance - age <=? -1).
    { injection Hrun as <- <-. exists [dq]. cbn [delete_log].
      rewrite total_deletions_cons, Hdq. cbn. repeat split; try lia.
      intros before after Heq Hb Ha. destruct (Hone _ _ Heq Hb Ha). }
    destruct (quota_reached (Some q) (deleted + n1)) eqn:Hq.
    { injection Hrun as <- <-. exists [dq]. cbn [delete_log].
      rewrite total_deletions_cons, Hdq. cbn. repeat split; try lia.
      intros before after Heq Hb Ha. destruct (Hone _ _ Heq Hb Ha). }
    apply IH in Hrun. destruct Hrun as (issued & Hlog & Hn & Hbefore).
    cbn [delete_log] in Hlog. cbn [quota_reached] in Hq.
    rewrite Z.geb_leb in Hq. apply Z.leb_gt in Hq.
    exists (dq :: issued). split; [|split].
    + rewrite Hlog, <- app_assoc. reflexivity.
    + rewrite total_deletions_cons, Hdq. lia.
    + intros [|dq' before] after Heq Hb Ha; [congruence|].
      injection Heq as <- Heq. rewrite total_deletions_cons, Hdq.
      destruct before as [|dq'' before].
      * cbn. lia.
      * specialize (Hbefore (dq'' :: before) after Heq ltac:(discriminate) Ha).
        lia.
Qed.

End Quota.

(** C2, counterexample: with a quota of 1, one bucket and three rows above the
    threshold, the single [DELETE] removes all three. *)
Lemma quota_exceeded_by_a_single_delete :
  let w := world_of [mkEvent 1 sample_now 5 false; mkEvent 1 sample_now 5 false;
                     mkEvent 1 sample_now 5 false] in
  fst (evict_for_irrelevance sample_project 0 [((None, None), 0)] (Some 1) w) = 3
  /\ ~ (forall project T buckets quota w,
          fst (evict_for_irrelevance project T buckets (Some quota) w) <= quota).
Proof.
  intros w. split; [reflexivity|].
  intros H.
  specialize (H sample_project 0 [((None, None), 0)] 1 w).
  vm_compute in H. apply H. reflexivity.
Qed.

(** C2, amended: the quota is checked after each [DELETE], which itself is not
    limited. A call with quota [q] returns the total of the [DELETE]s it
    issued, and it issues a further [DELETE] only while the total so far is
    below [q]: the deletions before the last [DELETE] of the call add up to
    less than [q]. *)
Theorem quota_bounds_all_but_the_last_delete (project : Project)
    (max_total_irrelevance : Z) (buckets : list Bucket) (q : Z) (w : World) :
  let run := evict_for_irrelevance project max_total_irrelevance buckets (Some q) w in
  exists issued,
    delete_log (snd run) = delete_log w ++ issued
    /\ fst run = total_deletions issued
    /\ forall before after,
         issued = before ++ after -> before <> [] -> after <> [] ->
         total_deletions before < q.
Proof.
  intros run. subst run. unfold evict_for_irrelevance.
  destruct (evict_for_irrelevance_from project max_total_irrelevance buckets
              (Some q) 0 w) as [n w'] eqn:Hrun.
  apply evict_for_irrelevance_from_quota in Hrun.
  destruct Hrun as (issued & Hlog & Hn & Hbefore).
  exists issued. cbn [fst snd]. split; [exact Hlog|]. split; [lia|].
  intros before after Heq Hb Ha. specialize (Hbefore before after Heq Hb Ha). lia.
Qed.

Lemma quota_bounds_all_but_the_last_delete_witness :
  let w := world_of quota_events in
  let run := evict_for_irrelevance sample_project 4 quota_buckets (Some 4) w in
  exists first last,
    delete_log (snd run) = [first; last]
    /\ fst run = 6
    /\ total_deletions [first] < 4.
Proof.
  intros w run.
  destruct (quota_bounds_all_but_the_last_delete sample_project 4 quota_buckets 4 w)
    as (issued & Hlog & Hn & Hbefore).
  fold run in Hlog, Hn.
  eexists. eexists. split; [vm_compute; reflexivity|]. split; [reflexivity|].
  vm_compute in Hlog. subst issued.
  eapply Hbefore with (after := [_]); [reflexivity | discriminate | discriminate].
Defined.

(** ** The early exit of [evict_for_irrelevance] *)

Lemma datetime_for_epoch_mono (a b : Z) :
  a <= b -> datetime_for_epoch a <= datetime_for_epoch b.
Proof. rewrite !datetime_for_epoch_eq. lia. Qed.

Lemma descending_below (xs : list Z) :
  forall above, descending above xs ->
    forall x, In x xs -> match above with Some u => x < u | None => True end.
Proof.
  induction xs as [|y ys IH]; intros above Hdesc x Hin; [destruct Hin|].
  inversion Hdesc as [|? ? ? Hy Hrest]; subst.
  destruct Hin as [->|Hin]; [exact Hy|].
  specialize (IH _ Hrest x Hin). cbn in IH.
  destruct above as [u|]; [lia | exact I].
Qed.

Lemma pairwise_upper_bounds (xs : list Z) :
  forall above u l,
    In (u, l) (pairwise (above :: map Some xs ++ [None])) ->
    u = above \/ exists y, In y xs /\ u = Some y.
Proof.
  induction xs as [|x xs IH]; intros above u l Hin.
  - destruct Hin as [Heq|[]]. injection Heq as <- _. left. reflexivity.
  - change (pairwise (above :: map Some (x :: xs) ++ [None]))
      with ((above, Some x) :: pairwise (Some x :: map Some xs ++ [None])) in Hin.
    destruct Hin as [Heq|Hin].
    + injection Heq as <- _. left. reflexivity.
    + right. destruct (IH _ _ _ Hin) as [->|(y & Hy & ->)].
      * exists x. split; [left|]; reflexivity.
      * exists y. split; [right; exact Hy | reflexivity].
Qed.

Lemma newest_to_oldest_pairs (xs : list Z) :
  forall above n,
    descending above xs ->
    newest_to_oldest
      (map (fun '(age, (ub, lb)) => ((lb, ub), age) : Bucket)
           (enumerate_from n (pairwise (above :: map Some xs ++ [None])))).
Proof.
  induction xs as [|x xs IH]; intros above n Hdesc.
  - cbn. constructor; [intros b' []|constructor].
  - change (pairwise (above :: map Some (x :: xs) ++ [None]))
      with ((above, Some x) :: pairwise (Some x :: map Some xs ++ [None])).
    inversion Hdesc as [|? ? ? Hx Hrest]; subst.
    cbn [enumerate_from map]. constructor; [|apply IH; exact Hrest].
    intros b' Hin. apply in_map_iff in Hin.
    destruct Hin as ([age [ub lb]] & <- & Hin). cbn [fst snd].
    assert (Hpair : In (ub, lb) (pairwise (Some x :: map Some xs ++ [None]))).
    { clear -Hin. revert Hin. generalize (n + 1).
      induction (pairwise (Some x :: map Some xs ++ [None])) as [|p ps IHp];
        intros m Hin; [destruct Hin|].
      destruct Hin as [Heq|Hin]; [injection Heq as _ <-; left; reflexivity|].
      right. exact (IHp _ Hin). }
    apply pairwise_upper_bounds in Hpair.
    unfold ub_le. destruct above as [u|]; [|exact I].
    destruct Hpair as [->|(y & Hy & ->)]; [lia|].
    pose proof (descending_below xs _ Hrest y Hy) as Hlt. cbn in Hlt. lia.
Qed.

Lemma newest_to_oldest_planned (project : Project) (timestamp : datetime) (w : World) :
  newest_to_oldest (fst (get_epoch_bounds_with_irrelevance project timestamp w)).
Proof.
  destruct (get_epoch_bounds_with_irrelevance_shape project timestamp w)
    as (xs & Hdesc & ->).
  apply newest_to_oldest_pairs. exact Hdesc.
Qed.

Lemma filter_for_work_incl (buckets : list Bucket) :
  forall pairs T b, In b (filter_for_work buckets pairs T) -> In b buckets.
Proof.
  unfold filter_for_work. intros pairs T b Hin.
  apply in_map_iff in Hin. destruct Hin as ([pr b'] & <- & Hin).
  apply filter_In in Hin. destruct Hin as [Hin _].
  apply in_combine_r in Hin. exact Hin.
Qed.

Lemma newest_to_oldest_filter_for_work (buckets : list Bucket) :
  newest_to_oldest buckets ->
  forall pairs T, newest_to_oldest (filter_for_work buckets pairs T).
Proof.
  induction 1 as [|b older Hb Holder IH]; intros pairs T.
  - unfold filter_for_work. destruct pairs; constructor.
  - destruct pairs as [|pr pairs]; [constructor|].
    unfold filter_for_work. cbn [combine filter].
    destruct (sum_pair pr >? T).
    + cbn [map snd]. constructor; [|apply IH].
      intros b' Hin. apply Hb. exact (filter_for_work_incl older pairs T b' Hin).
    + apply IH.
Qed.

Section EarlyExit.

Variable project : Project.
Variable T : Z.

(** Buckets whose [DELETE] selects no row leave the rows as they are. *)
Lemma evict_for_irrelevance_every_bucket_nothing (buckets : list Bucket) :
  forall deleted w,
    (forall b e, In b buckets -> In e (rows w) ->
                 eviction_filter project (snd (fst b)) (T - snd b) e = false) ->
    fst (evict_for_irrelevance_every_bucket_from project T buckets deleted w) = deleted
    /\ rows (snd (evict_for_irrelevance_every_bucket_from project T buckets deleted w))
       = rows w.
Proof.
  induction buckets as [|[[lb ub] age] older IH]; intros deleted w Hnone.
  - split; reflexivity.
  - cbn [evict_for_irrelevance_every_bucket_from]. unfold bind at 1 2.
    rewrite evict_for_epoch_and_irrelevance_run. unfold delete.
    assert (Hhere : forall e, In e (rows w) ->
                      eviction_filter project ub (T - age) e = false).
    { intros e He. exact (Hnone ((lb, ub), age) e (or_introl eq_refl) He). }
    rewrite (filter_none _ _ Hhere). rewrite filter_all
      by (intros e He; rewrite (Hhere e He); reflexivity).
    cbn [length Z.of_nat]. rewrite Z.add_0_r.
    match goal with
    | |- context [evict_for_irrelevance_every_bucket_from _ _ _ _ ?w1] =>
        destruct (IH deleted w1) as [Hfst Hrows]
    end.
    + cbn [rows]. intros b e Hb He. apply Hnone; [right|]; assumption.
    + split; [exact Hfst | rewrite Hrows; reflexivity].
Qed.

(** After the [DELETE] of a bucket whose [max_item_irrelevance] is at most
    -1, no older bucket has anything left to delete. *)
Lemma nothing_left_for_older_buckets (ub : option Z) (max_item_irrelevance : Z)
    (older : list Bucket) (w : World) :
  max_item_irrelevance <= -1 ->
  irrelevance_nonneg project (rows w) ->
  (forall b', In b' older -> ub_le (snd (fst b')) ub) ->
  forall b e,
    In b older ->
    In e (filter (fun e => negb (eviction_filter project ub max_item_irrelevance e))
                 (rows w)) ->
    eviction_filter project (snd (fst b)) (T - snd b) e = false.
Proof.
  intros Hlow Hnn Hle b e Hb He.
  apply filter_In in He. destruct He as [He Hkept].
  apply negb_true_iff in Hkept.
  destruct (eviction_filter project (snd (fst b)) (T - snd b) e) eqn:Hsel;
    [|reflexivity].
  pose proof (eviction_filter_evictable _ _ _ _ Hsel) as Hev.
  pose proof (Hnn e He Hev) as Hirr.
  specialize (Hle b Hb).
  unfold eviction_filter, evictable_of in *.
  apply andb_true_iff in Hev. destruct Hev as [Hp Hne].
  rewrite Hp, Hne in *. cbn [andb] in *.
  replace (irrelevance_for_retention e >? max_item_irrelevance) with true in Hkept
    by (symmetry; apply Z.gtb_lt; lia).
  cbn [andb] in Hkept.
  apply andb_true_iff in Hsel. destruct Hsel as [_ Hsel].
  destruct ub as [u|]; [|discriminate].
  destruct (snd (fst b)) as [u'|]; [|destruct Hle].
  cbn in Hle. apply Z.ltb_lt in Hsel. apply Z.ltb_ge in Hkept.
  pose proof (datetime_for_epoch_mono u' u Hle). lia.
Qed.

Lemma evict_for_irrelevance_from_early_exit (buckets : list Bucket) :
  newest_to_oldest buckets ->
  forall deleted w,
    irrelevance_nonneg project (rows w) ->
    fst (evict_for_irrelevance_from project T buckets None deleted w)
    = fst (evict_for_irrelevance_every_bucket_from project T buckets deleted w)
    /\ rows (snd (evict_for_irrelevance_from project T buckets None deleted w))
       = rows (snd (evict_for_irrelevance_every_bucket_from project T buckets
                      deleted w)).
Proof.
  induction 1 as [|[[lb ub] age] older Hle Holder IH]; intros deleted w Hnn.
  - split; reflexivity.
  - cbn [evict_for_irrelevance_from evict_for_irrelevance_every_bucket_from].
    unfold bind.
    destruct (evict_for_epoch_and_irrelevance project ub (T - age) w)
      as [n w1] eqn:Hfirst.
    pose proof (evict_for_epoch_and_irrelevance_evicts _ _ _ _ _ _ Hfirst) as Hev.
    pose proof (evicts_irrelevance_nonneg _ _ _ _ Hev Hnn) as Hnn1.
    destruct (T - age <=? -1) eqn:Hlow.
    + apply Z.leb_le in Hlow.
      rewrite evict_for_epoch_and_irrelevance_run in Hfirst. unfold delete in Hfirst.
      injection Hfirst as Hn Hw1.
      destruct (evict_for_irrelevance_every_bucket_nothing older (deleted + n) w1)
        as [Hfst Hrows].
      { rewrite <- Hw1. cbn [rows].
        exact (nothing_left_for_older_buckets ub (T - age) older w Hlow Hnn Hle). }
      cbn [ret fst snd]. rewrite Hfst, Hrows. split; reflexivity.
    + cbn [quota_reached]. apply IH. exact Hnn1.
Qed.

End EarlyExit.

(** C7: item irrelevances being non-negative, on the bucket list of the
    planner, whole or narrowed by [filter_for_work], [evict_for_irrelevance]
    without quota leaves the same rows and returns the same count as the
    variant without the early exit, which goes on through every older bucket. *)
Theorem early_exit_equivalence (project : Project) (timestamp : datetime)
    (surveyed : World) (pairs : list (Z * Z)) (T' : Z) (T : Z) (w : World) :
  irrelevance_nonneg project (rows w) ->
  let planned := fst (get_epoch_bounds_with_irrelevance project timestamp surveyed) in
  forall buckets,
    buckets = planned \/ buckets = filter_for_work planned pairs T' ->
    rows (snd (evict_for_irrelevance project T buckets None w))
    = rows (snd (evict_for_irrelevance_every_bucket project T buckets w))
    /\ fst (evict_for_irrelevance project T buckets None w)
       = fst (evict_for_irrelevance_every_bucket project T buckets w).
Proof.
  intros Hnn planned buckets Hbuckets.
  assert (Hsorted : newest_to_oldest buckets).
  { destruct Hbuckets as [->| ->].
    - apply newest_to_oldest_planned.
    - apply newest_to_oldest_filter_for_work, newest_to_oldest_planned. }
  destruct (evict_for_irrelevance_from_early_exit project T buckets Hsorted 0 w Hnn)
    as [Hfst Hrows].
  split; assumption.
Qed.

Lemma early_exit_equivalence_witness :
  let w := world_of (sample_events 3000 false) in
  let planned := fst (get_epoch_bounds_with_irrelevance sample_project sample_now w) in
  rows (snd (evict_for_irrelevance sample_project 2 planned None w))
  = rows (snd (evict_for_irrelevance_every_bucket sample_project 2 planned w))
  /\ fst (evict_for_irrelevance sample_project 2 planned None w)
     = fst (evict_for_irrelevance_every_bucket sample_project 2 planned w).
Proof.
  intros w planned.
  apply (early_exit_equivalence sample_project sample_now w [] 0 2 w).
  - intros e Hin _. apply sample_events_in in Hin. tauto.
  - left. reflexivity.
Defined.

(** * Further properties *)

(** ** Generators *)

Lemma counters_cons (n : Z) (len : nat) :
  counters n (S len) = n :: counters (n + 1) len.
Proof.
  unfold counters. cbn [seq map]. rewrite Z.add_0_r. f_equal.
  rewrite <- seq_shift, map_map. apply map_ext. intros i. lia.
Qed.

Lemma map_N_until_from_spec (f : Z -> Z) (until : Z) (fuel : nat) :
  forall n l,
    map_N_until_from fuel f until false n = Some l <->
    (length l < fuel)%nat
    /\ l = map f (counters n (length l))
    /\ (forall a, In a l -> a < until)
    /\ until <= f (n + Z.of_nat (length l)).
Proof.
  induction fuel as [|fuel IH]; intros n l.
  - cbn. split; [discriminate | lia].
  - cbn [map_N_until_from].
    destruct (f n <? until) eqn:Hlt.
    + apply Z.ltb_lt in Hlt.
      destruct (map_N_until_from fuel f until false (n + 1)) as [rest|] eqn:Hrest.
      * pose proof (proj1 (IH _ _) Hrest) as (Hlen & Heq & Hbelow & Hstop).
        cbn [option_map]. split.
        -- intros H. injection H as <-. cbn [length].
           rewrite counters_cons. cbn [map].
           split; [lia|]. split; [f_equal; exact Heq|]. split.
           ++ intros a [<-|Ha]; auto.
           ++ replace (n + Z.of_nat (S (length rest)))
                with (n + 1 + Z.of_nat (length rest)) by lia. exact Hstop.
        -- intros (Hlen' & Heq' & Hbelow' & Hstop').
           destruct l as [|a l'].
           ++ cbn in Hstop'. rewrite Z.add_0_r in Hstop'. lia.
           ++ cbn [length] in *. rewrite counters_cons in Heq'. cbn [map] in Heq'.
              injection Heq' as Ha Hl'.
              assert (Hl : map_N_until_from fuel f until false (n + 1) = Some l').
              { apply IH. split; [lia|]. split; [exact Hl'|]. split.
                - intros x Hx. apply Hbelow'. right. exact Hx.
                - replace (n + 1 + Z.of_nat (length l'))
                    with (n + Z.of_nat (S (length l'))) by lia. exact Hstop'. }
              congruence.
      * cbn [option_map]. split; [discriminate|].
        intros (Hlen' & Heq' & Hbelow' & Hstop').
        destruct l as [|a l'].
        -- cbn in Hstop'. rewrite Z.add_0_r in Hstop'. lia.
        -- cbn [length] in *. rewrite counters_cons in Heq'. cbn [map] in Heq'.
           injection Heq' as Ha Hl'.
           assert (Hl : map_N_until_from fuel f until false (n + 1) = Some l').
           { apply IH. split; [lia|]. split; [exact Hl'|]. split.
             - intros x Hx. apply Hbelow'. right. exact Hx.
             - replace (n + 1 + Z.of_nat (length l'))
                 with (n + Z.of_nat (S (length l'))) by lia. exact Hstop'. }
           congruence.
    + apply Z.ltb_ge in Hlt. split.
      * intros H. injection H as <-. cbn. rewrite Z.add_0_r.
        split; [lia|]. split; [reflexivity|]. split; [intros a []|lia].
      * intros (Hlen' & Heq' & Hbelow' & Hstop').
        destruct l as [|a l']; [reflexivity|].
        cbn [length] in Heq'. rewrite counters_cons in Heq'. cbn [map] in Heq'.
        injection Heq' as Ha _.
        specialize (Hbelow' a (or_introl eq_refl)). lia.
Qed.

(** X1: [map_N_until(f, until)] yields exactly [f(0), f(1), ..., f(k - 1)]
    where [k] is the first counter with [f(k) >= until]: every value yielded
    is below [until] and [f(k)] is not; the loop ends within the fuel exactly
    when such a [k] is below the fuel. *)
Theorem map_N_until_yields_the_prefix_below_until (f : Z -> Z) (until : Z)
    (fuel : nat) (l : list Z) :
  map_N_until fuel f until false = Some l <->
  (length l < fuel)%nat
  /\ l = map f (counters 0 (length l))
  /\ (forall a, In a l -> a < until)
  /\ until <= f (Z.of_nat (length l)).
Proof. unfold map_N_until. apply map_N_until_from_spec. Qed.

Lemma map_N_until_from_onemore (f : Z -> Z) (until : Z) (fuel : nat) :
  forall n,
    map_N_until_from fuel f until true n
    = option_map (fun l => l ++ [f (n + Z.of_nat (length l))])
                 (map_N_until_from fuel f until false n).
Proof.
  induction fuel as [|fuel IH]; intros n; [reflexivity|].
  cbn [map_N_until_from].
  destruct (f n <? until).
  - rewrite IH.
    destruct (map_N_until_from fuel f until false (n + 1)) as [rest|];
      [|reflexivity].
    cbn [option_map app length].
    replace (n + Z.of_nat (S (length rest))) with (n + 1 + Z.of_nat (length rest))
      by lia.
    reflexivity.
  - cbn. rewrite Z.add_0_r. reflexivity.
Qed.

(** X2: with [onemore=True] the generator yields what it yields without,
    followed by one more value, the first [f(k)] that is not below [until];
    so its output is never empty and ends at or above [until]. *)
Theorem map_N_until_onemore (f : Z -> Z) (until : Z) (fuel : nat) (l : list Z) :
  map_N_until fuel f until true = Some l <->
  exists below,
    map_N_until fuel f until false = Some below
    /\ l = below ++ [f (Z.of_nat (length below))]
    /\ until <= f (Z.of_nat (length below)).
Proof.
  unfold map_N_until. rewrite map_N_until_from_onemore.
  destruct (map_N_until_from fuel f until false 0) as [below|] eqn:Hbelow;
    cbn [option_map].
  - pose proof (proj1 (map_N_until_from_spec f until fuel 0 below) Hbelow)
      as (_ & _ & _ & Hstop).
    rewrite Z.add_0_l in *. split.
    + intros H. injection H as <-. exists below. auto.
    + intros (below' & H & -> & _). injection H as <-. reflexivity.
  - split; [discriminate|]. intros (below' & H & _). discriminate.
Qed.

(** ** [pairwise] *)

(** X3: [pairwise] pairs each element with its successor: the first
    components are the input without its last element, the second components
    the input without its first; an input of fewer than two elements yields
    nothing. *)
Theorem pairwise_pairs_neighbours {A : Type} (it : list A) :
  map fst (pairwise it) = removelast it
  /\ map snd (pairwise it) = tl it
  /\ length (pairwise it) = Nat.pred (length it).
Proof.
  induction it as [|prev rest IH]; [repeat split|].
  destruct rest as [|current rest']; [repeat split|].
  destruct IH as (Hfst & Hsnd & Hlen).
  change (pairwise (prev :: current :: rest'))
    with ((prev, current) :: pairwise (current :: rest')).
  cbn [map fst snd tl length Nat.pred].
  split; [|split].
  - rewrite Hfst. reflexivity.
  - f_equal. rewrite Hsnd. reflexivity.
  - rewrite Hlen. reflexivity.
Qed.

(** ** Item irrelevance, continued *)

Lemma length_rstrip_0_String (c : ascii) (s : string) :
  String.length (rstrip_0 (String c s))
  = match String.length (rstrip_0 s) with
    | O => if Ascii.eqb c "0" then O else 1%nat
    | S n => S (S n)
    end.
Proof.
  cbn [rstrip_0]. destruct (rstrip_0 s) as [|c' s']; cbn [String.length];
    [destruct (Ascii.eqb c "0")|]; reflexivity.
Qed.

Lemma length_rstrip_0_format_b_pos (p : positive) :
  forall acc,
    String.length (rstrip_0 (format_b_pos p acc))
    = match String.length (rstrip_0 acc) with
      | O => leading_bits p
      | S n => (Pos.size_nat p + S n)%nat
      end.
Proof.
  induction p as [p IH|p IH|]; intros acc; cbn [format_b_pos leading_bits Pos.size_nat].
  - rewrite IH, length_rstrip_0_String.
    destruct (String.length (rstrip_0 acc)); cbn; lia.
  - rewrite IH, length_rstrip_0_String.
    destruct (String.length (rstrip_0 acc)); cbn; lia.
  - rewrite length_rstrip_0_String.
    destruct (String.length (rstrip_0 acc)); cbn; lia.
Qed.

Lemma nonzero_leading_bits_pos (p : positive) :
  nonzero_leading_bits (Zpos p) = Z.of_nat (leading_bits p).
Proof.
  unfold nonzero_leading_bits, format_b.
  rewrite length_rstrip_0_format_b_pos. reflexivity.
Qed.

Lemma size_nat_log2 (p : positive) : Z.of_nat (Pos.size_nat p) = Z.log2 (Zpos p) + 1.
Proof.
  assert (H : forall q, Z.of_nat (Pos.size_nat q) = Zpos (Pos.size q)).
  { induction q as [q IH|q IH|]; cbn [Pos.size_nat Pos.size]; try reflexivity;
      rewrite Nat2Z.inj_succ, IH; lia. }
  destruct p as [q|q|]; cbn [Pos.size_nat Z.log2]; try reflexivity;
    rewrite Nat2Z.inj_succ, H; lia.
Qed.

Lemma leading_bits_le (p : positive) : (leading_bits p <= Pos.size_nat p)%nat.
Proof. induction p as [q IH|q IH|]; cbn [leading_bits Pos.size_nat]; lia. Qed.

Lemma leading_bits_shift (q : positive) (j : nat) :
  exists r, Zpos q * 2 ^ Z.of_nat j = Zpos r /\ leading_bits r = leading_bits q.
Proof.
  induction j as [|j (r & Hr & Hbits)].
  - exists q. split; [cbn; lia | reflexivity].
  - exists (xO r). split; [|exact Hbits].
    rewrite Nat2Z.inj_succ, Z.pow_succ_r by lia.
    rewrite Z.mul_assoc, (Z.mul_comm (Zpos q) 2), <- Z.mul_assoc, Hr. reflexivity.
Qed.

(** X4: trailing zero bits do not count, the other bits all do: for an odd
    [m > 0], [nonzero_leading_bits(m * 2^k)] is the number of binary digits
    of [m], whatever [k >= 0] is; and the result is 0 for 0. *)
Theorem nonzero_leading_bits_of_odd_times_power_of_two (m k : Z) :
  0 < m -> Z.odd m = true -> 0 <= k ->
  nonzero_leading_bits (m * 2 ^ k) = Z.log2 m + 1
  /\ nonzero_leading_bits 0 = 0.
Proof.
  intros Hm Hodd Hk. split; [|reflexivity].
  destruct m as [|q|q]; try lia.
  destruct (leading_bits_shift q (Z.to_nat k)) as (r & Hr & Hbits).
  rewrite Z2Nat.id in Hr by exact Hk.
  rewrite Hr, nonzero_leading_bits_pos, Hbits, <- size_nat_log2.
  destruct q as [q'|q'|]; [reflexivity | discriminate Hodd | reflexivity].
Qed.

Lemma nonzero_leading_bits_of_odd_times_power_of_two_witness :
  nonzero_leading_bits (5 * 2 ^ 3) = Z.log2 5 + 1
  /\ nonzero_leading_bits 0 = 0.
Proof.
  apply (nonzero_leading_bits_of_odd_times_power_of_two 5 3);
    [lia | reflexivity | lia].
Defined.

Lemma nonzero_leading_bits_le (n : Z) :
  0 <= n -> 0 <= nonzero_leading_bits n <= Z.log2 n + 1.
Proof.
  intros Hn. destruct n as [|p|p]; try lia.
  - cbn. lia.
  - rewrite nonzero_leading_bits_pos, <- size_nat_log2.
    pose proof (leading_bits_le p). lia.
Qed.

Lemma py_round_ge (x : Q) (a : Z) : (inject_Z a <= x)%Q -> a <= py_round x.
Proof.
  intros Ha. unfold py_round.
  assert (Hf : a <= Qfloor x).
  { rewrite <- (Qfloor_Z a). apply Qfloor_resp_le. exact Ha. }
  destruct (Qcompare (x - inject_Z (Qfloor x)) (1 # 2));
    [destruct (Z.even (Qfloor x))| |]; lia.
Qed.

Lemma py_round_le (x : Q) (b : Z) : (x <= inject_Z b)%Q -> py_round x <= b.
Proof.
  intros Hb. unfold py_round.
  pose proof (Qfloor_le x) as Hfx.
  assert (Hf : Qfloor x <= b).
  { rewrite <- (Qfloor_Z b). apply Qfloor_resp_le. exact Hb. }
  assert (Hup : (inject_Z (Qfloor x) < x)%Q -> Qfloor x + 1 <= b).
  { intros Hlt.
    assert (Hfb : (inject_Z (Qfloor x) < inject_Z b)%Q)
      by (eapply Qlt_le_trans; eauto).
    rewrite <- Zlt_Qlt in Hfb. lia. }
  destruct (Qcompare (x - inject_Z (Qfloor x)) (1 # 2)) eqn:Hc.
  - destruct (Z.even (Qfloor x)); [exact Hf|].
    apply Hup. apply Qeq_alt in Hc.
    apply Qlt_minus_iff. rewrite Hc. reflexivity.
  - exact Hf.
  - apply Hup. apply Qgt_alt in Hc.
    apply Qlt_minus_iff. eapply Qlt_trans; [|exact Hc]. reflexivity.
Qed.

(** X5: for a draw in [[0, 1)] and an event count from 0 to below 2^53 (which
    the conversion to float leaves as it is), the irrelevance given to a new
    event is at least 0 and at most the number of binary digits of twice the
    event count; the two products are rounded to binary64. *)
Theorem get_random_irrelevance_bounds (random : Q) (event_count : Z) :
  (0 <= random)%Q -> (random < 1)%Q -> 0 <= event_count < 2 ^ 53 ->
  0 <= get_random_irrelevance random event_count <= Z.log2 (2 * event_count) + 1.
Proof.
  intros H0 H1 [Hc0 Hc1].
  unfold get_random_irrelevance, float_mul, float_of_int.
  rewrite (binary64_Z event_count) by lia.
  rewrite (binary64_Z 2) by (vm_compute; discriminate).
  change (inject_Z 2) with 2%Q.
  assert (Hqn : (0 <= inject_Z event_count)%Q) by (rewrite <- (Zle_Qle 0); exact Hc0).
  set (qn := inject_Z event_count) in *.
  set (a := binary64 (random * qn)).
  assert (Ha0 : (0 <= a)%Q) by (apply binary64_nonneg; nra).
  assert (Ha1 : (a <= qn)%Q).
  { apply binary64_le; [nra | apply is_binary64_Z; lia | nra]. }
  set (x := binary64 (a * 2)).
  assert (Hx0 : (inject_Z 0 <= x)%Q).
  { change (inject_Z 0) with 0%Q. apply binary64_nonneg. lra. }
  assert (Hx1 : (x <= inject_Z (2 * event_count))%Q).
  { assert (Heq : (inject_Z (2 * event_count) == 2 * qn)%Q)
      by (rewrite inject_Z_mult; reflexivity).
    apply binary64_le; [lra | | lra].
    exists event_count, 1. split; [lia|]. fold qn. rewrite Heq.
    change (2 ^ 1)%Q with 2%Q. ring. }
  pose proof (py_round_ge x 0 Hx0) as Hr0.
  pose proof (py_round_le x _ Hx1) as Hr1.
  pose proof (nonzero_leading_bits_le (py_round x) Hr0) as [Hn0 Hn1].
  split; [exact Hn0|].
  pose proof (Z.log2_le_mono _ _ Hr1). lia.
Qed.

Lemma get_random_irrelevance_bounds_witness :
  0 <= get_random_irrelevance (binary64 (45 # 100)) 5 <= Z.log2 (2 * 5) + 1.
Proof.
  apply (get_random_irrelevance_bounds (binary64 (45 # 100)) 5);
    [vm_compute; discriminate | vm_compute; reflexivity | vm_compute; split; [discriminate | reflexivity]].
Defined.

(** The draw 0.45 and five events: the product is the float 2.25, twice that is
    4.5, which [round] takes to the even 4, one significant bit. In exact
    arithmetic the product with the float 0.45 is above 4.5 and rounds to 5. *)
Example get_random_irrelevance_rounds :
  get_random_irrelevance (binary64 (45 # 100)) 5 = 1
  /\ nonzero_leading_bits (py_round (binary64 (45 # 100) * 5 * 2)%Q) = 3.
Proof. vm_compute. split; reflexivity. Qed.

(** X6: [get_age_for_irrelevance] undoes the age-based irrelevance
    [log2(age + 1)] on every budget [b >= 0]; the ages it gives are
    non-negative and each next one is twice the previous plus one. *)
Theorem get_age_for_irrelevance_inverts_log2 (b : Z) :
  0 <= b ->
  Z.log2 (get_age_for_irrelevance b + 1) = b
  /\ 0 <= get_age_for_irrelevance b
  /\ get_age_for_irrelevance (b + 1) = 2 * get_age_for_irrelevance b + 1.
Proof.
  intros Hb. unfold get_age_for_irrelevance.
  assert (0 < 2 ^ b) by (apply Z.pow_pos_nonneg; lia).
  rewrite Z.pow_add_r by lia. change (2 ^ 1) with 2.
  repeat split; try lia.
  replace (2 ^ b - 1 + 1) with (2 ^ b) by lia. apply Z.log2_pow2. exact Hb.
Qed.

Lemma get_age_for_irrelevance_inverts_log2_witness :
  Z.log2 (get_age_for_irrelevance 5 + 1) = 5
  /\ 0 <= get_age_for_irrelevance 5
  /\ get_age_for_irrelevance (5 + 1) = 2 * get_age_for_irrelevance 5 + 1.
Proof. apply (get_age_for_irrelevance_inverts_log2 5). lia. Defined.

(** ** Bucket planner, continued *)

Lemma in_counters (n : Z) (len i : nat) :
  (i < len)%nat -> In (n + Z.of_nat i) (counters n len).
Proof.
  intros Hi. unfold counters.
  apply (in_map (fun i => n + Z.of_nat i)). apply in_seq. lia.
Qed.

Lemma length_counters (n : Z) (len : nat) : length (counters n len) = len.
Proof. unfold counters. rewrite length_map, length_seq. reflexivity. Qed.

Lemma length_pairwise {A : Type} (it : list A) :
  length (pairwise it) = Nat.pred (length it).
Proof.
  induction it as [|prev rest IH]; [reflexivity|].
  destruct rest as [|current rest']; [reflexivity|].
  change (pairwise (prev :: current :: rest'))
    with ((prev, current) :: pairwise (current :: rest')).
  cbn [length Nat.pred] in *. rewrite IH. reflexivity.
Qed.

Lemma length_enumerate_from {A : Type} (xs : list A) :
  forall n, length (enumerate_from n xs) = length xs.
Proof.
  induction xs as [|x xs IH]; intros n; [reflexivity|].
  cbn [enumerate_from length]. rewrite IH. reflexivity.
Qed.

Lemma map_fst_enumerate_from {A : Type} (xs : list A) :
  forall n, map fst (enumerate_from n xs) = counters n (length xs).
Proof.
  induction xs as [|x xs IH]; intros n; [reflexivity|].
  cbn [enumerate_from map fst length]. rewrite counters_cons, IH. reflexivity.
Qed.

Lemma in_enumerate_from_snd {A : Type} (xs : list A) :
  forall n i x, In (i, x) (enumerate_from n xs) -> In x xs.
Proof.
  induction xs as [|y ys IH]; intros n i x Hin; [destruct Hin|].
  destruct Hin as [Heq|Hin]; [injection Heq as _ <-; left; reflexivity|].
  right. exact (IH _ _ _ Hin).
Qed.

Lemma length_buckets_of_bounds (xs : list Z) :
  length (buckets_of_bounds xs) = S (length xs).
Proof.
  unfold buckets_of_bounds, enumerate.
  rewrite length_map, length_enumerate_from, length_pairwise.
  cbn [app length]. rewrite length_app, length_map. cbn. lia.
Qed.

Lemma map_snd_buckets_of_bounds (xs : list Z) :
  map snd (buckets_of_bounds xs) = counters 0 (S (length xs)).
Proof.
  unfold buckets_of_bounds, enumerate. rewrite map_map.
  rewrite (map_ext _ fst) by (intros [age [ub lb]]; reflexivity).
  rewrite map_fst_enumerate_from, length_pairwise.
  cbn [app length]. rewrite length_app, length_map. cbn [length].
  f_equal. lia.
Qed.

(** The planner's buckets, in full: the boundaries are the current epoch
    minus the ages of the counters 0 to [k - 1], where [k] is the first counter
    whose age reaches the difference. *)
Lemma get_epoch_bounds_with_irrelevance_exact (project : Project)
    (current_timestamp : datetime) (w : World) :
  exists k : nat,
    get_epoch_bounds_with_irrelevance project current_timestamp w
    = (buckets_of_bounds
         (map (fun a => get_epoch current_timestamp - a)
              (map get_age_for_irrelevance (counters 0 k))), w)
    /\ (forall i, (i < k)%nat ->
          get_age_for_irrelevance (Z.of_nat i)
          < planner_difference project current_timestamp w)
    /\ planner_difference project current_timestamp w
       <= get_age_for_irrelevance (Z.of_nat k).
Proof.
  unfold get_epoch_bounds_with_irrelevance, planner_difference, bind, select, ret.
  set (difference := get_epoch current_timestamp - _).
  destruct (map_N_until_ages_fuel difference) as [ages Hages].
  rewrite Hages. unfold map_N_until in Hages.
  apply map_N_until_from_spec in Hages.
  destruct Hages as (_ & Heq & Hbelow & Hstop).
  exists (length ages). split; [|split].
  - unfold buckets_of_bounds. rewrite <- Heq, map_map. reflexivity.
  - intros i Hi. apply Hbelow. rewrite Heq.
    apply in_map. exact (in_counters 0 _ i Hi).
  - exact Hstop.
Qed.

(** X7: the planner makes one bucket when the oldest non-protected event is
    not older than the current epoch, and [floor(log2(difference)) + 2]
    buckets otherwise; their age-based irrelevances are 0, 1, 2, ... in the
    order of the list. *)
Theorem planner_bucket_count (project : Project) (current_timestamp : datetime)
    (w : World) :
  let difference := planner_difference project current_timestamp w in
  let buckets := fst (get_epoch_bounds_with_irrelevance project current_timestamp w) in
  Z.of_nat (length buckets)
  = (if difference <=? 0 then 1 else Z.log2 difference + 2)
  /\ map snd buckets = counters 0 (length buckets).
Proof.
  intros difference buckets. subst difference buckets.
  destruct (get_epoch_bounds_with_irrelevance_exact project current_timestamp w)
    as (k & -> & Hbelow & Hstop).
  cbn [fst]. split.
  - rewrite length_buckets_of_bounds, !length_map, length_counters.
    set (d := planner_difference project current_timestamp w) in *.
    unfold get_age_for_irrelevance in *.
    destruct (d <=? 0) eqn:Hd.
    + apply Z.leb_le in Hd. destruct k as [|k]; [reflexivity|].
      specialize (Hbelow 0%nat ltac:(lia)). cbn in Hbelow. lia.
    + apply Z.leb_gt in Hd. destruct k as [|k]; [cbn in Hstop; lia|].
      specialize (Hbelow k ltac:(lia)).
      rewrite Nat2Z.inj_succ in *. rewrite Z.pow_succ_r in Hstop by lia.
      rewrite (Z.log2_unique d (Z.of_nat k)); [lia | lia|].
      rewrite Z.pow_succ_r by lia. lia.
  - rewrite map_snd_buckets_of_bounds, length_buckets_of_bounds. reflexivity.
Qed.

Lemma age_is_log2_up (n a : Z) :
  0 <= n ->
  n = 0 \/ get_age_for_irrelevance (n - 1) < a ->
  a <= get_age_for_irrelevance n ->
  Z.log2_up (a + 1) = n.
Proof.
  unfold get_age_for_irrelevance. intros Hn Hlow Hhigh.
  destruct (Z.eq_dec n 0) as [->|Hn0].
  - cbn in Hhigh. apply Z.log2_up_eqn0. lia.
  - destruct Hlow as [->|Hlow]; [lia|].
    apply Z.log2_up_unique; [lia|].
    replace (Z.pred n) with (n - 1) by lia. lia.
Qed.

Lemma chain_age (c ep : Z) (len : nat) :
  forall n above,
    0 <= n ->
    (above = None /\ n = 0)
    \/ (above = Some (c - get_age_for_irrelevance (n - 1))
        /\ get_age_for_irrelevance (n - 1) < c - ep) ->
    c - ep <= get_age_for_irrelevance (n + Z.of_nat len) ->
    forall b : Bucket,
      In b (map (fun '(age, (ub, lb)) => ((lb, ub), age))
                (enumerate_from n
                   (pairwise (above :: map Some
                                (map (fun a => c - a)
                                   (map get_age_for_irrelevance (counters n len)))
                              ++ [None])))) ->
      epoch_in_bucket ep b = true ->
      snd b = Z.log2_up (c - ep + 1).
Proof.
  induction len as [|len IH]; intros n above Hn Habove Hold b Hin Hep.
  - cbn in Hin. destruct Hin as [<-|[]]. cbn [snd]. symmetry.
    rewrite Z.add_0_r in Hold.
    apply age_is_log2_up; [exact Hn | | exact Hold].
    destruct Habove as [[_ ->]|[_ H]]; [left; reflexivity | right; exact H].
  - rewrite counters_cons in Hin. cbn [map] in Hin.
    change (pairwise (above :: (Some (c - get_age_for_irrelevance n)
              :: map Some (map (fun a => c - a)
                    (map get_age_for_irrelevance (counters (n + 1) len)))) ++ [None]))
      with ((above, Some (c - get_age_for_irrelevance n))
            :: pairwise (Some (c - get_age_for_irrelevance n)
                 :: map Some (map (fun a => c - a)
                      (map get_age_for_irrelevance (counters (n + 1) len))) ++ [None]))
      in Hin.
    cbn [enumerate_from map] in Hin. destruct Hin as [<-|Hin].
    + cbn [snd]. symmetry. unfold epoch_in_bucket in Hep. cbn [fst snd] in Hep.
      apply andb_true_iff in Hep. destruct Hep as [Hlb _]. apply Z.leb_le in Hlb.
      apply age_is_log2_up; [exact Hn | | lia].
      destruct Habove as [[_ ->]|[_ H]]; [left; reflexivity | right; exact H].
    + assert (Hbelow : ep < c - get_age_for_irrelevance n).
      { pose proof (descending_cover ep
                      (map (fun a => c - a)
                           (map get_age_for_irrelevance (counters (n + 1) len)))
                      (Some (c - get_age_for_irrelevance n))) as Hcover.
        assert (Hdesc : descending (Some (c - get_age_for_irrelevance n))
                  (map (fun a => c - a)
                       (map get_age_for_irrelevance (counters (n + 1) len)))).
        { apply descending_ages; [lia|].
          unfold get_age_for_irrelevance. rewrite Z.pow_add_r by lia.
          assert (0 < 2 ^ n) by (apply Z.pow_pos_nonneg; lia). lia. }
        specialize (Hcover Hdesc). unfold below in Hcover.
        destruct (ep <? c - get_age_for_irrelevance n) eqn:Hlt;
          [apply Z.ltb_lt; exact Hlt|].
        apply in_map_iff in Hin. destruct Hin as ([age [ub lb]] & <- & Hin).
        apply in_enumerate_from_snd in Hin.
        assert (Hf : In (ub, lb)
                  (filter (fun p : option Z * option Z =>
                             epoch_in_bucket ep ((snd p, fst p), 0)) 
                     (pairwise (Some (c - get_age_for_irrelevance n)
                        :: map Some (map (fun a => c - a)
                             (map get_age_for_irrelevance (counters (n + 1) len)))
                           ++ [None])))).
        { apply filter_In. split; [exact Hin | exact Hep]. }
        destruct (filter _ _); [destruct Hf | discriminate Hcover]. }
      apply (IH (n + 1) (Some (c - get_age_for_irrelevance n))); try assumption.
      * lia.
      * right. replace (n + 1 - 1) with n by lia. split; [reflexivity | lia].
      * replace (n + 1 + Z.of_nat len) with (n + Z.of_nat (S len)) by lia.
        exact Hold.
Qed.

Lemma fold_left_min_le_init (xs : list Z) :
  forall x, fold_left Z.min xs x <= x.
Proof.
  induction xs as [|z zs IH]; intros x; cbn [fold_left]; [lia|].
  specialize (IH (Z.min x z)). lia.
Qed.

Lemma fold_left_min_le (xs : list Z) :
  forall x y, In y (x :: xs) -> fold_left Z.min xs x <= y.
Proof.
  induction xs as [|z zs IH]; intros x y Hin.
  - destruct Hin as [Heq|[]]. cbn. lia.
  - cbn [fold_left]. pose proof (fold_left_min_le_init zs (Z.min x z)) as Hinit.
    destruct Hin as [Heq|[Heq|Hin]]; [lia | lia |].
    apply IH. right. exact Hin.
Qed.

Lemma fold_left_min_in (xs : list Z) :
  forall x, In (fold_left Z.min xs x) (x :: xs).
Proof.
  induction xs as [|y ys IH]; intros x; [left; reflexivity|].
  cbn [fold_left]. destruct (IH (Z.min x y)) as [H|H].
  - rewrite <- H. destruct (Z.min_spec x y) as [[_ ->]|[_ ->]];
      [left | right; left]; reflexivity.
  - right. right. exact H.
Qed.

Lemma aggregate_min_spec (xs : list Z) (m : Z) :
  aggregate_min xs = Some m -> In m xs /\ forall x, In x xs -> m <= x.
Proof.
  destruct xs as [|x rest]; [discriminate|].
  cbn. intros H. injection H as <-. split.
  - apply fold_left_min_in.
  - intros y Hy. apply fold_left_min_le. exact Hy.
Qed.

Lemma get_epoch_nonneg (d : datetime) :
  0 <= d < datetime_for_epoch 1250000 -> get_epoch d = d / 3600000000.
Proof.
  change (datetime_for_epoch 1250000) with (1250000 * 3600000000).
  apply get_epoch_floor_in_range.
Qed.

(** X8: when the non-protected events of the project are stamped at or after
    1970 and less than 1250000 hours after it (where [get_epoch] is the floor),
    the bucket that selects such an event carries the age-based irrelevance
    [ceil(log2(age + 1))], where [age] is the current epoch minus the epoch of
    the event (0 for an event of the current epoch or later). *)
Theorem planner_age_based_irrelevance (project : Project)
    (current_timestamp : datetime) (w : World) (r : Event) (b : Bucket) :
  (forall r', In r' (rows w) -> evictable_of project r' = true ->
              0 <= server_side_timestamp r' < datetime_for_epoch 1250000) ->
  In r (rows w) -> evictable_of project r = true ->
  In b (fst (get_epoch_bounds_with_irrelevance project current_timestamp w)) ->
  get_epoch_bounds (fst (fst b)) (snd (fst b)) r = true ->
  snd b = Z.log2_up (get_epoch current_timestamp
                     - get_epoch (server_side_timestamp r) + 1).
Proof.
  intros Hpost Hr Hev Hb Hsel.
  destruct (get_epoch_bounds_with_irrelevance_exact project current_timestamp w)
    as (k & Heq & _ & Hstop).
  rewrite Heq in Hb. cbn [fst] in Hb.
  destruct b as [[lb ub] age]. cbn [fst snd] in *.
  rewrite (get_epoch_bounds_epoch_in_bucket lb ub age) in Hsel.
  rewrite epoch_floor_div, <- get_epoch_nonneg in Hsel by (apply Hpost; assumption).
  change age with (snd ((lb, ub, age) : Bucket)).
  apply (chain_age (get_epoch current_timestamp)
                   (get_epoch (server_side_timestamp r)) k 0 None
                   ltac:(lia) (or_introl (conj eq_refl eq_refl)));
    [| exact Hb | exact Hsel].
  rewrite Z.add_0_l.
  eapply Z.le_trans; [|exact Hstop].
  unfold planner_difference.
  destruct (aggregate_min _) as [oldest|] eqn:Hmin.
  - apply aggregate_min_spec in Hmin. destruct Hmin as [Hin Hle].
    assert (Hts : oldest <= server_side_timestamp r).
    { apply Hle. apply in_map. apply filter_In. split; assumption. }
    apply in_map_iff in Hin. destruct Hin as (r0 & <- & Hr0).
    apply filter_In in Hr0. destruct Hr0 as [Hr0 Hev0].
    rewrite (get_epoch_nonneg (server_side_timestamp r0)),
      (get_epoch_nonneg (server_side_timestamp r)) by (apply Hpost; assumption).
    apply Z.sub_le_mono_l. apply Z.div_le_mono; [lia | exact Hts].
  - exfalso. destruct (filter (evictable_of project) (rows w)) eqn:Hf.
    + assert (Hrf : In r (filter (evictable_of project) (rows w)))
        by (apply filter_In; split; assumption).
      rewrite Hf in Hrf. destruct Hrf.
    + discriminate Hmin.
Qed.

Lemma planner_age_based_irrelevance_witness :
  let r := mkEvent 1 (sample_now - 5 * 60000000) (5 mod 7) false in
  let b : Bucket := ((Some 499999, Some 500000), 1) in
  snd b = Z.log2_up (get_epoch sample_now
                     - get_epoch (server_side_timestamp r) + 1).
Proof.
  intros r b.
  apply (planner_age_based_irrelevance sample_project sample_now
           (world_of (sample_events 130 false)) r b).
  - intros r' Hin _. unfold world_of, rows, sample_events in Hin.
    apply in_map_iff in Hin. destruct Hin as (i & <- & Hi).
    cbn [server_side_timestamp].
    assert (Hrange : forall len n x, In x (count_up len n) ->
                                     n <= x < n + Z.of_nat len).
    { induction len as [|len IH]; intros n x Hx; [destruct Hx|].
      destruct Hx as [<-|Hx]; [lia|]. apply IH in Hx. lia. }
    apply Hrange in Hi. change (0 + Z.of_nat (Z.to_nat 130)) with 130 in Hi.
    unfold sample_now.
    rewrite !datetime_for_epoch_eq. lia.
  - vm_compute. do 5 right. left. reflexivity.
  - reflexivity.
  - vm_compute. right. left. reflexivity.
  - reflexivity.
Defined.

(** ** Epoch ranges and the survey *)

(** X9: on a row stamped at or after 1970 and less than 1250000 hours after
    it (where [get_epoch] is the floor), [get_epoch_bounds(lower, upper)]
    holds exactly when [lower <= get_epoch(timestamp) < upper], a missing
    bound not being checked. *)
Theorem get_epoch_bounds_selects_by_get_epoch (lower upper : option Z) (e : Event) :
  0 <= server_side_timestamp e < datetime_for_epoch 1250000 ->
  get_epoch_bounds lower upper e
  = match lower with
    | Some lower => lower <=? get_epoch (server_side_timestamp e)
    | None => true
    end
    && match upper with
       | Some upper => get_epoch (server_side_timestamp e) <? upper
       | None => true
       end.
Proof.
  intros Hts.
  rewrite (get_epoch_bounds_epoch_in_bucket lower upper 0).
  rewrite epoch_floor_div, <- get_epoch_nonneg by exact Hts.
  reflexivity.
Qed.

Lemma get_epoch_bounds_selects_by_get_epoch_witness :
  let e := mkEvent 1 sample_now 0 false in
  get_epoch_bounds (Some 499999) (Some 500001) e
  = (499999 <=? get_epoch (server_side_timestamp e))
    && (get_epoch (server_side_timestamp e) <? 500001).
Proof.
  intros e.
  apply (get_epoch_bounds_selects_by_get_epoch (Some 499999) (Some 500001) e).
  vm_compute. split; [discriminate | reflexivity].
Defined.

Lemma fold_left_max_ge_init (xs : list Z) :
  forall x, x <= fold_left Z.max xs x.
Proof.
  induction xs as [|z zs IH]; intros x; cbn [fold_left]; [lia|].
  specialize (IH (Z.max x z)). lia.
Qed.

Lemma py_max_ge (xs : list Z) (m : Z) :
  py_max xs = Some m -> forall x, In x xs -> x <= m.
Proof.
  destruct xs as [|y rest]; [discriminate|].
  cbn [py_max]. intros H. injection H as <-. revert y.
  induction rest as [|z zs IH]; intros y x Hin.
  - destruct Hin as [->|[]]. cbn. lia.
  - cbn [fold_left]. pose proof (fold_left_max_ge_init zs (Z.max y z)) as Hinit.
    destruct Hin as [Heq|[Heq|Hin]]; [lia | lia |].
    apply IH. right. exact Hin.
Qed.

Lemma py_or_0_some (v : Z) : py_or_0 (Some v) = v.
Proof. cbn. destruct (v =? 0) eqn:H; [apply Z.eqb_eq in H; lia | reflexivity]. Qed.

(** The survey, bucket by bucket. *)
Lemma get_irrelevance_pairs_combine (project : Project) (buckets : list Bucket)
    (w : World) (pr : Z * Z) (b : Bucket) :
  In (pr, b) (combine (fst (get_irrelevance_pairs project buckets w)) buckets) ->
  pr = (snd b,
        py_or_0 (aggregate_max (map irrelevance_for_retention
          (filter (fun e => get_epoch_bounds (fst (fst b)) (snd (fst b)) e
                            && evictable_of project e) (rows w))))).
Proof.
  unfold get_irrelevance_pairs, select. cbn [fst].
  induction buckets as [|[[lb ub] age] rest IH]; intros Hin; [destruct Hin|].
  cbn [map combine] in Hin. destruct Hin as [Heq|Hin].
  - injection Heq as <- <-. reflexivity.
  - exact (IH Hin).
Qed.

(** X10: the survey reads without writing and gives one pair per bucket, in
    order, whose first component is the bucket's age-based irrelevance. The
    second component is at least the irrelevance of every non-protected event
    of the project in the bucket's epoch range; when it is not 0 it is the
    irrelevance of such an event, and it is 0 when the range holds none. *)
Theorem get_irrelevance_pairs_surveys_the_maximum (project : Project)
    (buckets : list Bucket) (w : World) :
  let pairs := fst (get_irrelevance_pairs project buckets w) in
  snd (get_irrelevance_pairs project buckets w) = w
  /\ map fst pairs = map snd buckets
  /\ forall pr b,
       In (pr, b) (combine pairs buckets) ->
       let in_range := fun e =>
         get_epoch_bounds (fst (fst b)) (snd (fst b)) e && evictable_of project e in
       (forall e, In e (rows w) -> in_range e = true ->
                  irrelevance_for_retention e <= snd pr)
       /\ (snd pr <> 0 ->
           exists e, In e (rows w) /\ in_range e = true
                     /\ irrelevance_for_retention e = snd pr)
       /\ (filter in_range (rows w) = [] -> snd pr = 0).
Proof.
  intros pairs. split; [reflexivity|]. split.
  - subst pairs. unfold get_irrelevance_pairs, select. cbn [fst].
    rewrite map_map. apply map_ext. intros [[lb ub] age]. reflexivity.
  - intros pr b Hin in_range. subst pairs.
    apply get_irrelevance_pairs_combine in Hin. subst pr. cbn [snd].
    fold in_range. unfold aggregate_max.
    destruct (py_max (map irrelevance_for_retention (filter in_range (rows w))))
      as [m|] eqn:Hmax.
    + rewrite py_or_0_some. split; [|split].
      * intros e He Hsel. apply (py_max_ge _ _ Hmax).
        apply in_map. apply filter_In. split; assumption.
      * intros _. apply py_max_in in Hmax. apply in_map_iff in Hmax.
        destruct Hmax as (e & Heq & He). apply filter_In in He.
        exists e. tauto.
      * intros Hnone. rewrite Hnone in Hmax. discriminate.
    + destruct (filter in_range (rows w)) as [|e rest] eqn:Hf; [|discriminate].
      cbn [py_or_0]. split; [|split].
      * intros e He Hsel.
        assert (Hin : In e (filter in_range (rows w)))
          by (apply filter_In; split; assumption).
        rewrite Hf in Hin. destruct Hin.
      * intros H. congruence.
      * reflexivity.
Qed.

Lemma get_irrelevance_pairs_surveys_the_maximum_witness :
  let e := mkEvent 1 (datetime_for_epoch 499999 + 5) 5 false in
  irrelevance_for_retention e <= snd (1, 5).
Proof.
  intros e.
  pose proof (get_irrelevance_pairs_surveys_the_maximum sample_project quota_buckets
                (world_of quota_events)) as (_ & _ & H).
  destruct (H (1, 5) ((Some 499999, Some 500000), 1)) as (Hle & _).
  - left. reflexivity.
  - apply (Hle e).
    + left. reflexivity.
    + reflexivity.
Defined.

(** ** Single deletes and passes *)

Lemma evicts_frame (project : Project) (f : Filter) (n : Z) (w w' : World) :
  (forall e, f e = true -> evictable_of project e = false) ->
  evicts project n w w' ->
  filter f (rows w') = filter f (rows w).
Proof.
  intros Hf (sel & Hsel & Hrows & _).
  rewrite Hrows, filter_filter. apply filter_ext. intros e.
  destruct (f e) eqn:Hfe; [|apply andb_false_r].
  destruct (sel e) eqn:Hse; [|reflexivity].
  specialize (Hf e Hfe). rewrite (Hsel e Hse) in Hf. discriminate.
Qed.

Lemma evicts_from_same_rows (project : Project) (n : Z) (w0 w w' : World) :
  evicts project n w w' -> rows w0 = rows w -> evicts project n w0 w'.
Proof. intros (sel & H1 & H2 & H3) Heq. exists sel. rewrite Heq. auto. Qed.

(** X11: one [DELETE] of [evict_for_epoch_and_irrelevance] returns exactly
    the number of rows it removed and logs one statement; afterwards no
    non-protected row of the project above the irrelevance and before the
    epoch is left, so that the same call made again deletes nothing. *)
Theorem evict_for_epoch_and_irrelevance_is_exact_and_idempotent (project : Project)
    (max_epoch : option Z) (max_irrelevance : Z) (w : World) :
  let first := evict_for_epoch_and_irrelevance project max_epoch max_irrelevance w in
  let again := evict_for_epoch_and_irrelevance project max_epoch max_irrelevance
                 (snd first) in
  fst first = Z.of_nat (length (rows w)) - Z.of_nat (length (rows (snd first)))
  /\ delete_log (snd first)
     = delete_log w
       ++ [mkDeleteQuery (project_pk project) max_irrelevance
             (option_map datetime_for_epoch max_epoch) (fst first)]
  /\ (forall e, In e (rows (snd first)) ->
        project_id e = project_pk project -> never_evict e = false ->
        match max_epoch with
        | Some max_epoch => server_side_timestamp e < datetime_for_epoch max_epoch
        | None => True
        end ->
        irrelevance_for_retention e <= max_irrelevance)
  /\ fst again = 0
  /\ rows (snd again) = rows (snd first).
Proof.
  intros first again. subst again first.
  assert (Hcount :
    fst (evict_for_epoch_and_irrelevance project max_epoch max_irrelevance w)
    = Z.of_nat (length (rows w))
      - Z.of_nat (length (rows (snd (evict_for_epoch_and_irrelevance project
                                       max_epoch max_irrelevance w))))).
  { destruct (evict_for_epoch_and_irrelevance project max_epoch max_irrelevance w)
      as [n w'] eqn:Hrun.
    apply evict_for_epoch_and_irrelevance_evicts, evicts_length in Hrun.
    cbn [fst snd]. lia. }
  revert Hcount.
  rewrite !evict_for_epoch_and_irrelevance_run. unfold delete. cbn [fst snd rows delete_log].
  set (sel := eviction_filter project max_epoch max_irrelevance).
  assert (Hleft : forall e, In e (filter (fun e => negb (sel e)) (rows w)) ->
                            sel e = false).
  { intros e He. apply filter_In in He. destruct He as [_ He].
    apply negb_true_iff. exact He. }
  intros Hcount.
  split; [|split; [|split; [|split]]].
  - exact Hcount.
  - reflexivity.
  - intros e He Hp Hne Hts. specialize (Hleft e He).
    subst sel. unfold eviction_filter in Hleft.
    rewrite Hp, Z.eqb_refl, Hne in Hleft. cbn [andb negb] in Hleft.
    destruct (irrelevance_for_retention e >? max_irrelevance) eqn:Hirr;
      [|rewrite Z.gtb_ltb in Hirr; apply Z.ltb_ge in Hirr; exact Hirr].
    cbn [andb] in Hleft.
    destruct max_epoch as [me|]; [|discriminate].
    apply Z.ltb_ge in Hleft. lia.
  - rewrite filter_none; [reflexivity | exact Hleft].
  - apply filter_all. intros e He. rewrite (Hleft e He). reflexivity.
Qed.

Section Pass.

Variable project : Project.
Variable max_total_irrelevance : Z.

Lemma evict_for_irrelevance_from_log (quota : option Z) (buckets : list Bucket) :
  forall deleted w n w',
    evict_for_irrelevance_from project max_total_irrelevance buckets quota
      deleted w = (n, w') ->
    exists issued,
      delete_log w' = delete_log w ++ issued
      /\ n = deleted + total_deletions issued
      /\ (length issued <= length buckets)%nat
      /\ (buckets <> [] -> issued <> [])
      /\ (forall dq, In dq issued -> dq_project dq = project_pk project).
Proof.
  induction buckets as [|[[lb ub] age] older IH]; intros deleted w n w' Hrun.
  - injection Hrun as <- <-. exists []. rewrite app_nil_r. cbn.
    split; [reflexivity|]. split; [lia|]. split; [lia|].
    split; [congruence | intros dq []].
  - cbn [evict_for_irrelevance_from] in Hrun. unfold bind at 1 in Hrun.
    rewrite evict_for_epoch_and_irrelevance_run in Hrun. unfold delete in Hrun.
    set (n1 := Z.of_nat (length (filter _ (rows w)))) in Hrun.
    set (dq := mkDeleteQuery _ _ _ n1) in Hrun.
    assert (Hdq : dq_nr_of_deletions dq = n1) by reflexivity.
    assert (Hpk : dq_project dq = project_pk project) by reflexivity.
    clearbody dq n1.
    assert (Hone : forall w1, delete_log w1 = delete_log w ++ [dq] ->
              exists issued,
                delete_log w1 = delete_log w ++ issued
                /\ deleted + n1 = deleted + total_deletions issued
                /\ (length issued <= length (((lb, ub), age) :: older))%nat
                /\ (((lb, ub), age) :: older <> [] -> issued <> [])
                /\ (forall dq', In dq' issued -> dq_project dq' = project_pk project)).
    { intros w1 Hlog. exists [dq]. rewrite total_deletions_cons, Hdq. cbn.
      repeat split; try lia; try assumption; try discriminate.
      intros dq' [<-|[]]. exact Hpk. }
    destruct (max_total_irrelevance - age <=? -1).
    { injection Hrun as <- <-. apply Hone. reflexivity. }
    destruct (quota_reached quota (deleted + n1)).
    { injection Hrun as <- <-. apply Hone. reflexivity. }
    apply IH in Hrun. destruct Hrun as (issued & Hlog & Hn & Hlen & _ & Hproj).
    cbn [delete_log] in Hlog.
    exists (dq :: issued). split; [|split; [|split; [|split]]].
    + rewrite Hlog, <- app_assoc. reflexivity.
    + rewrite total_deletions_cons, Hdq. lia.
    + cbn [length]. lia.
    + discriminate.
    + intros dq' [<-|Hin]; [exact Hpk | exact (Hproj dq' Hin)].
Qed.

(** After a pass with a quota, the pass without quota has only deleted more. *)
Lemma evict_for_irrelevance_from_quota_spares (quota : option Z)
    (buckets : list Bucket) :
  forall deleted w,
    exists m,
      evicts project m
        (snd (evict_for_irrelevance_from project max_total_irrelevance buckets
                quota deleted w))
        (snd (evict_for_irrelevance_from project max_total_irrelevance buckets
                None deleted w))
      /\ fst (evict_for_irrelevance_from project max_total_irrelevance buckets
                None deleted w)
         = fst (evict_for_irrelevance_from project max_total_irrelevance buckets
                  quota deleted w) + m.
Proof.
  induction buckets as [|[[lb ub] age] older IH]; intros deleted w.
  - exists 0. cbn. split; [apply evicts_refl | lia].
  - cbn [evict_for_irrelevance_from]. unfold bind.
    destruct (evict_for_epoch_and_irrelevance project ub
                (max_total_irrelevance - age) w) as [n1 w1].
    destruct (max_total_irrelevance - age <=? -1).
    { exists 0. cbn. split; [apply evicts_refl | lia]. }
    cbn [quota_reached].
    destruct (quota_reached quota (deleted + n1)); [|apply IH].
    destruct (evict_for_irrelevance_from project max_total_irrelevance older None
                (deleted + n1) w1) as [n w'] eqn:Hrest.
    apply evict_for_irrelevance_from_evicts in Hrest.
    exists (n - (deleted + n1)). unfold print, ret. cbn [fst snd].
    split; [|lia].
    eapply evicts_from_same_rows; [exact Hrest | reflexivity].
Qed.

End Pass.

(** X12: whatever the quota, [evict_for_irrelevance] returns exactly the
    number of rows it removed, which is the total of the [DELETE]s it logged;
    it issues at most one [DELETE] per bucket, at least one when there is a
    bucket, all of them on its own project, and logs nothing for the
    performance logger. *)
Theorem evict_for_irrelevance_counts_what_it_deletes (project : Project)
    (max_total_irrelevance : Z) (buckets : list Bucket) (quota : option Z)
    (w : World) :
  let run := evict_for_irrelevance project max_total_irrelevance buckets quota w in
  fst run = Z.of_nat (length (rows w)) - Z.of_nat (length (rows (snd run)))
  /\ performance_log (snd run) = performance_log w
  /\ exists issued,
       delete_log (snd run) = delete_log w ++ issued
       /\ fst run = total_deletions issued
       /\ (length issued <= length buckets)%nat
       /\ (buckets <> [] -> issued <> [])
       /\ (forall dq, In dq issued -> dq_project dq = project_pk project).
Proof.
  intros run. subst run. unfold evict_for_irrelevance.
  destruct (evict_for_irrelevance_from project max_total_irrelevance buckets quota
              0 w) as [n w'] eqn:Hrun.
  cbn [fst snd].
  pose proof (evict_for_irrelevance_from_evicts _ _ _ _ _ _ _ _ Hrun) as Hev.
  rewrite Z.sub_0_r in Hev. apply evicts_length in Hev.
  split; [lia|]. split.
  - exact (evict_for_irrelevance_from_performance_log _ _ _ _ _ _ _ _ Hrun).
  - apply evict_for_irrelevance_from_log in Hrun.
    destruct Hrun as (issued & Hlog & Hn & Hrest). exists issued.
    split; [exact Hlog|]. split; [lia | exact Hrest].
Qed.

(** X13: a quota only spares rows: every row that [evict_for_irrelevance]
    keeps without a quota it also keeps with one, and the count returned with
    a quota is at most the count returned without, the difference being the
    rows spared. *)
Theorem evict_for_irrelevance_quota_only_spares (project : Project)
    (max_total_irrelevance : Z) (buckets : list Bucket) (quota : option Z)
    (w : World) :
  let limited := evict_for_irrelevance project max_total_irrelevance buckets quota w in
  let unlimited := evict_for_irrelevance project max_total_irrelevance buckets None w in
  (forall e, In e (rows (snd unlimited)) -> In e (rows (snd limited)))
  /\ fst limited <= fst unlimited
  /\ fst unlimited - fst limited
     = Z.of_nat (length (rows (snd limited)))
       - Z.of_nat (length (rows (snd unlimited))).
Proof.
  intros limited unlimited. subst limited unlimited. unfold evict_for_irrelevance.
  destruct (evict_for_irrelevance_from_quota_spares project max_total_irrelevance
              quota buckets 0 w) as (m & Hev & Hm).
  split; [|split].
  - intros e. exact (evicts_incl _ _ _ _ _ Hev).
  - pose proof (evicts_nonneg _ _ _ _ Hev). lia.
  - pose proof (evicts_length _ _ _ _ Hev). lia.
Qed.

(** X14: eviction for one project leaves every row it may not delete where it
    was: the rows of any other project, and the protected rows, are the same
    list, in the same order, after [evict_for_epoch_and_irrelevance],
    [evict_for_irrelevance] and [evict_for_max_events] as before. *)
Theorem eviction_leaves_other_rows_in_place (project : Project) (f : Filter)
    (w : World) :
  (forall e, f e = true ->
     project_id e <> project_pk project \/ never_evict e = true) ->
  (forall max_epoch max_irrelevance,
     filter f (rows (snd (evict_for_epoch_and_irrelevance project max_epoch
                            max_irrelevance w)))
     = filter f (rows w))
  /\ (forall max_total_irrelevance buckets quota,
        filter f (rows (snd (evict_for_irrelevance project max_total_irrelevance
                               buckets quota w)))
        = filter f (rows w))
  /\ (forall timestamp stored_event_count,
        filter f (rows (snd (evict_for_max_events project timestamp
                               stored_event_count w)))
        = filter f (rows w)).
Proof.
  intros Hf.
  assert (Hf' : forall e, f e = true -> evictable_of project e = false).
  { intros e He. unfold evictable_of. destruct (Hf e He) as [Hp|Hn].
    - apply Z.eqb_neq in Hp. rewrite Hp. reflexivity.
    - rewrite Hn. apply andb_false_r. }
  split; [|split].
  - intros max_epoch max_irrelevance.
    destruct (evict_for_epoch_and_irrelevance project max_epoch max_irrelevance w)
      as [n w'] eqn:Hrun.
    apply evict_for_epoch_and_irrelevance_evicts in Hrun.
    exact (evicts_frame project f n w w' Hf' Hrun).
  - intros T buckets quota.
    destruct (evict_for_irrelevance project T buckets quota w) as [n w'] eqn:Hrun.
    apply evict_for_irrelevance_evicts in Hrun.
    exact (evicts_frame project f n w w' Hf' Hrun).
  - intros timestamp stored.
    destruct (evict_for_max_events project timestamp stored w) as [r w'] eqn:Hrun.
    apply evict_for_max_events_outcome in Hrun.
    destruct Hrun as (T0 & T & d & Hev & _).
    exact (evicts_frame project f d w w' Hf' Hev).
Qed.

Lemma eviction_leaves_other_rows_in_place_witness :
  let w := world_of (mkEvent 2 0 99 false :: sample_events 20 false) in
  let f : Filter := fun e => project_id e =? 2 in
  (forall max_epoch max_irrelevance,
     filter f (rows (snd (evict_for_epoch_and_irrelevance sample_project max_epoch
                            max_irrelevance w)))
     = filter f (rows w))
  /\ (forall max_total_irrelevance buckets quota,
        filter f (rows (snd (evict_for_irrelevance sample_project
                               max_total_irrelevance buckets quota w)))
        = filter f (rows w))
  /\ (forall timestamp stored_event_count,
        filter f (rows (snd (evict_for_max_events sample_project timestamp
                               stored_event_count w)))
        = filter f (rows w)).
Proof.
  intros w f.
  apply (eviction_leaves_other_rows_in_place sample_project f w).
  intros e He. left. unfold f in He. apply Z.eqb_eq in He. rewrite He.
  discriminate.
Defined.

(** ** What a pass deletes *)

Lemma bucket_chain_nil (above : option Z) (n : Z) :
  bucket_chain above n [] = [((None, above), n)].
Proof. reflexivity. Qed.

Lemma bucket_chain_cons (above : option Z) (n x : Z) (xs : list Z) :
  bucket_chain above n (x :: xs)
  = ((Some x, above), n) :: bucket_chain (Some x) (n + 1) xs.
Proof. reflexivity. Qed.

Lemma buckets_of_bounds_chain (xs : list Z) :
  buckets_of_bounds xs = bucket_chain None 0 xs.
Proof. reflexivity. Qed.

Lemma bucket_chain_upper_bounds (xs : list Z) :
  forall above n b,
    In b (bucket_chain above n xs) ->
    snd (fst b) = above \/ exists y, In y xs /\ snd (fst b) = Some y.
Proof.
  induction xs as [|x xs IH]; intros above n b Hin.
  - rewrite bucket_chain_nil in Hin. destruct Hin as [<-|[]]. left. reflexivity.
  - rewrite bucket_chain_cons in Hin. destruct Hin as [<-|Hin].
    + left. reflexivity.
    + right. destruct (IH _ _ _ Hin) as [Hub|(y & Hy & Hub)].
      * exists x. split; [left; reflexivity | exact Hub].
      * exists y. split; [right; exact Hy | exact Hub].
Qed.

Lemma bucket_chain_ages (xs : list Z) :
  forall above n b, In b (bucket_chain above n xs) -> n <= snd b.
Proof.
  induction xs as [|x xs IH]; intros above n b Hin.
  - rewrite bucket_chain_nil in Hin. destruct Hin as [<-|[]]. cbn. lia.
  - rewrite bucket_chain_cons in Hin. destruct Hin as [<-|Hin]; [cbn; lia|].
    specialize (IH _ _ _ Hin). lia.
Qed.

(** Every row below [above] has its bucket in the chain, and no bucket whose
    upper bound the row is below has a greater age-based irrelevance. *)
Lemma bucket_chain_bucket_of (xs : list Z) :
  forall above n e,
    descending above xs ->
    get_epoch_bounds None above e = true ->
    exists b,
      bucket_of (bucket_chain above n xs) e = Some b
      /\ In b (bucket_chain above n xs)
      /\ get_epoch_bounds None (snd (fst b)) e = true
      /\ forall b', In b' (bucket_chain above n xs) ->
                    get_epoch_bounds None (snd (fst b')) e = true ->
                    snd b' <= snd b.
Proof.
  induction xs as [|x xs IH]; intros above n e Hdesc Hbelow.
  - exists ((None, above), n). rewrite bucket_chain_nil.
    unfold bucket_of. cbn [find fst snd]. rewrite Hbelow.
    split; [reflexivity|]. split; [left; reflexivity|]. split; [reflexivity|].
    intros b' [<-|[]] _. cbn. lia.
  - rewrite bucket_chain_cons.
    inversion Hdesc as [|? ? ? Hx Hrest]; subst.
    destruct (datetime_for_epoch x <=? server_side_timestamp e) eqn:Hlb.
    + assert (Hhere : get_epoch_bounds (Some x) above e = true).
      { destruct above as [u|]; cbn in *; rewrite Hlb; [rewrite Hbelow|];
          reflexivity. }
      exists ((Some x, above), n). unfold bucket_of. cbn [find fst snd].
      rewrite Hhere.
      split; [reflexivity|]. split; [left; reflexivity|]. split; [exact Hbelow|].
      intros b' [<-|Hin] Hb'; [cbn; lia|].
      exfalso. apply Z.leb_le in Hlb.
      apply bucket_chain_upper_bounds in Hin.
      destruct Hin as [Hub|(y & Hy & Hub)]; rewrite Hub in Hb'; cbn in Hb';
        apply Z.ltb_lt in Hb'.
      * lia.
      * pose proof (descending_below xs _ Hrest y Hy) as Hlt. cbn in Hlt.
        pose proof (datetime_for_epoch_mono y x). lia.
    + assert (Hnot : get_epoch_bounds (Some x) above e = false).
      { destruct above as [u|]; cbn; rewrite Hlb; reflexivity. }
      destruct (IH (Some x) (n + 1) e Hrest) as (b & Hfind & Hin & Hb & Hmax).
      { cbn. apply Z.ltb_lt. apply Z.leb_gt in Hlb. exact Hlb. }
      exists b. unfold bucket_of. cbn [find fst snd]. rewrite Hnot.
      split; [exact Hfind|]. split; [right; exact Hin|]. split; [exact Hb|].
      intros b' [<-|Hin'] Hb'.
      * cbn [snd]. pose proof (bucket_chain_ages _ _ _ _ Hin). lia.
      * apply Hmax; assumption.
Qed.

Lemma eviction_filter_split (project : Project) (ub : option Z) (M : Z) (e : Event) :
  eviction_filter project ub M e
  = evictable_of project e && (irrelevance_for_retention e >? M)
    && get_epoch_bounds None ub e.
Proof.
  unfold eviction_filter, evictable_of.
  destruct ub as [u|]; cbn [get_epoch_bounds];
    destruct (project_id e =? project_pk project),
             (irrelevance_for_retention e >? M), (never_evict e); reflexivity.
Qed.

Section PassEffect.

Variable project : Project.
Variable T : Z.

(** Without the early exit, a pass removes the rows that the [DELETE] of
    some bucket selects. *)
Lemma evict_for_irrelevance_every_bucket_from_rows (buckets : list Bucket) :
  forall deleted w,
    rows (snd (evict_for_irrelevance_every_bucket_from project T buckets deleted w))
    = filter (fun e => negb (selected_by_a_bucket project buckets T e)) (rows w).
Proof.
  induction buckets as [|[[lb ub] age] older IH]; intros deleted w.
  - cbn. symmetry. apply filter_all. reflexivity.
  - cbn [evict_for_irrelevance_every_bucket_from]. unfold bind at 1.
    rewrite evict_for_epoch_and_irrelevance_run. unfold delete.
    rewrite IH. cbn [rows]. rewrite filter_filter. apply filter_ext. intros e.
    unfold selected_by_a_bucket. cbn [existsb fst snd]. rewrite negb_orb.
    reflexivity.
Qed.

(** With the early exit and any quota, a pass removes only rows that the
    [DELETE] of some bucket selects. *)
Lemma evict_for_irrelevance_from_spares (quota : option Z) (buckets : list Bucket) :
  forall deleted w e,
    In e (rows w) ->
    selected_by_a_bucket project buckets T e = false ->
    In e (rows (snd (evict_for_irrelevance_from project T buckets quota deleted w))).
Proof.
  induction buckets as [|[[lb ub] age] older IH]; intros deleted w e He Hsel.
  - exact He.
  - unfold selected_by_a_bucket in Hsel. cbn [existsb fst snd] in Hsel.
    apply orb_false_iff in Hsel. destruct Hsel as [Hhere Holder].
    cbn [evict_for_irrelevance_from]. unfold bind at 1.
    rewrite evict_for_epoch_and_irrelevance_run. unfold delete.
    set (w1 := mkWorld _ _ _ _).
    assert (He1 : In e (rows w1)).
    { cbn [w1 rows]. apply filter_In. split; [exact He|]. rewrite Hhere.
      reflexivity. }
    destruct (T - age <=? -1); [exact He1|].
    destruct (quota_reached quota _); [exact He1|].
    apply IH; assumption.
Qed.

End PassEffect.

(** On the buckets of the planner, the [DELETE] of some bucket selects a row
    exactly when the row may be evicted and its total irrelevance is above
    the threshold. *)
Lemma selected_by_a_bucket_over_threshold (project : Project) (xs : list Z) (T : Z)
    (e : Event) :
  descending None xs ->
  selected_by_a_bucket project (buckets_of_bounds xs) T e
  = over_threshold project (buckets_of_bounds xs) T e.
Proof.
  intros Hdesc. rewrite buckets_of_bounds_chain.
  destruct (bucket_chain_bucket_of xs None 0 e Hdesc eq_refl)
    as (b & Hfind & Hin & Hb & Hmax).
  unfold over_threshold, total_irrelevance. rewrite Hfind. cbn [option_map].
  unfold selected_by_a_bucket.
  destruct (existsb _ _) eqn:Hex.
  - apply existsb_exists in Hex. destruct Hex as (b' & Hin' & Hsel).
    rewrite eviction_filter_split in Hsel.
    apply andb_true_iff in Hsel. destruct Hsel as [Hsel Hbelow].
    apply andb_true_iff in Hsel. destruct Hsel as [Hev Hirr].
    specialize (Hmax b' Hin' Hbelow). rewrite Hev. cbn [andb]. symmetry.
    apply Z.gtb_lt. apply Z.gtb_lt in Hirr. lia.
  - destruct (evictable_of project e) eqn:Hev; [|reflexivity]. cbn [andb].
    destruct (snd b + irrelevance_for_retention e >? T) eqn:Hover; [|reflexivity].
    exfalso. apply Bool.not_true_iff_false in Hex. apply Hex.
    apply existsb_exists. exists b. split; [exact Hin|].
    rewrite eviction_filter_split, Hev, Hb. cbn [andb]. rewrite andb_true_r.
    apply Z.gtb_lt. apply Z.gtb_lt in Hover. lia.
Qed.

(** X15: item irrelevances being non-negative, a pass of
    [evict_for_irrelevance] without quota over the buckets of the planner
    deletes exactly the non-protected rows of the project whose total
    irrelevance (the age-based irrelevance of the row's bucket plus the row's
    own) is above [max_total_irrelevance], and returns their number; every
    row has a bucket, so its total irrelevance is defined. *)
Theorem evict_for_irrelevance_deletes_exactly_above_the_threshold
    (project : Project) (timestamp : datetime) (surveyed : World)
    (max_total_irrelevance : Z) (w : World) :
  irrelevance_nonneg project (rows w) ->
  let planned := fst (get_epoch_bounds_with_irrelevance project timestamp surveyed) in
  let run := evict_for_irrelevance project max_total_irrelevance planned None w in
  (forall e, exists b,
      In b planned
      /\ get_epoch_bounds (fst (fst b)) (snd (fst b)) e = true
      /\ total_irrelevance planned e = Some (snd b + irrelevance_for_retention e))
  /\ rows (snd run)
     = filter (fun e => negb (over_threshold project planned max_total_irrelevance e))
              (rows w)
  /\ fst run
     = Z.of_nat (length (filter (over_threshold project planned max_total_irrelevance)
                                (rows w))).
Proof.
  intros Hnn planned run.
  destruct (get_epoch_bounds_with_irrelevance_shape project timestamp surveyed)
    as (xs & Hdesc & Hplanned).
  assert (Hp : planned = buckets_of_bounds xs) by (subst planned; rewrite Hplanned; reflexivity).
  assert (Hrows : rows (snd run)
            = filter (fun e => negb (over_threshold project planned
                                       max_total_irrelevance e)) (rows w)).
  { subst run. unfold evict_for_irrelevance.
    destruct (evict_for_irrelevance_from_early_exit project max_total_irrelevance
                planned) with (deleted := 0) (w := w) as [_ Hsame].
    - rewrite Hp, buckets_of_bounds_chain. apply newest_to_oldest_pairs. exact Hdesc.
    - exact Hnn.
    - rewrite Hsame, evict_for_irrelevance_every_bucket_from_rows.
      apply filter_ext. intros e. rewrite Hp.
      rewrite selected_by_a_bucket_over_threshold by exact Hdesc. reflexivity. }
  split; [|split].
  - intros e. rewrite Hp, buckets_of_bounds_chain.
    destruct (bucket_chain_bucket_of xs None 0 e Hdesc eq_refl)
      as (b & Hfind & Hin & _).
    exists b. split; [exact Hin|]. split.
    + unfold bucket_of in Hfind. apply find_some in Hfind. tauto.
    + unfold total_irrelevance. rewrite Hfind. reflexivity.
  - exact Hrows.
  - destruct run as [n w'] eqn:Hrun. subst run.
    apply evict_for_irrelevance_evicts, evicts_length in Hrun.
    cbn [fst snd] in *. rewrite Hrows in Hrun.
    pose proof (length_filter_split (fun _ => true)
                  (over_threshold project planned max_total_irrelevance) (rows w))
      as Hsplit.
    rewrite !filter_all in Hsplit by reflexivity.
    cbn [andb] in Hsplit.
    change (fun x : Event => over_threshold project planned max_total_irrelevance x)
      with (over_threshold project planned max_total_irrelevance) in Hsplit.
    lia.
Qed.

Lemma evict_for_irrelevance_deletes_exactly_above_the_threshold_witness :
  let w := world_of (sample_events 200 false) in
  let planned := fst (get_epoch_bounds_with_irrelevance sample_project sample_now w) in
  let run := evict_for_irrelevance sample_project 5 planned None w in
  (forall e, exists b,
      In b planned
      /\ get_epoch_bounds (fst (fst b)) (snd (fst b)) e = true
      /\ total_irrelevance planned e = Some (snd b + irrelevance_for_retention e))
  /\ rows (snd run)
     = filter (fun e => negb (over_threshold sample_project planned 5 e)) (rows w)
  /\ fst run
     = Z.of_nat (length (filter (over_threshold sample_project planned 5) (rows w))).
Proof.
  intros w planned run.
  apply (evict_for_irrelevance_deletes_exactly_above_the_threshold
           sample_project sample_now w 5 w).
  intros e Hin _. apply sample_events_in in Hin. tauto.
Defined.

Lemma selected_by_a_bucket_incl (project : Project) (narrowed buckets : list Bucket)
    (T : Z) (e : Event) :
  (forall b, In b narrowed -> In b buckets) ->
  selected_by_a_bucket project narrowed T e = true ->
  selected_by_a_bucket project buckets T e = true.
Proof.
  unfold selected_by_a_bucket. intros Hincl Hsel.
  apply existsb_exists in Hsel. destruct Hsel as (b & Hin & Hb).
  apply existsb_exists. exists b. split; [apply Hincl; exact Hin | exact Hb].
Qed.

Lemma over_threshold_total (project : Project) (buckets : list Bucket) (T total : Z)
    (e : Event) :
  total_irrelevance buckets e = Some total -> total <= T ->
  over_threshold project buckets T e = false.
Proof.
  unfold over_threshold. intros -> Hle.
  replace (total >? T) with false by (symmetry; rewrite Z.gtb_ltb; apply Z.ltb_ge; lia).
  apply andb_false_r.
Qed.

Lemma over_threshold_mono (project : Project) (buckets : list Bucket) (T T' : Z)
    (e : Event) :
  T <= T' ->
  over_threshold project buckets T e = false ->
  over_threshold project buckets T' e = false.
Proof.
  unfold over_threshold. intros Hle H.
  destruct (evictable_of project e); [|reflexivity]. cbn [andb] in *.
  destruct (total_irrelevance buckets e) as [total|]; [|reflexivity].
  rewrite Z.gtb_ltb in *. apply Z.ltb_ge in H. apply Z.ltb_ge. lia.
Qed.

(** X16: a pass of [evict_for_irrelevance] at [max_total_irrelevance], with
    or without quota, over the buckets of the planner or any selection of
    them (such as the one [filter_for_work] makes), keeps every row whose
    total irrelevance is at most [max_total_irrelevance]. *)
Theorem evict_for_irrelevance_spares_rows_at_or_below_the_threshold
    (project : Project) (timestamp : datetime) (surveyed : World)
    (max_total_irrelevance : Z) (buckets : list Bucket) (quota : option Z)
    (w : World) (e : Event) (total : Z) :
  let planned := fst (get_epoch_bounds_with_irrelevance project timestamp surveyed) in
  (forall b, In b buckets -> In b planned) ->
  In e (rows w) ->
  total_irrelevance planned e = Some total ->
  total <= max_total_irrelevance ->
  In e (rows (snd (evict_for_irrelevance project max_total_irrelevance buckets
                     quota w))).
Proof.
  intros planned Hincl He Htotal Hle.
  destruct (get_epoch_bounds_with_irrelevance_shape project timestamp surveyed)
    as (xs & Hdesc & Hplanned).
  assert (Hp : planned = buckets_of_bounds xs)
    by (subst planned; rewrite Hplanned; reflexivity).
  unfold evict_for_irrelevance. apply evict_for_irrelevance_from_spares; [exact He|].
  destruct (selected_by_a_bucket project buckets max_total_irrelevance e) eqn:Hsel;
    [|reflexivity].
  apply (selected_by_a_bucket_incl project buckets planned) in Hsel; [|exact Hincl].
  rewrite Hp, selected_by_a_bucket_over_threshold in Hsel by exact Hdesc.
  rewrite <- Hp in Hsel.
  rewrite (over_threshold_total project planned _ total e Htotal Hle) in Hsel.
  discriminate.
Qed.

Lemma evict_for_irrelevance_spares_rows_at_or_below_the_threshold_witness :
  let w := world_of quota_events in
  let planned := fst (get_epoch_bounds_with_irrelevance sample_project sample_now w) in
  let pairs := fst (get_irrelevance_pairs sample_project planned w) in
  let run := evict_for_irrelevance sample_project 6 (filter_for_work planned pairs 6)
               (Some 1) w in
  let e := mkEvent 1 (datetime_for_epoch 499999 + 5) 5 false in
  In e (rows (snd run)) /\ fst run = 3 /\ length (delete_log (snd run)) = 1%nat.
Proof.
  intros w planned pairs run e. split; [|split; reflexivity].
  apply (evict_for_irrelevance_spares_rows_at_or_below_the_threshold
           sample_project sample_now w 6 (filter_for_work planned pairs 6) (Some 1)
           w e 6).
  - intros b Hb. exact (filter_for_work_incl planned pairs 6 b Hb).
  - left. reflexivity.
  - reflexivity.
  - lia.
Defined.

(** The survey keeps, for the pass at [T], the bucket of every surveyed row
    whose total irrelevance is above [T]. *)
Lemma filter_for_work_keeps (project : Project) (surveyed : World) (T : Z)
    (buckets : list Bucket) (b : Bucket) (e : Event) :
  In b buckets ->
  In e (rows surveyed) ->
  evictable_of project e = true ->
  get_epoch_bounds (fst (fst b)) (snd (fst b)) e = true ->
  snd b + irrelevance_for_retention e > T ->
  In b (filter_for_work buckets (fst (get_irrelevance_pairs project buckets surveyed)) T).
Proof.
  intros Hb He Hev Hrange Hover.
  unfold filter_for_work, get_irrelevance_pairs, select. cbn [fst].
  induction buckets as [|[[lb ub] age] rest IH]; [destruct Hb|].
  cbn [map combine filter].
  destruct Hb as [Heq|Hb].
  - subst b. cbn [fst snd] in *.
    set (irrs := map irrelevance_for_retention _).
    assert (Hin : In (irrelevance_for_retention e) irrs).
    { apply in_map. apply filter_In. split; [exact He|].
      rewrite Hrange, Hev. reflexivity. }
    unfold aggregate_max.
    destruct (py_max irrs) as [m|] eqn:Hmax.
    + pose proof (py_max_ge irrs m Hmax _ Hin) as Hle.
      rewrite py_or_0_some. unfold sum_pair. cbn [fst snd].
      replace (age + m >? T) with true by (symmetry; apply Z.gtb_lt; lia).
      left. reflexivity.
    + destruct irrs; [destruct Hin | discriminate].
  - match goal with
    | |- In b (map snd (if ?c then _ else _)) => destruct c
    end; [right|]; exact (IH Hb).
Qed.

(** X17: [filter_for_work] only leaves out buckets without work: item
    irrelevances being non-negative, and the rows that may be evicted being
    among the rows the survey saw, the pass over the buckets that
    [filter_for_work] keeps for [max_total_irrelevance] leaves the same rows
    and returns the same count as the pass over all the buckets of the
    planner. *)
Theorem filter_for_work_changes_nothing (project : Project) (timestamp : datetime)
    (surveyed : World) (max_total_irrelevance : Z) (w : World) :
  irrelevance_nonneg project (rows w) ->
  (forall e, In e (rows w) -> evictable_of project e = true -> In e (rows surveyed)) ->
  let planned := fst (get_epoch_bounds_with_irrelevance project timestamp surveyed) in
  let pairs := fst (get_irrelevance_pairs project planned surveyed) in
  let narrowed := filter_for_work planned pairs max_total_irrelevance in
  rows (snd (evict_for_irrelevance project max_total_irrelevance narrowed None w))
  = rows (snd (evict_for_irrelevance project max_total_irrelevance planned None w))
  /\ fst (evict_for_irrelevance project max_total_irrelevance narrowed None w)
     = fst (evict_for_irrelevance project max_total_irrelevance planned None w).
Proof.
  intros Hnn Hseen planned pairs narrowed.
  destruct (get_epoch_bounds_with_irrelevance_shape project timestamp surveyed)
    as (xs & Hdesc & Hplanned).
  assert (Hp : planned = buckets_of_bounds xs)
    by (subst planned; rewrite Hplanned; reflexivity).
  assert (Hsorted : newest_to_oldest planned)
    by (rewrite Hp, buckets_of_bounds_chain; apply newest_to_oldest_pairs; exact Hdesc).
  assert (Hrows :
    rows (snd (evict_for_irrelevance project max_total_irrelevance narrowed None w))
    = rows (snd (evict_for_irrelevance project max_total_irrelevance planned None w))).
  { unfold evict_for_irrelevance.
    destruct (evict_for_irrelevance_from_early_exit project max_total_irrelevance
                planned Hsorted 0 w Hnn) as [_ ->].
    destruct (evict_for_irrelevance_from_early_exit project max_total_irrelevance
                narrowed (newest_to_oldest_filter_for_work planned Hsorted pairs _)
                0 w Hnn) as [_ ->].
    rewrite !evict_for_irrelevance_every_bucket_from_rows.
    apply filter_ext_in. intros e He. f_equal.
    destruct (selected_by_a_bucket project planned max_total_irrelevance e) eqn:Hsel.
    - rewrite Hp, selected_by_a_bucket_over_threshold in Hsel by exact Hdesc.
      rewrite buckets_of_bounds_chain in Hsel.
      destruct (bucket_chain_bucket_of xs None 0 e Hdesc eq_refl)
        as (b & Hfind & Hin & Hb & _).
      unfold over_threshold, total_irrelevance in Hsel. rewrite Hfind in Hsel.
      cbn [option_map] in Hsel.
      apply andb_true_iff in Hsel. destruct Hsel as [Hev Hover].
      apply Z.gtb_lt in Hover.
      unfold selected_by_a_bucket. apply existsb_exists. exists b. split.
      + subst narrowed pairs. apply (filter_for_work_keeps project surveyed _ _ b e).
        * rewrite Hp, buckets_of_bounds_chain. exact Hin.
        * exact (Hseen e He Hev).
        * exact Hev.
        * unfold bucket_of in Hfind. apply find_some in Hfind. tauto.
        * lia.
      + rewrite eviction_filter_split, Hev, Hb. cbn [andb]. rewrite andb_true_r.
        apply Z.gtb_lt. lia.
    - destruct (selected_by_a_bucket project narrowed max_total_irrelevance e)
        eqn:Hnarrow; [|reflexivity].
      apply (selected_by_a_bucket_incl project narrowed planned) in Hnarrow;
        [congruence|].
      intros b. apply filter_for_work_incl. }
  split; [exact Hrows|].
  destruct (evict_for_irrelevance project max_total_irrelevance narrowed None w)
    as [n1 w1] eqn:Hrun1.
  destruct (evict_for_irrelevance project max_total_irrelevance planned None w)
    as [n2 w2] eqn:Hrun2.
  apply evict_for_irrelevance_evicts, evicts_length in Hrun1.
  apply evict_for_irrelevance_evicts, evicts_length in Hrun2.
  cbn [fst snd] in *. rewrite Hrows in Hrun1. lia.
Qed.

Lemma filter_for_work_changes_nothing_witness :
  let w := world_of (sample_events 200 false) in
  let planned := fst (get_epoch_bounds_with_irrelevance sample_project sample_now w) in
  let pairs := fst (get_irrelevance_pairs sample_project planned w) in
  let narrowed := filter_for_work planned pairs 7 in
  rows (snd (evict_for_irrelevance sample_project 7 narrowed None w))
  = rows (snd (evict_for_irrelevance sample_project 7 planned None w))
  /\ fst (evict_for_irrelevance sample_project 7 narrowed None w)
     = fst (evict_for_irrelevance sample_project 7 planned None w).
Proof.
  intros w planned pairs narrowed.
  apply (filter_for_work_changes_nothing sample_project sample_now w 7 w).
  - intros e Hin _. apply sample_events_in in Hin. tauto.
  - intros e Hin _. exact Hin.
Defined.

(** ** Runs of [evict_for_max_events] *)

Lemma binary64_95_100 :
  binary64 (95 # 100) = (4278419646001971 # 4503599627370496)%Q.
Proof. vm_compute. reflexivity. Qed.

Lemma lowered_target_opp (n : Z) : lowered_target (- n) = - lowered_target n.
Proof.
  unfold lowered_target, float_mul, float_of_int.
  rewrite inject_Z_opp, binary64_opp.
  rewrite (binary64_Qeq (- binary64 (inject_Z n) * binary64 (95 # 100))
                        (- (binary64 (inject_Z n) * binary64 (95 # 100)))) by ring.
  rewrite binary64_opp. apply py_int_opp.
Qed.

Lemma lowered_target_floor (n : Z) :
  0 <= n < 2 ^ 48 -> lowered_target n = 95 * n / 100.
Proof.
  intros [Hn0 Hn1].
  replace (95 * n / 100) with (19 * n / 20)
    by (replace (95 * n) with (5 * (19 * n)) by lia;
        change 100 with (5 * 20); rewrite Z.div_mul_cancel_l by lia; reflexivity).
  pose proof (Z.div_mod (19 * n) 20 ltac:(lia)) as Hdm.
  pose proof (Z.mod_pos_bound (19 * n) 20 ltac:(lia)) as Hm.
  set (t := 19 * n / 20) in *. set (r := (19 * n) mod 20) in *.
  assert (Ht : 0 <= t < 2 ^ 48).
  { split; [apply Z.div_pos; lia | apply Z.div_lt_upper_bound; lia]. }
  unfold lowered_target, float_mul, float_of_int.
  rewrite binary64_Z by lia. rewrite binary64_95_100.
  set (qn := inject_Z n). set (qt := inject_Z t). set (qr := inject_Z r).
  assert (Heq : (20 * qt + qr == 19 * qn)%Q).
  { unfold qt, qr, qn. change 20%Q with (inject_Z 20). change 19%Q with (inject_Z 19).
    rewrite <- !inject_Z_mult, <- inject_Z_plus. rewrite <- Hdm. reflexivity. }
  assert (Hqn0 : (0 <= qn)%Q) by (unfold qn; rewrite <- (Zle_Qle 0); lia).
  assert (Hqn1 : (qn <= 281474976710655)%Q)
    by (unfold qn; change 281474976710655%Q with (inject_Z 281474976710655);
        rewrite <- Zle_Qle; lia).
  assert (Hqr0 : (0 <= qr)%Q) by (unfold qr; rewrite <- (Zle_Qle 0); lia).
  assert (Hqr1 : (qr <= 19)%Q)
    by (unfold qr; change 19%Q with (inject_Z 19); rewrite <- Zle_Qle; lia).
  set (p := (qn * (4278419646001971 # 4503599627370496))%Q).
  assert (Hp0 : (0 <= p)%Q) by (unfold p; lra).
  destruct (Z.eq_dec r 0) as [Hr|Hr].
  - assert (Hqr : (qr == 0)%Q) by (unfold qr; rewrite Hr; reflexivity).
    destruct (Z.eq_dec n 0) as [Hn|Hn].
    + subst n. reflexivity.
    + assert (Hqn : (1 <= qn)%Q)
        by (unfold qn; change 1%Q with (inject_Z 1); rewrite <- Zle_Qle; lia).
      assert (Hy : (binary64 p == inject_Z t)%Q).
      { apply binary64_near_integer; [unfold p; lra | fold qt; unfold p; lra | lia |].
        fold qt. change (1 # 2 ^ 53)%Q with (1 # 9007199254740992)%Q.
        unfold p. lra. }
      rewrite (binary64_eq_Z _ _ Hy). apply py_int_inject_Z.
  - assert (Hqr : (1 <= qr)%Q)
      by (unfold qr; change 1%Q with (inject_Z 1); rewrite <- Zle_Qle; lia).
    apply py_int_unique; [lia | |].
    + apply (binary64_ge p (inject_Z t) Hp0).
      { apply is_binary64_nat. change (2 ^ 48) with 281474976710656 in Ht. lia. }
      fold qt. unfold p. lra.
    + destruct (binary64_error p Hp0) as [_ Hy1].
      change (1 # 2 ^ 53)%Q with (1 # 9007199254740992)%Q in Hy1.
      fold qt. unfold p in *. lra.
Qed.

Lemma lowered_target_monotone (m n : Z) :
  m <= n -> lowered_target m <= lowered_target n.
Proof.
  intros Hmn. unfold lowered_target, float_mul, float_of_int.
  apply py_int_monotone, binary64_monotone.
  rewrite binary64_95_100.
  apply Qmult_le_compat_r; [|discriminate].
  apply binary64_monotone. rewrite <- Zle_Qle. exact Hmn.
Qed.

Lemma lowered_target_slack (n : Z) :
  0 <= n < 2 ^ 48 -> 0 <= lowered_target n <= n /\ n <= 20 * (n - lowered_target n).
Proof.
  intros Hn. rewrite lowered_target_floor by exact Hn.
  pose proof (Z.div_mod (95 * n) 100 ltac:(lia)) as Hdm.
  pose proof (Z.mod_pos_bound (95 * n) 100 ltac:(lia)) as Hm.
  lia.
Qed.

(** Beyond 2^50 the binary64 product shows: here it is rounded up to the next
    integer. *)
Example lowered_target_rounds_up_beyond_2_50 :
  lowered_target 1185157796676461 = 95 * 1185157796676461 / 100 + 1
  /\ lowered_target_binary64 1185157796676461 = lowered_target 1185157796676461.
Proof. vm_compute. split; reflexivity. Qed.

(** X18: [lowered_target] is odd and never decreases. For a capacity [n] below
    2^48 in absolute value it is [95 n / 100] rounded toward zero, the
    binary64 product of the source included: for [0 <= n < 2^48] it is
    [95 n / 100] rounded down, between 0 and [n], so that between a twentieth
    of the capacity and one row more are freed; for a negative capacity the
    target is not below the capacity. *)
Theorem lowered_target_is_95_percent_rounded_toward_zero (n : Z) :
  lowered_target (- n) = - lowered_target n
  /\ (forall m, m <= n -> lowered_target m <= lowered_target n)
  /\ (- 2 ^ 48 < n < 2 ^ 48 -> lowered_target n = Z.quot (95 * n) 100)
  /\ (0 <= n < 2 ^ 48 ->
      lowered_target n = 95 * n / 100
      /\ 0 <= lowered_target n <= n
      /\ n <= 20 * (n - lowered_target n) < n + 20)
  /\ (- 2 ^ 48 < n <= 0 -> n <= lowered_target n <= 0).
Proof.
  change (2 ^ 48) with 281474976710656.
  assert (Hfloor : forall k, 0 <= k < 281474976710656 ->
                             lowered_target k = 95 * k / 100).
  { intros k Hk. apply lowered_target_floor.
    change (2 ^ 48) with 281474976710656. exact Hk. }
  assert (Hneg : lowered_target n = - lowered_target (- n)).
  { rewrite lowered_target_opp. lia. }
  split; [apply lowered_target_opp|].
  split; [intros m; apply lowered_target_monotone|].
  split; [|split].
  - intros Hn. destruct (Z_le_gt_dec 0 n) as [Hpos|Hlt].
    + rewrite Hfloor by lia. symmetry. apply Z.quot_div_nonneg; lia.
    + rewrite Hneg, Hfloor by lia.
      replace (95 * n) with (- (95 * - n)) by lia.
      rewrite Z.quot_opp_l, Z.quot_div_nonneg by lia. reflexivity.
  - intros Hn. rewrite Hfloor by exact Hn.
    pose proof (Z.div_mod (95 * n) 100 ltac:(lia)) as Hdm.
    pose proof (Z.mod_pos_bound (95 * n) 100 ltac:(lia)) as Hm.
    split; [reflexivity|]. split; lia.
  - intros Hn. rewrite Hneg, Hfloor by lia.
    pose proof (Z.div_mod (95 * - n) 100 ltac:(lia)) as Hdm.
    pose proof (Z.mod_pos_bound (95 * - n) 100 ltac:(lia)) as Hm.
    lia.
Qed.

Lemma evict_for_max_events_unfold (project : Project) (timestamp : datetime)
    (stored_event_count : option Z) (w : World) :
  let planned := fst (get_epoch_bounds_with_irrelevance project timestamp w) in
  let pairs := fst (get_irrelevance_pairs project planned w) in
  exists T0,
    py_max (map sum_pair pairs) = Some T0
    /\ length pairs = length planned
    /\ evict_for_max_events project timestamp stored_event_count w
       = let (r, w1) := sweep (sweep_fuel T0) project
                          (stored_count stored_event_count project w)
                          planned pairs T0 0 w in
         match r with
         | Returned (T, d) =>
             (Returned T,
              logged (mkPerformanceRecord
                        (stored_count stored_event_count project w - d) T0 T) w1)
         | Raised e => (Raised e, w1)
         | OutOfFuel => (OutOfFuel, w1)
         end.
Proof.
  intros planned pairs.
  destruct (get_epoch_bounds_with_irrelevance_shape project timestamp w)
    as (xs & _ & Hbuckets).
  assert (Hp : planned = buckets_of_bounds xs)
    by (subst planned; rewrite Hbuckets; reflexivity).
  destruct (get_irrelevance_pairs_run project planned w)
    as (pairs' & Hpairs & Hlen & _).
  assert (Hpr : pairs = pairs') by (subst pairs; rewrite Hpairs; reflexivity).
  destruct (buckets_of_bounds_head xs) as (lb & older & Hhead).
  destruct (py_max_nonempty (map sum_pair pairs)) as [T0 HT0].
  { intros Hnil. apply (f_equal (@length Z)) in Hnil.
    rewrite length_map, Hpr, Hlen, Hp, Hhead in Hnil. discriminate. }
  exists T0. split; [exact HT0|]. split; [rewrite Hpr; exact Hlen|].
  unfold evict_for_max_events.
  assert (Hstored :
            (match stored_event_count with
             | Some stored_event_count => ret stored_event_count
             | None => select (fun events => Z.of_nat (length
                 (filter (fun e => project_id e =? project_pk project) events)) + 1)
             end) w = (stored_count stored_event_count project w, w)).
  { destruct stored_event_count; reflexivity. }
  unfold bind at 1. rewrite Hstored.
  unfold bind at 1. rewrite Hbuckets. rewrite <- Hp.
  unfold bind at 1. rewrite Hpairs. rewrite <- Hpr.
  rewrite HT0. unfold bind at 1.
  destruct (sweep _ _ _ _ _ _ _ w) as [[[T d]|e|] w1]; reflexivity.
Qed.

Lemma total_deletions_app (xs ys : list DeleteQuery) :
  total_deletions (xs ++ ys) = total_deletions xs + total_deletions ys.
Proof.
  induction xs as [|x xs IH]; [reflexivity|].
  cbn [app]. rewrite !total_deletions_cons, IH. lia.
Qed.

Lemma in_combine_of_lengths {A B : Type} (xs : list A) :
  forall (ys : list B) (x : A),
    length xs = length ys -> In x xs -> exists y, In (x, y) (combine xs ys).
Proof.
  induction xs as [|a xs IH]; intros [|b ys] x Hlen Hin; try discriminate;
    [destruct Hin|].
  destruct Hin as [->|Hin].
  - exists b. left. reflexivity.
  - injection Hlen as Hlen. destruct (IH ys x Hlen Hin) as [y Hy].
    exists y. right. exact Hy.
Qed.

(** The first pass always has a bucket to work on: one that attains the
    surveyed maximum. *)
Lemma filter_for_work_first_pass (buckets : list Bucket) (pairs : list (Z * Z))
    (T0 : Z) :
  length pairs = length buckets ->
  py_max (map sum_pair pairs) = Some T0 ->
  filter_for_work buckets pairs (T0 - 1) <> [].
Proof.
  intros Hlen Hmax. apply py_max_in, in_map_iff in Hmax.
  destruct Hmax as (pr & Hsum & Hin).
  destruct (in_combine_of_lengths pairs buckets pr Hlen Hin) as [b Hb].
  assert (Hkept : In b (filter_for_work buckets pairs (T0 - 1))).
  { unfold filter_for_work. apply in_map_iff. exists (pr, b).
    split; [reflexivity|]. apply filter_In. split; [exact Hb|].
    apply Z.gtb_lt. lia. }
  intros Hnil. rewrite Hnil in Hkept. destruct Hkept.
Qed.

Section SweepEffects.

Variable project : Project.
Variable stored_event_count : Z.
Variable buckets : list Bucket.
Variable pairs : list (Z * Z).

(** A row that no bucket's [DELETE] selects at the last threshold or above
    is there after the sweep. *)
Lemma sweep_spares (e : Event) (fuel : nat) :
  forall T d w r w',
    sweep fuel project stored_event_count buckets pairs T d w = (r, w') ->
    In e (rows w) ->
    match r with
    | Returned (T', _) | Raised (NoMoreEffectiveEviction T' _) =>
        (forall T'', T' <= T'' ->
           selected_by_a_bucket project buckets T'' e = false) ->
        In e (rows w')
    | _ => True
    end.
Proof.
  induction fuel as [|fuel IH]; intros T d w r w' Hrun He.
  - injection Hrun as <- <-. exact I.
  - cbn [sweep] in Hrun.
    destruct (stored_event_count - d >? _).
    + unfold bind at 1 in Hrun.
      destruct (evict_for_irrelevance project (T - 1) _ _ w) as [n w1] eqn:Hpass.
      assert (Hpass1 :
        selected_by_a_bucket project buckets (T - 1) e = false -> In e (rows w1)).
      { intros Hsel.
        match type of Hpass with
        | evict_for_irrelevance _ _ ?narrowed ?quota _ = _ =>
            pose proof (evict_for_irrelevance_from_spares project (T - 1) quota
                          narrowed 0 w e He) as Hkept
        end.
        unfold evict_for_irrelevance in Hpass. rewrite Hpass in Hkept.
        apply Hkept.
        destruct (selected_by_a_bucket project (filter_for_work _ _ _) (T - 1) e)
          eqn:Hnarrow; [|reflexivity].
        apply (selected_by_a_bucket_incl project _ buckets) in Hnarrow;
          [congruence|].
        intros b. apply filter_for_work_incl. }
      destruct (T - 1 <? -1).
      * injection Hrun as <- <-. intros Hsafe. apply Hpass1, Hsafe. lia.
      * pose proof (sweep_spec _ _ _ _ _ _ _ _ _ _ Hrun) as Hspec.
        destruct r as [[T' d']|[|T' d']|]; try exact I.
        -- intros Hsafe. destruct Hspec as (_ & HT & _).
           assert (He1 : In e (rows w1)) by (apply Hpass1, Hsafe; lia).
           exact (IH _ _ _ _ _ Hrun He1 Hsafe).
        -- intros Hsafe. destruct Hspec as (_ & _ & HT & _).
           assert (He1 : In e (rows w1)) by (apply Hpass1, Hsafe; lia).
           exact (IH _ _ _ _ _ Hrun He1 Hsafe).
    + injection Hrun as <- <-. intros _. exact He.
Qed.

(** The [DELETE]s of a sweep: none when it starts at or below the target,
    at least one when it starts above it with a bucket to work on. *)
Lemma sweep_log (fuel : nat) :
  forall T d w r w',
    sweep fuel project stored_event_count buckets pairs T d w = (r, w') ->
    exists issued,
      delete_log w' = delete_log w ++ issued
      /\ (forall dq, In dq issued -> dq_project dq = project_pk project)
      /\ (stored_event_count - d
            <= lowered_target (retention_max_event_count project) ->
          issued = [])
      /\ (stored_event_count - d
            > lowered_target (retention_max_event_count project) ->
          (0 < fuel)%nat ->
          filter_for_work buckets pairs (T - 1) <> [] ->
          issued <> [])
      /\ match r with
         | Returned (_, d') | Raised (NoMoreEffectiveEviction _ d') =>
             d' = d + total_deletions issued
         | _ => True
         end.
Proof.
  induction fuel as [|fuel IH]; intros T d w r w' Hrun.
  - injection Hrun as <- <-. exists []. rewrite app_nil_r.
    split; [reflexivity|]. split; [intros dq []|]. split; [reflexivity|].
    split; [lia | exact I].
  - cbn [sweep] in Hrun.
    destruct (stored_event_count - d >? _) eqn:Hover.
    + apply Z.gtb_lt in Hover. unfold bind at 1 in Hrun.
      destruct (evict_for_irrelevance project (T - 1) _ _ w) as [n w1] eqn:Hpass.
      unfold evict_for_irrelevance in Hpass.
      apply evict_for_irrelevance_from_log in Hpass.
      destruct Hpass as (issued1 & Hlog1 & Hn & _ & Hwork & Hproj1).
      destruct (T - 1 <? -1).
      * injection Hrun as <- <-. exists issued1.
        split; [exact Hlog1|]. split; [exact Hproj1|]. split; [lia|].
        split; [intros _ _; exact Hwork | lia].
      * apply IH in Hrun.
        destruct Hrun as (issued2 & Hlog2 & Hproj2 & _ & _ & Hd).
        exists (issued1 ++ issued2).
        split; [rewrite Hlog2, Hlog1, app_assoc; reflexivity|].
        split.
        { intros dq Hin. apply in_app_or in Hin. destruct Hin; auto. }
        split; [lia|]. split.
        { intros _ _ Hne Hnil. apply app_eq_nil in Hnil.
          destruct Hnil as [Hnil _]. exact (Hwork Hne Hnil). }
        rewrite total_deletions_app.
        destruct r as [[T' d']|[|T' d']|]; try exact I; lia.
    + rewrite Z.gtb_ltb in Hover. apply Z.ltb_ge in Hover.
      injection Hrun as <- <-. exists []. rewrite app_nil_r.
      split; [reflexivity|]. split; [intros dq []|]. split; [reflexivity|].
      split; [lia|]. cbn. lia.
Qed.

End SweepEffects.

(** X19: when [evict_for_max_events] ends with the threshold [T], returned
    or carried by the exhaustion error, every row whose total irrelevance on
    the buckets planned at the start is at most [T] is still in the store. *)
Theorem evict_for_max_events_spares_rows_at_or_below_its_threshold
    (project : Project) (timestamp : datetime) (stored_event_count : option Z)
    (w : World) (T : Z) (e : Event) (total : Z) :
  let planned := fst (get_epoch_bounds_with_irrelevance project timestamp w) in
  let run := evict_for_max_events project timestamp stored_event_count w in
  fst run = Returned T \/ (exists d, fst run = Raised (NoMoreEffectiveEviction T d)) ->
  In e (rows w) ->
  total_irrelevance planned e = Some total ->
  total <= T ->
  In e (rows (snd run)).
Proof.
  intros planned run Hend He Htotal Hle. subst run.
  destruct (evict_for_max_events_unfold project timestamp stored_event_count w)
    as (T0 & _ & _ & Heq).
  fold planned in Heq. rewrite Heq in *. clear Heq.
  destruct (sweep _ _ _ _ _ _ _ w) as [r w1] eqn:Hsweep.
  pose proof (sweep_spares _ _ _ _ e _ _ _ _ _ _ Hsweep He) as Hspare.
  destruct (get_epoch_bounds_with_irrelevance_shape project timestamp w)
    as (xs & Hdesc & Hplanned).
  assert (Hp : planned = buckets_of_bounds xs)
    by (subst planned; rewrite Hplanned; reflexivity).
  assert (Hsafe : forall T'', T <= T'' ->
                    selected_by_a_bucket project planned T'' e = false).
  { intros T'' HT. rewrite Hp, selected_by_a_bucket_over_threshold by exact Hdesc.
    rewrite <- Hp. apply (over_threshold_total project planned T'' total e Htotal).
    lia. }
  destruct r as [[T' d']|[|T' d']|]; cbn [fst snd] in *.
  - destruct Hend as [Hend|[d Hend]]; [|discriminate].
    injection Hend as ->. cbn [logged rows]. exact (Hspare Hsafe).
  - destruct Hend as [Hend|[d Hend]]; discriminate.
  - destruct Hend as [Hend|[d Hend]]; [discriminate|].
    injection Hend as -> _. exact (Hspare Hsafe).
  - destruct Hend as [Hend|[d Hend]]; discriminate.
Qed.

(** X20: [evict_for_max_events] issues a [DELETE] exactly when the stored
    count is above the lowered target. All its [DELETE]s are on its own
    project, and their total is the number of rows removed. *)
Theorem evict_for_max_events_deletes_exactly_when_above_the_target
    (project : Project) (timestamp : datetime) (stored_event_count : option Z)
    (w : World) :
  let run := evict_for_max_events project timestamp stored_event_count w in
  exists issued,
    delete_log (snd run) = delete_log w ++ issued
    /\ (issued = []
        <-> stored_count stored_event_count project w
            <= lowered_target (retention_max_event_count project))
    /\ (forall dq, In dq issued -> dq_project dq = project_pk project)
    /\ total_deletions issued
       = Z.of_nat (length (rows w)) - Z.of_nat (length (rows (snd run))).
Proof.
  intros run. subst run.
  destruct (evict_for_max_events_unfold project timestamp stored_event_count w)
    as (T0 & Hmax & Hlen & Heq).
  rewrite Heq. clear Heq.
  destruct (sweep _ _ _ _ _ _ _ w) as [r w1] eqn:Hsweep.
  pose proof (sweep_spec _ _ _ _ _ _ _ _ _ _ Hsweep) as Hspec.
  destruct (sweep_log _ _ _ _ _ _ _ _ _ _ Hsweep)
    as (issued & Hlog & Hproj & Hnone & Hsome & Hd).
  rewrite Z.sub_0_r in Hnone, Hsome.
  assert (Hiff : issued = []
                 <-> stored_count stored_event_count project w
                     <= lowered_target (retention_max_event_count project)).
  { split; [|exact Hnone]. intros Hnil.
    destruct (Z_le_gt_dec (stored_count stored_event_count project w)
                (lowered_target (retention_max_event_count project)))
      as [Hle|Hgt]; [exact Hle|].
    exfalso. apply (Hsome Hgt); [unfold sweep_fuel; lia | | exact Hnil].
    exact (filter_for_work_first_pass _ _ _ Hlen Hmax). }
  exists issued.
  destruct r as [[T d]|[|T d]|]; cbn [fst snd logged delete_log rows].
  - destruct Hspec as (Hev & _). apply evicts_length in Hev.
    split; [exact Hlog|]. split; [exact Hiff|]. split; [exact Hproj | lia].
  - destruct Hspec.
  - destruct Hspec as (Hev & _). apply evicts_length in Hev.
    split; [exact Hlog|]. split; [exact Hiff|]. split; [exact Hproj | lia].
  - unfold sweep_fuel in Hspec. lia.
Qed.

(** X21: a run of [evict_for_max_events] that returns leaves room: the count
    it logs is the stored count minus the rows removed and is at most the
    lowered target, so that for a capacity from 0 to below 2^48 (where the
    binary64 product of [lowered_target] is the floor of 95%) [should_evict]
    stays false while up to a twentieth of the capacity is added; and a run
    entered when [should_evict] holds has removed more than a twentieth of
    the capacity. *)
Theorem evict_for_max_events_leaves_room (project : Project) (timestamp : datetime)
    (stored_event_count : option Z) (w : World) (T : Z) :
  let run := evict_for_max_events project timestamp stored_event_count w in
  let stored := stored_count stored_event_count project w in
  let capacity := retention_max_event_count project in
  let d := Z.of_nat (length (rows w)) - Z.of_nat (length (rows (snd run))) in
  0 <= capacity < 2 ^ 48 ->
  fst run = Returned T ->
  (exists T0, performance_log (snd run)
              = performance_log w ++ [mkPerformanceRecord (stored - d) T0 T])
  /\ stored - d <= lowered_target capacity
  /\ (forall k later, 20 * k <= capacity ->
        should_evict project later (stored - d + k) = false)
  /\ (should_evict project timestamp stored = true -> capacity < 20 * d).
Proof.
  intros run stored capacity d Hcap Hret.
  destruct run as [r w'] eqn:Hrun. cbn [fst snd] in *. subst r.
  apply evict_for_max_events_outcome in Hrun.
  destruct Hrun as (T0 & T' & d' & Hev & _ & [(Heq & Hleft & _ & Hlog)|(Heq & _)] & _);
    [|discriminate].
  injection Heq as <-. apply evicts_length in Hev.
  assert (Hd : d' = d) by (subst d; lia). subst d'.
  fold stored capacity in Hleft, Hlog.
  destruct (lowered_target_slack capacity Hcap) as [Hle Hslack].
  split; [exists T0; exact Hlog|]. split; [exact Hleft|]. split.
  - intros k later Hk. unfold should_evict. fold capacity.
    replace (stored - d + k >? capacity) with false; [reflexivity|].
    symmetry. rewrite Z.gtb_ltb. apply Z.ltb_ge. lia.
  - unfold should_evict. fold capacity.
    destruct (stored >? capacity) eqn:Hover; [|discriminate].
    intros _. apply Z.gtb_lt in Hover. lia.
Qed.

Lemma evict_for_max_events_spares_rows_at_or_below_its_threshold_witness :
  let project := mkProject 1 10 in
  let w := world_of (sample_events 12 false) in
  let e := mkEvent 1 (sample_now - 3 * 60000000) 3 false in
  In e (rows (snd (evict_for_max_events project sample_now None w))).
Proof.
  intros project w e.
  apply (evict_for_max_events_spares_rows_at_or_below_its_threshold
           project sample_now None w 4 e 4).
  - left. vm_compute. reflexivity.
  - do 3 right. left. reflexivity.
  - vm_compute. reflexivity.
  - lia.
Defined.

Lemma evict_for_max_events_leaves_room_witness :
  let project := mkProject 1 10 in
  let w := world_of (sample_events 12 false) in
  let run := evict_for_max_events project sample_now None w in
  let d := Z.of_nat (length (rows w)) - Z.of_nat (length (rows (snd run))) in
  (exists T0, performance_log (snd run)
              = performance_log w ++ [mkPerformanceRecord (13 - d) T0 4])
  /\ 13 - d <= lowered_target 10
  /\ (forall k later, 20 * k <= 10 ->
        should_evict project later (13 - d + k) = false)
  /\ (should_evict project sample_now 13 = true -> 10 < 20 * d).
Proof.
  intros project w run d.
  apply (evict_for_max_events_leaves_room project sample_now None w 4).
  - vm_compute. split; [discriminate | reflexivity].
  - vm_compute. reflexivity.
Defined.

Lemma lowered_target_is_95_percent_rounded_toward_zero_witness :
  lowered_target 10000 = 95 * 10000 / 100
  /\ 0 <= lowered_target 10000 <= 10000
  /\ 10000 <= 20 * (10000 - lowered_target 10000) < 10000 + 20.
Proof.
  apply (proj1 (proj2 (proj2 (proj2
           (lowered_target_is_95_percent_rounded_toward_zero 10000))))).
  vm_compute. split; [discriminate | reflexivity].
Defined.

(** X22: a second run of [evict_for_max_events] right after one that
    returned, both counting the rows themselves, issues no [DELETE] and
    leaves the rows as they are; it returns the maximum it surveys. *)
Theorem evict_for_max_events_again_deletes_nothing (project : Project)
    (timestamp later : datetime) (w : World) (T : Z) :
  let first := evict_for_max_events project timestamp None w in
  let again := evict_for_max_events project later None (snd first) in
  fst first = Returned T ->
  rows (snd again) = rows (snd first)
  /\ delete_log (snd again) = delete_log (snd first)
  /\ exists T', fst again = Returned T'
                /\ performance_log (snd again)
                   = performance_log (snd first)
                     ++ [mkPerformanceRecord
                           (project_count project (rows (snd first)) + 1) T' T'].
Proof.
  intros first again Hret. subst again.
  destruct first as [r w'] eqn:Hrun. cbn [fst snd] in *. subst r.
  apply evict_for_max_events_outcome in Hrun.
  destruct Hrun as (T0 & T' & d & Hev & _ & [(_ & Hleft & _)|(Heq & _)] & _);
    [|discriminate].
  apply evicts_project_count in Hev. cbn [stored_count] in Hleft.
  destruct (evict_for_max_events_unfold project later None w')
    as (T1 & _ & _ & Heq).
  rewrite Heq. clear Heq. unfold sweep_fuel. cbn [sweep stored_count].
  replace (project_count project (rows w') + 1 - 0
             >? lowered_target (retention_max_event_count project)) with false
    by (symmetry; rewrite Z.gtb_ltb; apply Z.ltb_ge; lia).
  cbn [ret fst snd logged rows delete_log performance_log].
  split; [reflexivity|]. split; [reflexivity|].
  exists T1. rewrite Z.sub_0_r. split; reflexivity.
Qed.

Lemma evict_for_max_events_again_deletes_nothing_witness :
  let project := mkProject 1 10 in
  let w := world_of (sample_events 12 false) in
  let first := evict_for_max_events project sample_now None w in
  let again := evict_for_max_events project (sample_now + 60000000) None (snd first) in
  rows (snd again) = rows (snd first)
  /\ delete_log (snd again) = delete_log (snd first)
  /\ exists T', fst again = Returned T'
                /\ performance_log (snd again)
                   = performance_log (snd first)
                     ++ [mkPerformanceRecord
                           (project_count project (rows (snd first)) + 1) T' T'].
Proof.
  intros project w first again.
  apply (evict_for_max_events_again_deletes_nothing project sample_now
           (sample_now + 60000000) w 4).
  vm_compute. reflexivity.
Defined.

(** ** Epochs and bits, further *)

(** X23: [get_epoch] never decreases with time. For an instant at or after
    1970 and less than 1250000 hours after it,
    [datetime_for_epoch (get_epoch d)] is the start of the hour of [d]; for an
    instant at or before 1970 and less than 1250000 hours before it, it is
    the end of its hour. *)
Theorem get_epoch_is_monotone_and_brackets_the_instant (d d' : datetime) :
  (d <= d' -> get_epoch d <= get_epoch d')
  /\ (0 <= d < datetime_for_epoch 1250000 ->
      datetime_for_epoch (get_epoch d) <= d < datetime_for_epoch (get_epoch d + 1))
  /\ (- datetime_for_epoch 1250000 < d <= 0 ->
      datetime_for_epoch (get_epoch d - 1) < d <= datetime_for_epoch (get_epoch d)).
Proof.
  change (datetime_for_epoch 1250000) with (1250000 * 3600000000).
  split; [apply get_epoch_monotone|]. split.
  - intros Hd. rewrite get_epoch_quot_in_range by lia.
    rewrite !datetime_for_epoch_eq, Z.quot_div_nonneg by lia.
    pose proof (Z.div_mod d 3600000000 ltac:(lia)) as Hdm.
    pose proof (Z.mod_pos_bound d 3600000000 ltac:(lia)) as Hm.
    lia.
  - intros Hd. rewrite get_epoch_quot_in_range by lia.
    rewrite !datetime_for_epoch_eq.
    replace d with (- (- d)) at 1 2 4 by lia.
    rewrite Z.quot_opp_l, Z.quot_div_nonneg by lia.
    pose proof (Z.div_mod (- d) 3600000000 ltac:(lia)) as Hdm.
    pose proof (Z.mod_pos_bound (- d) 3600000000 ltac:(lia)) as Hm.
    lia.
Qed.

Lemma get_epoch_is_monotone_and_brackets_the_instant_witness :
  datetime_for_epoch (get_epoch sample_now) <= sample_now
    < datetime_for_epoch (get_epoch sample_now + 1).
Proof.
  apply (proj1 (proj2 (get_epoch_is_monotone_and_brackets_the_instant
                         sample_now sample_now))).
  vm_compute. split; [discriminate | reflexivity].
Defined.

Lemma length_rstrip_0_sign (s : string) :
  String.length (rstrip_0 (String "-"%char s)) = S (String.length (rstrip_0 s)).
Proof. cbn [rstrip_0]. destruct (rstrip_0 s); reflexivity. Qed.

(** X24: for [n > 0], [nonzero_leading_bits n] is at least 1 and at most the
    number of binary digits of [n]; on [- n] the minus sign that [format]
    writes is counted as well. *)
Theorem nonzero_leading_bits_bounds_and_sign (n : Z) :
  0 < n ->
  1 <= nonzero_leading_bits n <= Z.log2 n + 1
  /\ nonzero_leading_bits (- n) = nonzero_leading_bits n + 1.
Proof.
  intros Hn. destruct n as [|p|p]; try lia. split.
  - split; [|apply nonzero_leading_bits_le; lia].
    rewrite nonzero_leading_bits_pos.
    assert (1 <= leading_bits p)%nat; [|lia].
    induction p as [p IH|p IH|]; cbn [leading_bits Pos.size_nat]; lia.
  - change (- Z.pos p) with (Z.neg p).
    unfold nonzero_leading_bits. cbn [format_b].
    rewrite length_rstrip_0_sign. lia.
Qed.

Lemma nonzero_leading_bits_bounds_and_sign_witness :
  1 <= nonzero_leading_bits 40 <= Z.log2 40 + 1
  /\ nonzero_leading_bits (- 40) = nonzero_leading_bits 40 + 1.
Proof. apply (nonzero_leading_bits_bounds_and_sign 40). lia. Defined.
